(** * celeri: block labelling, polygon areas and segment bookkeeping

    A shallow embedding of the numeric kernels of [celeri.py] that surround
    the block-closure engine, together with the properties the design
    document states about them.

    Conventions of the embedding:
    - NumPy float64 values are modelled by exact rationals ([Q]); every
      statement is about the arithmetic the code writes down, not about
      rounding.  Rationals are compared with [==].  The one exception is
      the range of [wrap2360], which the rounding of its addition decides:
      module [Float64] rounds that addition to the nearest binary64 value.
    - One-dimensional arrays are lists; an index out of range or a shape
      mismatch, which NumPy and pandas report by raising, is [None].
    - A pandas DataFrame is a row count and a finite map from column names
      to columns; DataFrames live in a store, because the code copies and
      mutates them in place.
    - The closure engine [celeri_closure] is not among the sources.  Where
      [celeri.py] calls it, its result is a parameter; the property that is
      about the engine itself is stated on a model of the engine written
      from the design document (module [HalfEdges]). *)

From Stdlib Require Import QArith Qabs Qpower Lqa ZArith ZifyNat Lia List.
From stdpp Require Import base option list strings gmap infinite.

(** ** NumPy primitives *)

Module Np.

(** [np.roll(a, 1)]: the last element moves to the front. *)
Definition roll1 {A} (a : list A) : list A :=
  match a with
  | [] => []
  | v :: _ => List.last a v :: List.removelast a
  end.

(** [np.roll(a, k)] for a non-negative shift [k]. *)
Definition roll {A} (k : nat) (a : list A) : list A :=
  Nat.iter k roll1 a.

(** Sum of products of two vectors, position by position. *)
Fixpoint dot_aux (x y : list Q) : Q :=
  match x, y with
  | a :: x', b :: y' => (a * b + dot_aux x' y')%Q
  | _, _ => 0%Q
  end.

(** [np.dot(x, y)] on one-dimensional arrays; a length mismatch raises. *)
Definition dot (x y : list Q) : option Q :=
  if Nat.eqb (length x) (length y) then Some (dot_aux x y) else None.

(** [np.where(cond)[0]] on a one-dimensional array: the positions at
    which the condition holds, in increasing order. *)
Fixpoint where_from {A} (p : A -> bool) (i : nat) (a : list A) : list nat :=
  match a with
  | [] => []
  | v :: a' => if p v then i :: where_from p (S i) a' else where_from p (S i) a'
  end.

Definition where_ {A} (p : A -> bool) (a : list A) : list nat :=
  where_from p 0 a.

(** [a[idx]]: fancy indexing; any index out of range raises. *)
Definition take_at {A} (a : list A) (idx : list nat) : option (list A) :=
  mapM (fun i => a !! i) idx.

(** [a[idx] = vals] with [vals] as long as [idx]. *)
Fixpoint put_at {A} (a : list A) (idx : list nat) (vals : list A)
  : option (list A) :=
  match idx, vals with
  | [], [] => Some a
  | i :: idx', v :: vals' =>
      if decide (i < length a)%nat then put_at (<[i:=v]> a) idx' vals'
      else None
  | _, _ => None
  end.

(** [a[mask] = v] for a boolean mask and a scalar [v]; the mask must be
    as long as the array. *)
Definition fill_mask {A} (a : list A) (mask : list bool) (v : A)
  : option (list A) :=
  if Nat.eqb (length mask) (length a)
  then Some (zip_with (fun (m : bool) old => if m then v else old) mask a)
  else None.

(** [np.cross(a, b)] on arrays of shape (n, 3), one row at a time. *)
Definition cross3 (a b : Q * Q * Q) : Q * Q * Q :=
  let '(a0, a1, a2) := a in
  let '(b0, b1, b2) := b in
  (a1 * b2 - a2 * b1, a2 * b0 - a0 * b2, a0 * b1 - a1 * b0)%Q.

(** [np.transpose(np.array([x, y, z]))]: three columns of equal length
    become rows. *)
Definition rows3 (x y z : list Q) : option (list (Q * Q * Q)) :=
  if Nat.eqb (length x) (length y) && Nat.eqb (length y) (length z)
  then Some (zip (zip x y) z) else None.

Definition cross (a b : list (Q * Q * Q)) : option (list (Q * Q * Q)) :=
  if Nat.eqb (length a) (length b) then Some (zip_with cross3 a b) else None.

End Np.

(** Comparisons of floats as booleans. *)
Definition Qltb (a b : Q) : bool := negb (Qle_bool b a).

(** [returns o P]: the call did not raise and its value satisfies [P]. *)
Definition returns {A} (o : option A) (P : A -> Prop) : Prop :=
  exists v, o = Some v /\ P v.

(** ** [polygon_area] *)

Definition polygon_area (x y : list Q) : option Q :=
  a ← Np.dot x (Np.roll1 y);
  b ← Np.dot y (Np.roll1 x);
  Some ((1 # 2) * Qabs (a - b))%Q.

(** The signed area of the shoelace formula as it is usually written:
    half the sum of [x_i * y_(i+1) - x_(i+1) * y_i] over the edges of the
    closed ring, the last vertex being joined to the first. *)
Fixpoint shoelace_edges (first prev : Q * Q) (ring : list (Q * Q)) : Q :=
  match ring with
  | [] => (fst prev * snd first - fst first * snd prev)%Q
  | v :: ring' =>
      (fst prev * snd v - fst v * snd prev + shoelace_edges first v ring')%Q
  end.

Definition shoelace_signed (ring : list (Q * Q)) : Q :=
  match ring with
  | [] => 0%Q
  | v :: ring' => ((1 # 2) * shoelace_edges v v ring')%Q
  end.

(** ** [wrap2360] *)

(** [lon[np.where(lon < 0.0)] += 360.0]: every negative entry is shifted
    once; the array is returned. *)
Definition wrap2360 (lon : list Q) : list Q :=
  map (fun v => if Qltb v 0 then (v + 360)%Q else v) lon.

(** ** Rounding: [wrap2360] in binary64 *)

Module Float64.

(** The integer nearest to a rational, a tie going to the even one. *)
Definition round_half_even (q : Q) : Z :=
  let n := Qnum q in
  let d := Z.pos (Qden q) in
  let f := (n / d)%Z in
  match (2 * (n mod d) ?= d)%Z with
  | Lt => f
  | Gt => (f + 1)%Z
  | Eq => if Z.even f then f else (f + 1)%Z
  end.

(** For [q > 0], the integer [k] with [2^k <= q < 2^(k+1)]. *)
Definition floor_log2 (q : Q) : Z :=
  let k := (Z.log2 (Qnum q) - Z.log2 (Z.pos (Qden q)))%Z in
  if Qle_bool (2 ^ k)%Q q then k else (k - 1)%Z.

(** The exponent of the last place of the binary64 values around [q]:
    53 significant bits, and no exponent below that of the subnormal
    numbers. *)
Definition exponent (q : Q) : Z :=
  Z.max (-1074) (floor_log2 (Qabs q) - 52).

(** The binary64 value nearest to [q], ties to even, as IEEE 754 rounds
    the exact result of an operation.  Rationals have no infinity: a
    result of magnitude [2^1024] or more, which overflows in binary64, is
    not represented, and [round] is only used far below it. *)
Definition round (q : Q) : Q :=
  let e := exponent q in
  (inject_Z (round_half_even (q / 2 ^ e)) * 2 ^ e)%Q.

(** [a + b] on binary64 values. *)
Definition add (a b : Q) : Q := round (a + b).

(** [lon[np.where(lon < 0.0)] += 360.0] with the addition rounded; the
    comparison and the selection are exact. *)
Definition wrap2360 (lon : list Q) : list Q :=
  map (fun v => if Qltb v 0 then add v 360 else v) lon.

End Float64.

(** ** DataFrames in a store *)

Inductive column :=
| FloatCol (vs : list Q)
| IntCol (vs : list Z)
| ObjCol (vs : list string).

Definition column_length (c : column) : nat :=
  match c with
  | FloatCol vs => length vs
  | IntCol vs => length vs
  | ObjCol vs => length vs
  end.

Record frame := Frame { nrows : nat; columns : gmap string column }.

(** Every column of a DataFrame is as long as its index. *)
Definition frame_wf (f : frame) : Prop :=
  map_Forall (fun _ c => column_length c = nrows f) (columns f).

(** [frame.name] read as a float64 array. *)
Definition floats (f : frame) (name : string) : option (list Q) :=
  match columns f !! name with
  | Some (FloatCol vs) => Some vs
  | _ => None
  end.

(** [frame.name] read as numbers, whether stored as int64 or float64. *)
Definition numbers (f : frame) (name : string) : option (list Q) :=
  match columns f !! name with
  | Some (FloatCol vs) => Some vs
  | Some (IntCol vs) => Some (map inject_Z vs)
  | _ => None
  end.

(** The buffer behind [frame.name.values] is replaced by [vs]. *)
Definition set_values (f : frame) (name : string) (vs : list Q) : frame :=
  Frame (nrows f) (<[name := FloatCol vs]> (columns f)).

(** [frame[name] = col]: a column of the wrong length raises. *)
Definition set_column (f : frame) (name : string) (c : column) : option frame :=
  if Nat.eqb (column_length c) (nrows f)
  then Some (Frame (nrows f) (<[name := c]> (columns f)))
  else None.

(** The interpreter state the modelled functions can observe: DataFrame
    objects by identity, and what has been printed. *)
Record world := World { heap : gmap nat frame; stdout : list string }.

(** A Python computation: it may raise ([None]) or return a value and a
    new state. *)
Definition py (A : Type) : Type := world -> option (A * world).

#[global] Instance py_ret : MRet py := fun A a w => Some (a, w).
#[global] Instance py_bind : MBind py :=
  fun A B k m w => match m w with Some (a, w') => k a w' | None => None end.

Definition raise {A} : py A := fun _ => None.

Definition lift {A} (o : option A) : py A :=
  fun w => match o with Some a => Some (a, w) | None => None end.

Definition load (l : nat) : py frame :=
  fun w => match heap w !! l with Some f => Some (f, w) | None => None end.

Definition store (l : nat) (f : frame) : py unit :=
  fun w => Some (tt, World (<[l := f]> (heap w)) (stdout w)).

(** [copy.deepcopy(df)] and [df.copy(deep=True)]: a new object with the
    same contents. *)
Definition deepcopy (l : nat) : py nat :=
  fun w =>
    match heap w !! l with
    | Some f =>
        let l' := fresh (dom (heap w)) in
        Some (l', World (<[l' := f]> (heap w)) (stdout w))
    | None => None
    end.

Definition print (s : string) : py unit :=
  fun w => Some (tt, World (heap w) (stdout w ++ [s])).

(** [df.name.values] read through the store. *)
Definition values (l : nat) (name : string) : py (list Q) :=
  f ← load l; lift (floats f name).

(** [dst.name.values[idx] = vals]. *)
Definition assign_at (dst : nat) (name : string) (idx : list nat)
    (vals : list Q) : py unit :=
  f ← load dst;
  old ← lift (floats f name);
  new ← lift (Np.put_at old idx vals);
  store dst (set_values f name new).

(** [df.name.values[df.flag == k] = v]. *)
Definition assign_where (l : nat) (name flag : string) (k v : Q) : py unit :=
  f ← load l;
  flags ← lift (numbers f flag);
  old ← lift (floats f name);
  new ← lift (Np.fill_mask old (map (fun x => Qeq_bool x k) flags) v);
  store l (set_values f name new).

(** ** [order_endpoints_sphere] *)

Definition order_endpoints_sphere (segment : nat) : py nat :=
  segment_copy ← deepcopy segment;
  x1 ← values segment "x1"; y1 ← values segment "y1"; z1 ← values segment "z1";
  endpoints1 ← lift (Np.rows3 x1 y1 z1);
  x2 ← values segment "x2"; y2 ← values segment "y2"; z2 ← values segment "z2";
  endpoints2 ← lift (Np.rows3 x2 y2 z2);
  cross_product ← lift (Np.cross endpoints1 endpoints2);
  let swap_endpoint_idx :=
    Np.where_ (fun c : Q * Q * Q => Qltb (snd c) 0) cross_product in
  lon2 ← values segment "lon2"; v ← lift (Np.take_at lon2 swap_endpoint_idx);
  assign_at segment_copy "lon1" swap_endpoint_idx v;;
  lat2 ← values segment "lat2"; v ← lift (Np.take_at lat2 swap_endpoint_idx);
  assign_at segment_copy "lat1" swap_endpoint_idx v;;
  lon1 ← values segment "lon1"; v ← lift (Np.take_at lon1 swap_endpoint_idx);
  assign_at segment_copy "lon2" swap_endpoint_idx v;;
  lat1 ← values segment "lat1"; v ← lift (Np.take_at lat1 swap_endpoint_idx);
  assign_at segment_copy "lat2" swap_endpoint_idx v;;
  mret segment_copy.

(** ** [locking_depth_manager] *)

Record command := Command {
  locking_depth_flag2 : Q;
  locking_depth_flag3 : Q;
  locking_depth_flag4 : Q;
  locking_depth_flag5 : Q;
  locking_depth_override_flag : string;
  locking_depth_override_value : Q
}.

(** [series.values = v]: [values] is a read-only property of a pandas
    Series, so the assignment raises AttributeError.  (Lines 231-242 write
    into the array that [values] returns; line 245 assigns to the property
    itself.) *)
Definition set_values_property (l : nat) (name : string) (v : Q) : py unit :=
  _ ← load l; raise.

Definition locking_depth_manager (segment : nat) (cmd : command) : py nat :=
  segment ← deepcopy segment;
  assign_where segment "locking_depth" "locking_depth_flag" 2
    (locking_depth_flag2 cmd);;
  assign_where segment "locking_depth" "locking_depth_flag" 3
    (locking_depth_flag3 cmd);;
  assign_where segment "locking_depth" "locking_depth_flag" 4
    (locking_depth_flag4 cmd);;
  assign_where segment "locking_depth" "locking_depth_flag" 5
    (locking_depth_flag5 cmd);;
  (if String.eqb (locking_depth_override_flag cmd) "yes"
   then set_values_property segment "locking_depth"
          (locking_depth_override_value cmd)
   else mret tt);;
  mret segment.

(** ** [process_segment]: the plate-carree mid longitude (lines 356-365) *)

(** [np.where(sep > 180, sep - 360, np.where(sep < -180, sep + 360, sep))]
    at one position. *)
Definition periodic_lon_separation (sep : Q) : Q :=
  if Qltb 180 sep then (sep - 360)%Q
  else if Qltb sep (-180) then (sep + 360)%Q
  else sep.

Definition mid_lon_plate_carree (lon1 lon2 : list Q) : list Q :=
  let sep := zip_with (fun b a => (b - a)%Q) lon2 lon1 in
  zip_with (fun a s => (a + periodic_lon_separation s / 2)%Q) lon1 sep.

(** ** [assign_block_labels] *)

(** What [celeri_closure] hands back: the traced polygons with their
    vertex rings (rows of lon, lat), the west/east label of every segment
    ([get_segment_labels]), and the point locator. *)
Record polygon := Polygon { vertices : list (Q * Q) }.

Record closure := Closure {
  polygons : list polygon;
  get_segment_labels : list (Z * Z);
  assign_points : list Q -> list Q -> list Z
}.

Definition n_polygons (c : closure) : nat := length (polygons c).

(** [df.name.to_numpy()] read through the store. *)
Definition to_numpy (l : nat) (name : string) : py (list Q) :=
  f ← load l; lift (numbers f name).

(** [df[name] = col], in place. *)
Definition setitem (l : nat) (name : string) (c : column) : py unit :=
  f ← load l; f' ← lift (set_column f name c); store l f'.

(** [df[name]] read as integers. *)
Definition ints (l : nat) (name : string) : py (list Z) :=
  f ← load l;
  lift (match columns f !! name with Some (IntCol vs) => Some vs | _ => None end).

(** [np.union1d]: the sorted array of the distinct values of both
    arguments, kept as a finite set. *)
Definition union1d (a b : list nat) : gset nat :=
  list_to_set a ∪ list_to_set b.

(** The array of shape (n, 2, 2) filled from the four endpoint columns. *)
Definition np_segments_of (lon1 lat1 lon2 lat2 : list Q)
  : list ((Q * Q) * (Q * Q)) :=
  zip (zip lon1 lat1) (zip lon2 lat2).

Section AssignBlockLabels.

(** [celeri_closure.run_block_closure]; its module is not part of the
    sources at hand, so the closure engine is a parameter. *)
Variable run_block_closure : list ((Q * Q) * (Q * Q)) -> option closure.

(** Lines 402-420: run the closure, store the labels on the segment
    table in place, and report unprocessed segments. *)
Definition assign_block_labels_segments (segment : nat) : py closure :=
  lon1 ← to_numpy segment "lon1";
  lon2 ← to_numpy segment "lon2";
  lat1 ← to_numpy segment "lat1";
  lat2 ← to_numpy segment "lat2";
  closure ← lift (run_block_closure (np_segments_of lon1 lat1 lon2 lat2));
  let labels := get_segment_labels closure in
  setitem segment "west_labels" (IntCol (labels.*1));;
  setitem segment "east_labels" (IntCol (labels.*2));;
  east ← ints segment "east_labels";
  west ← ints segment "west_labels";
  let unprocessed_indices :=
    union1d (Np.where_ (fun v => Z.ltb v 0) east)
            (Np.where_ (fun v => Z.ltb v 0) west) in
  (if Nat.ltb 0 (size unprocessed_indices)
   then print "Found unproccessed indices" else mret tt);;
  mret closure.

(** Lines 424-427: the loop over the traced polygons. *)
Fixpoint area_loop (block : nat) (i : nat) (ps : list polygon) : py unit :=
  match ps with
  | [] => mret tt
  | p :: ps' =>
      let vs := vertices p in
      a ← lift (polygon_area (vs.*1) (vs.*2));
      assign_at block "area_plate_carree" [i] [a];;
      area_loop block (S i) ps'
  end.

(** Lines 422-427: relative areas of the blocks. *)
Definition assign_block_labels_areas (block : nat) (c : closure) : py unit :=
  f ← load block;
  setitem block "area_plate_carree"
    (FloatCol (map (Qmult (-1)) (replicate (nrows f) 1%Q)));;
  area_loop block 0 (polygons c).

End AssignBlockLabels.

(** ** [get_fault_slip_rate_partials] *)

Module SlipRate.

(** A dense two-dimensional array, row by row. *)
Abbreviation matrix := (list (list Q)) (only parsing).

Definition zeros (n m : nat) : matrix := replicate n (replicate m 0%Q).

(** [a[i, j]] for indices in range. *)
Definition entry (a : matrix) (i j : nat) : option Q :=
  row ← a !! i; row !! j.

(** Python's normalisation of the slice [start:stop] on an axis of
    length [n]: the first position and the number of positions. *)
Definition slice_bound (n : nat) (v : Z) : Z :=
  if (v <? 0)%Z then Z.max 0 (v + Z.of_nat n) else Z.min v (Z.of_nat n).

Definition py_slice (n : nat) (start stop : Z) : nat * nat :=
  let lo := slice_bound n start in
  let hi := slice_bound n stop in
  (Z.to_nat lo, Z.to_nat (hi - lo)).

Definition ncols (a : matrix) : nat :=
  match a with [] => 0 | row :: _ => length row end.

(** [a[r:r+3, c:c+3] = m] for a 3x3 array [m]: both slices must select
    exactly three positions, otherwise the shapes do not broadcast. *)
Definition set_block (a : matrix) (r c : Z) (m : matrix) : option matrix :=
  let '(r0, rn) := py_slice (length a) r (r + 3) in
  let '(c0, cn) := py_slice (ncols a) c (c + 3) in
  if Nat.eqb rn 3 && Nat.eqb cn 3 then
    Some (imap (fun i row =>
            if Nat.leb r0 i && Nat.ltb i (r0 + 3) then
              imap (fun j old =>
                if Nat.leb c0 j && Nat.ltb j (c0 + 3)
                then default old (entry m (i - r0) (j - c0)) else old) row
            else row) a)
  else None.

Definition neg (m : matrix) : matrix := map (map Qopp) m.

(** One row of the segment table, with the fields the function reads. *)
Record segment_row := SegmentRow {
  east_labels : Z; west_labels : Z;
  mid_x : Q; mid_y : Q; mid_z : Q; mid_lon : Q; mid_lat : Q;
  lon1 : Q; lat1 : Q; lon2 : Q; lat2 : Q; dip : Q
}.

Section Partials.

(** [np.sin(np.deg2rad(a))], [np.cos(np.deg2rad(a))] and the forward
    azimuth of [GEOID.inv] are library functions, kept abstract. *)
Variables sin_deg cos_deg : Q -> Q.
Variable geoid_inv_azimuth : Q -> Q -> Q -> Q -> Q.

Definition get_cross_partials (v : Q * Q * Q) : matrix :=
  let '(v0, v1, v2) := v in
  [ [0; v2; - v1]; [- v2; 0; v0]; [v1; - v0; 0] ]%Q.

Definition dot3 (a : Q * Q * Q) (b : Q * Q * Q) : Q :=
  let '(a0, a1, a2) := a in
  let '(b0, b1, b2) := b in
  (a0 * b0 + a1 * b1 + a2 * b2)%Q.

(** Returns (vel_north, vel_east, vel_up). *)
Definition cartesian_vector_to_spherical_vector
    (vel_x vel_y vel_z lon lat : Q) : Q * Q * Q :=
  let v := (vel_x, vel_y, vel_z) in
  (dot3 (- sin_deg lat * cos_deg lon, - sin_deg lat * sin_deg lon,
         cos_deg lat)%Q v,
   dot3 (- sin_deg lon, cos_deg lon, 0)%Q v,
   dot3 (- cos_deg lat * cos_deg lon, - cos_deg lat * sin_deg lon,
         - sin_deg lat)%Q v).

(** [R[i, j]] of a 3x3 array built by [get_cross_partials]. *)
Definition at3 (m : matrix) (i j : nat) : Q := default 0%Q (entry m i j).

(** The 3x3 block written for one segment (lines 737-846). *)
Definition slip_rate_matrix (s : segment_row) : matrix :=
  let R := get_cross_partials (mid_x s, mid_y s, mid_z s) in
  let '(vel_north_to_omega_x, vel_east_to_omega_x, _) :=
    cartesian_vector_to_spherical_vector
      (at3 R 0 0) (at3 R 1 0) (at3 R 2 0) (mid_lon s) (mid_lat s) in
  let '(vel_north_to_omega_y, vel_east_to_omega_y, _) :=
    cartesian_vector_to_spherical_vector
      (at3 R 0 1) (at3 R 1 1) (at3 R 2 1) (mid_lon s) (mid_lat s) in
  let '(vel_north_to_omega_z, vel_east_to_omega_z, _) :=
    cartesian_vector_to_spherical_vector
      (at3 R 0 2) (at3 R 1 2) (at3 R 2 2) (mid_lon s) (mid_lat s) in
  let segment_azimuth :=
    geoid_inv_azimuth (lon1 s) (lat1 s) (lon2 s) (lat2 s) in
  let flip := Qltb (lat2 s) (lat1 s) in
  let sgn (u : Q) : Q := if flip then (- u)%Q else u in
  let unit_x_parallel := sgn (cos_deg (90 - segment_azimuth)) in
  let unit_y_parallel := sgn (sin_deg (90 - segment_azimuth)) in
  let unit_x_perpendicular := sgn (sin_deg (segment_azimuth - 90)) in
  let unit_y_perpendicular := sgn (cos_deg (segment_azimuth - 90)) in
  let along :=
    [ unit_x_parallel * vel_east_to_omega_x
      + unit_y_parallel * vel_north_to_omega_x;
      unit_x_parallel * vel_east_to_omega_y
      + unit_y_parallel * vel_north_to_omega_y;
      unit_x_parallel * vel_east_to_omega_z
      + unit_y_parallel * vel_north_to_omega_z ]%Q in
  let across (scale_factor : Q) :=
    [ scale_factor * (unit_x_perpendicular * vel_east_to_omega_x
                      + unit_y_perpendicular * vel_north_to_omega_x);
      scale_factor * (unit_x_perpendicular * vel_east_to_omega_y
                      + unit_y_perpendicular * vel_north_to_omega_y);
      scale_factor * (unit_x_perpendicular * vel_east_to_omega_z
                      + unit_y_perpendicular * vel_north_to_omega_z) ]%Q in
  if negb (Qeq_bool (dip s) 90) then
    [ along; across (1 / Qabs (cos_deg (dip s)))%Q; [0; 0; 0]%Q ]
  else
    [ along; [0; 0; 0]%Q; across (- (1))%Q ].

(** The body of the loop over segments (lines 732-853), from segment
    [i] on. *)
Fixpoint partials_loop (i : nat) (segment : list segment_row)
    (fault_slip_rate_partials : matrix) : option matrix :=
  match segment with
  | [] => Some fault_slip_rate_partials
  | s :: rest =>
      let row_idx := (3 * Z.of_nat i)%Z in
      let column_idx_east := (3 * east_labels s)%Z in
      let column_idx_west := (3 * west_labels s)%Z in
      let m := slip_rate_matrix s in
      p ← set_block fault_slip_rate_partials row_idx column_idx_east m;
      p ← set_block p row_idx column_idx_west (neg m);
      partials_loop (S i) rest p
  end.

Definition get_fault_slip_rate_partials (segment : list segment_row)
    (n_blocks : nat) : option matrix :=
  let n_segments := length segment in
  partials_loop 0 segment (zeros (3 * n_segments) (3 * n_blocks)).

End Partials.

End SlipRate.

(** ** The block closure *)

Module HalfEdges.

(** Modelled from the spec: the half-edge graph builder, the polygon
    tracer, the segment labeler and the exterior detector of
    [celeri_closure.run_block_closure] and [get_segment_labels] (sections
    4.2, 4.3, 4.4 and 4.6 of the design document); the module
    [celeri_closure] is not among the sources at hand.  The input is the
    output of the endpoint matcher: every segment is the pair of the
    identifiers of its two vertices.  Half-edges live in an arena indexed
    by integers: segment [i] owns half-edge [2i], from its first vertex to
    its second, and half-edge [2i+1], the twin. *)
Definition twin (h : nat) : nat := if Nat.even h then S h else Nat.pred h.

(** Modelled from the spec: the element that follows [x] in the cyclic
    order [l] (section 4.3, the next edge in the fixed angular order). *)
Fixpoint after (x : nat) (l : list nat) : option nat :=
  match l with
  | [] => None
  | y :: l' => if Nat.eqb y x then head l' else after x l'
  end.

Definition successor (x : nat) (l : list nat) : nat :=
  default (default x (head l)) (after x l).

(** Modelled from the spec: the first position of the largest area
    (section 4.6, the exterior block is the polygon whose absolute area is
    the largest). *)
Fixpoint argmax_from (best_i : nat) (best : Q) (i : nat) (l : list Q) : nat :=
  match l with
  | [] => best_i
  | a :: l' =>
      if Qltb best a then argmax_from i a (S i) l'
      else argmax_from best_i best (S i) l'
  end.

Definition argmax (l : list Q) : option nat :=
  match l with
  | [] => None
  | a :: l' => Some (argmax_from 0 a 1 l')
  end.

(** Modelled from the spec: the output of the tracer (section 4.3), the
    closed polygons, each the list of its half-edges, and the half-edges
    that were never assigned to a polygon. *)
Record traced := Traced { polygons : list (list nat); unresolved : list nat }.

Section Tracer.

(** Modelled from the spec: the ordering of the half-edges that leave a
    vertex by their direction (section 4.2) is geometry; it is a
    parameter, as are the coordinates of the vertices and the side of a
    segment that faces west (section 4.4). *)
Variable by_angle : nat -> list nat -> list nat.
Variable coord : nat -> Q * Q.
Variable west_is_left : nat -> bool.

(** Modelled from the spec: the matched segments, every one the pair of
    its vertex identifiers (section 4.1, output). *)
Variable segment : list (nat * nat).

(** Modelled from the spec: two half-edges per segment (section 4.2). *)
Definition n_half_edges : nat := 2 * length segment.

(** Modelled from the spec: the origin of a half-edge, the first vertex
    of its segment for the even one and the second for its twin; and its
    destination, the origin of the twin (section 4.2). *)
Definition origin (h : nat) : nat :=
  match segment !! (h / 2)%nat with
  | Some (a, b) => if Nat.even h then a else b
  | None => 0%nat
  end.

Definition destination (h : nat) : nat := origin (twin h).

(** Modelled from the spec: the half-edges leaving a vertex, in angular
    order (section 4.2). *)
Definition outgoing (v : nat) : list nat :=
  by_angle v (filter (fun h => origin h = v) (seq 0 n_half_edges)).

(** Modelled from the spec: the continuation of a half-edge is the one
    that follows its twin around its destination (section 4.3). *)
Definition next (h : nat) : nat :=
  successor (twin h) (outgoing (destination h)).

(** Modelled from the spec: a half-edge touches a dead end when one of its
    vertices has a single incident segment (section 4.3, edge cases). *)
Definition dangling (h : nat) : bool :=
  Nat.eqb (length (outgoing (origin h))) 1
  || Nat.eqb (length (outgoing (destination h))) 1.

(** Modelled from the spec: follow [next] from [cur] until the trace is
    back at [start]; a trace that meets a dead end, or does not close
    within the number of half-edges, yields no polygon. *)
Fixpoint walk (fuel : nat) (start cur : nat) : option (list nat) :=
  match fuel with
  | O => None
  | S fuel' =>
      if dangling cur then None
      else if Nat.eqb (next cur) start then Some [cur]
      else p ← walk fuel' start (next cur); Some (cur :: p)
  end.

(** Modelled from the spec: pick the next unvisited half-edge as the start
    of a new polygon (section 4.3). *)
Definition trace_from (st : traced) (h : nat) : traced :=
  if bool_decide (h ∈ concat (polygons st) \/ h ∈ unresolved st) then st
  else match walk n_half_edges h h with
       | Some p => Traced (polygons st ++ [p]) (unresolved st)
       | None => Traced (polygons st) (unresolved st ++ [h])
       end.

Definition run_block_closure : traced :=
  foldl trace_from (Traced [] []) (seq 0 n_half_edges).

(** Modelled from the spec: the plate-carree area of a traced polygon, by
    [polygon_area] on the ring of the origins of its half-edges, and the
    exterior block (section 4.6). *)
Definition area (p : list nat) : Q :=
  let ring := map (fun h => coord (origin h)) p in
  default 0%Q (polygon_area (ring.*1) (ring.*2)).

Definition exterior (t : traced) : option nat := argmax (map area (polygons t)).

Definition interior_polygons (t : traced) : list (list nat) :=
  match exterior t with
  | Some k => delete k (polygons t)
  | None => polygons t
  end.

(** Modelled from the spec: the block on the left of a half-edge is the
    polygon that holds it, numbered in discovery order; a half-edge that
    was never traced has the negative sentinel (section 4.4). *)
Definition side_label (t : traced) (h : nat) : Z :=
  match list_find (fun p => h ∈ p) (polygons t) with
  | Some (k, _) => Z.of_nat k
  | None => (-1)%Z
  end.

(** Modelled from the spec: the (west, east) labels of the segments
    (section 4.4). *)
Definition get_segment_labels (t : traced) : list (Z * Z) :=
  map (fun i =>
         let l := side_label t (2 * i) in
         let r := side_label t (2 * i + 1) in
         if west_is_left i then (l, r) else (r, l))
      (seq 0 (length segment)).

End Tracer.

(** Modelled from the spec: the segments of a single closed loop through
    the distinct vertices [vs], in the order of the loop; a segment set
    describes the loop when it holds these segments in any order, each in
    either direction (section 8, first property). *)
Definition loop_edges (vs : list nat) : list (nat * nat) :=
  zip vs (rotate 1 vs).

Definition orient (flip : bool) (e : nat * nat) : nat * nat :=
  if flip then (e.2, e.1) else e.

Definition single_closed_loop (segment : list (nat * nat)) : Prop :=
  exists (vs : list nat) (flips : list bool),
    NoDup vs /\ 3 <= length vs /\ length flips = length vs
    /\ segment ≡ₚ zip_with orient flips (loop_edges vs).

End HalfEdges.

(** ** Vocabulary of the proofs *)

(** The term of the shoelace sum contributed by a vertex and its
    predecessor, as [polygon_area] multiplies them out. *)
Definition edge_term (cur prev : Q * Q) : Q :=
  (fst cur * snd prev - snd cur * fst prev)%Q.

(** The predecessors of the elements of [l], [p] being the one of the
    first. *)
Fixpoint prevs {A} (p : A) (l : list A) : list A :=
  match l with
  | [] => []
  | q :: l' => p :: prevs q l'
  end.

(** The sum of the edge terms along [l], entered from [p]. *)
Fixpoint chain (p : Q * Q) (l : list (Q * Q)) : Q :=
  match l with
  | [] => 0%Q
  | q :: l' => (edge_term q p + chain q l')%Q
  end.

(** The sum around the closed ring. *)
Definition cyc (l : list (Q * Q)) : Q := chain (List.last l (0, 0)%Q) l.

(** Positions on a loop of [n] vertices: the one after and the one before
    position [j], and the position reached from [j0] after [k] steps in
    the direction [fwd]. *)
Definition nxt (n j : nat) : nat := if Nat.eqb (S j) n then 0%nat else S j.

Definition prv (n j : nat) : nat := if Nat.eqb j 0 then Nat.pred n else Nat.pred j.

Definition loop_pos (n : nat) (fwd : bool) (j0 k : nat) : nat :=
  if fwd then (if Nat.ltb (j0 + k) n then j0 + k else j0 + k - n)%nat
  else (if Nat.leb k j0 then j0 - k else j0 + n - k)%nat.

(** The vertex at position [j] of the loop [vs], and whether the segment
    at that position is stored against the direction of the loop. *)
Definition vertex_at (vs : list nat) (j : nat) : nat := default 0%nat (vs !! j).

Definition flipped (flips : list bool) (j : nat) : bool :=
  default false (flips !! j).

(** The half-edge that runs along ([fwd]) or against the loop on the
    segment at position [j], when that segment has index [g j]. *)
Definition half_edge_at (g : nat -> nat) (flips : list bool) (j : nat)
    (fwd : bool) : nat :=
  (2 * g j + (if Bool.eqb fwd (flipped flips j) then 1 else 0))%nat.

(** The polygon traced from position [j0] in the direction [fwd]. *)
Definition loop_polygon (g : nat -> nat) (flips : list bool) (n : nat)
    (fwd : bool) (j0 : nat) : list nat :=
  map (fun k => half_edge_at g flips (loop_pos n fwd j0 k) fwd) (seq 0 n).


(** The four columns [order_endpoints_sphere] writes. *)
Definition endpoint_columns : list string := ["lon1"; "lat1"; "lon2"; "lat2"].

(** ** Sample inputs *)

(** A segment table of two rows.  The first row runs west to east, the
    second one east to west. *)
Definition sample_segment : frame :=
  Frame 2 (list_to_map
    [ ("name", ObjCol ["north"; "south"]);
      ("lon1", FloatCol [10; 20]%Q); ("lat1", FloatCol [0; 1]%Q);
      ("lon2", FloatCol [11; 19]%Q); ("lat2", FloatCol [2; 3]%Q);
      ("x1", FloatCol [1; 0]%Q); ("y1", FloatCol [0; 1]%Q);
      ("z1", FloatCol [0; 0]%Q);
      ("x2", FloatCol [0; 1]%Q); ("y2", FloatCol [1; 0]%Q);
      ("z2", FloatCol [0; 0]%Q);
      ("locking_depth", FloatCol [15; 15]%Q);
      ("locking_depth_flag", IntCol [1; 2]%Z) ]).

Definition sample_world : world := World {[ 0%nat := sample_segment ]} [].

(** A closure for the two sample segments: one traced polygon, the unit
    square, and an unresolved east side on the first segment. *)
Definition sample_closure : closure :=
  Closure [Polygon [(0, 0); (1, 0); (1, 1); (0, 1)]%Q]
          [(0, -1); (0, 1)]%Z
          (fun _ _ => []).

(** A block table of three rows. *)
Definition sample_block : frame :=
  Frame 3 (list_to_map
    [ ("interior_lon", FloatCol [(1 # 2); 5; 7]%Q);
      ("interior_lat", FloatCol [(1 # 2); 5; 7]%Q) ]).

Definition sample_block_world : world :=
  World {[ 0%nat := sample_block ]} [].

(** Two segments between three blocks, and stand-ins for the library
    functions: the properties proved do not depend on them. *)
Definition sample_rows : list SlipRate.segment_row :=
  [ SlipRate.SegmentRow 1 0 1 2 3 10 20 10 20 11 21 90;
    SlipRate.SegmentRow 0 2 3 2 1 30 40 30 40 29 39 45 ]%Q.

Definition sample_sin (a : Q) : Q := (a / 100)%Q.
Definition sample_cos (a : Q) : Q := (1 - a / 100)%Q.
Definition sample_azimuth (lon1 lat1 lon2 lat2 : Q) : Q := (lon2 - lon1)%Q.

Definition sample_operator : list (list Q) :=
  default [] (SlipRate.get_fault_slip_rate_partials
                sample_sin sample_cos sample_azimuth sample_rows 3).

(** A triangle through the vertices 0, 1, 2 whose segments are stored out
    of order and two of them against the loop, with an angular rule that
    reverses the arena order. *)
Definition sample_loop : list (nat * nat) := [(2, 1); (0, 1); (0, 2)]%nat.

Definition sample_by_angle (v : nat) (l : list nat) : list nat := reverse l.

Definition sample_coord (v : nat) : Q * Q :=
  (inject_Z (Z.of_nat v), inject_Z (Z.of_nat (v * v))).

Definition sample_command (override : string) : command :=
  Command 20 25 30 35 override 7.

(** What [locking_depth_manager] leaves in a row with flag [fl] and locking
    depth [d] when nothing is overridden: the four masked assignments, the
    last one that applies winning. *)
Definition managed_depth (cmd : command) (fl d : Q) : Q :=
  if Qeq_bool fl 5 then locking_depth_flag5 cmd
  else if Qeq_bool fl 4 then locking_depth_flag4 cmd
  else if Qeq_bool fl 3 then locking_depth_flag3 cmd
  else if Qeq_bool fl 2 then locking_depth_flag2 cmd
  else d.

(** ** More NumPy primitives *)

Module NpMore.

(** The number of positions of the slice [start::step] on an axis of
    length [len], for a positive [step]. *)
Definition stride_count (len start step : nat) : nat :=
  ((len - start + step - 1) / step)%nat.

(** [a[start::step] = vals]: [vals] has one value per selected position,
    or it is a single value, which is broadcast; anything else raises. *)
Definition set_stride {A} (a : list A) (start step : nat) (vals : list A)
  : option (list A) :=
  let count := stride_count (length a) start step in
  if Nat.eqb (length vals) count || Nat.eqb (length vals) 1 then
    Some (imap (fun p old =>
            if Nat.leb start p && Nat.eqb ((p - start) mod step) 0 then
              default old
                (vals !! (if Nat.eqb (length vals) count
                          then ((p - start) / step)%nat else 0%nat))
            else old) a)
  else None.

(** [np.empty(n)]: an array of length [n] that holds whatever the
    allocator left there, [garbage p] at position [p]. *)
Definition empty (garbage : nat -> Q) (n : nat) : list Q :=
  map garbage (seq 0 n).

(** [a[idx] = v] for a scalar [v]. *)
Definition fill_at {A} (a : list A) (idx : list nat) (v : A)
  : option (list A) :=
  Np.put_at a idx (replicate (length idx) v).

End NpMore.

(** ** [interleave2], [interleave3] *)

Definition interleave2 (garbage : nat -> Q) (array_1 array_2 : list Q)
  : option (list Q) :=
  let interleaved_array :=
    NpMore.empty garbage (length array_1 + length array_2) in
  interleaved_array ← NpMore.set_stride interleaved_array 0 2 array_1;
  NpMore.set_stride interleaved_array 1 2 array_2.

Definition interleave3 (garbage : nat -> Q) (array_1 array_2 array_3 : list Q)
  : option (list Q) :=
  let interleaved_array :=
    NpMore.empty garbage
      (length array_1 + length array_2 + length array_3) in
  interleaved_array ← NpMore.set_stride interleaved_array 0 3 array_1;
  interleaved_array ← NpMore.set_stride interleaved_array 1 3 array_2;
  NpMore.set_stride interleaved_array 2 3 array_3.

(** ** [latitude_to_colatitude] *)

(** The scalar case: the name [lat] is rebound, nothing is written in
    place. *)
Definition colatitude_scalar (lat : Q) : Q :=
  if Qle_bool 0 lat then (90 - lat)%Q
  else if Qltb lat 0 then (-90 - lat)%Q
  else lat.

(** [lat[np.where(test)[0]] = c - lat[np.where(test)[0]]]. *)
Definition reflect_where (test : Q -> bool) (c : Q) (lat : list Q)
  : option (list Q) :=
  let idx := Np.where_ test lat in
  vals ← Np.take_at lat idx;
  Np.put_at lat idx (map (fun v => (c - v)%Q) vals).

(** The array that is returned.  The array case works in two passes, the
    second one on what the first one left. *)
Definition latitude_to_colatitude (lat : list Q) : option (list Q) :=
  if Nat.eqb (length lat) 1 then Some (map colatitude_scalar lat)
  else
    lat ← reflect_where (fun v => Qle_bool 0 v) 90 lat;
    reflect_where (fun v => Qltb v 0) (-90) lat.

(** What the two passes of the array case leave at one position. *)
Definition colatitude_array (v : Q) : Q :=
  let u := if Qle_bool 0 v then (90 - v)%Q else v in
  if Qltb u 0 then (-90 - u)%Q else u.

(** ** [get_rotation_displacements] *)

Section RotationDisplacements.

Variables sin_deg cos_deg : Q -> Q.

(** [celeri.sph2cart] on arrays and the radius it is called with; the
    function comes from [celeri_util] and is kept abstract. *)
Variable sph2cart : list Q -> list Q -> Q -> option (list Q * list Q * list Q).
Variable RADIUS_EARTH : Q.

(** The loop over the observation points, from the points [idx] on.
    [vel_east] and [vel_north] are as long as [lon_obs], so the two
    writes are always in range. *)
Fixpoint rotation_loop (idx : list nat) (lon_obs lat_obs x y z : list Q)
    (omega_x omega_y omega_z : Q) (vel_east vel_north : list Q)
  : option (list Q * list Q) :=
  match idx with
  | [] => Some (vel_east, vel_north)
  | i :: rest =>
      xi ← x !! i; yi ← y !! i; zi ← z !! i;
      let cross_product_operator := SlipRate.get_cross_partials (xi, yi, zi) in
      let c := SlipRate.at3 cross_product_operator in
      lon ← lon_obs !! i; lat ← lat_obs !! i;
      let '(vel_north_from_omega_x, vel_east_from_omega_x, _) :=
        SlipRate.cartesian_vector_to_spherical_vector sin_deg cos_deg
          (c 0 0) (c 1 0) (c 2 0)%nat lon lat in
      let '(vel_north_from_omega_y, vel_east_from_omega_y, _) :=
        SlipRate.cartesian_vector_to_spherical_vector sin_deg cos_deg
          (c 0 1) (c 1 1) (c 2 1)%nat lon lat in
      let '(vel_north_from_omega_z, vel_east_from_omega_z, _) :=
        SlipRate.cartesian_vector_to_spherical_vector sin_deg cos_deg
          (c 0 2) (c 1 2) (c 2 2)%nat lon lat in
      let vel_east :=
        <[i := (omega_x * vel_east_from_omega_x
                + omega_y * vel_east_from_omega_y
                + omega_z * vel_east_from_omega_z)%Q]> vel_east in
      let vel_north :=
        <[i := (omega_x * vel_north_from_omega_x
                + omega_y * vel_north_from_omega_y
                + omega_z * vel_north_from_omega_z)%Q]> vel_north in
      rotation_loop rest lon_obs lat_obs x y z omega_x omega_y omega_z
        vel_east vel_north
  end.

(** Returns (vel_east, vel_north, vel_up). *)
Definition get_rotation_displacements (lon_obs lat_obs : list Q)
    (omega_x omega_y omega_z : Q) : option (list Q * list Q * list Q) :=
  let vel_east := replicate (length lon_obs) 0%Q in
  let vel_north := replicate (length lon_obs) 0%Q in
  let vel_up := replicate (length lon_obs) 0%Q in
  '(x, y, z) ← sph2cart lon_obs lat_obs RADIUS_EARTH;
  '(vel_east, vel_north) ←
    rotation_loop (seq 0 (length lon_obs)) lon_obs lat_obs x y z
      omega_x omega_y omega_z vel_east vel_north;
  Some (vel_east, vel_north, vel_up).

End RotationDisplacements.

(** The local east and north unit vectors at longitude [lon] and latitude
    [lat], as [cartesian_vector_to_spherical_vector] writes them. *)
Definition east_unit (sin_deg cos_deg : Q -> Q) (lon lat : Q) : Q * Q * Q :=
  (- sin_deg lon, cos_deg lon, 0)%Q.

Definition north_unit (sin_deg cos_deg : Q -> Q) (lon lat : Q) : Q * Q * Q :=
  (- sin_deg lat * cos_deg lon, - sin_deg lat * sin_deg lon, cos_deg lat)%Q.

(** ** [zero_mesh_segment_locking_depth] *)

(** The test on one row, given its [patch_flag] and [patch_file_name]:
    both differ from zero and the file number is at most the number of
    meshes. *)
Definition traces_mesh (n_meshes : nat) (patch : Q * Q) : bool :=
  negb (Qeq_bool (fst patch) 0) && negb (Qeq_bool (snd patch) 0)
  && Qle_bool (snd patch) (inject_Z (Z.of_nat n_meshes)).

Definition zero_mesh_segment_locking_depth {M} (segment : nat)
    (meshes : list M) : py nat :=
  segment ← deepcopy segment;
  patch_flag ← to_numpy segment "patch_flag";
  patch_file_name ← to_numpy segment "patch_file_name";
  let toggle_off :=
    Np.where_ (traces_mesh (length meshes)) (zip patch_flag patch_file_name) in
  assign_at segment "locking_depth" toggle_off
    (replicate (length toggle_off) 0%Q);;
  mret segment.

(** A segment table of three rows, the first and the last of which trace
    a mesh when one mesh is available. *)
Definition sample_patch_segment : frame :=
  Frame 3 (list_to_map
    [ ("locking_depth", FloatCol [15; 20; 25]%Q);
      ("patch_flag", IntCol [1; 0; 1]%Z);
      ("patch_file_name", IntCol [1; 1; 1]%Z) ]).

(** ** More on [get_fault_slip_rate_partials] and [order_endpoints_sphere] *)

(** The labels for which the slice [3 * label : 3 * label + 3] selects
    three columns of an operator with [n_blocks] blocks: the block indices
    and, because a negative slice bound counts from the end, the values
    from [- n_blocks] to -2. *)
Definition addressable (n_blocks : nat) (label : Z) : Prop :=
  (0 <= label < Z.of_nat n_blocks)%Z
  \/ (- Z.of_nat n_blocks <= label <= -2)%Z.

(** The rows that [order_endpoints_sphere] exchanges, given the Cartesian
    endpoint columns. *)
Definition swap_rows (x1 y1 z1 x2 y2 z2 : list Q) : list nat :=
  Np.where_ (fun c : Q * Q * Q => Qltb (snd c) 0)
    (zip_with Np.cross3 (zip (zip x1 y1) z1) (zip (zip x2 y2) z2)).

(** ** [get_block_constraint_partials] *)

(** [np.eye(3)]. *)
Definition eye3 : list (list Q) := [ [1; 0; 0]; [0; 1; 0]; [0; 0; 1] ]%Q.

(** The loop over the flagged blocks, from position [i] of
    [apriori_rotation_block_idx] on. *)
Fixpoint constraint_loop (i : nat) (apriori_rotation_block_idx : list nat)
    (operator : list (list Q)) : option (list (list Q)) :=
  match apriori_rotation_block_idx with
  | [] => Some operator
  | b :: rest =>
      let start_row := (3 * Z.of_nat i)%Z in
      let start_column := (3 * Z.of_nat b)%Z in
      operator ← SlipRate.set_block operator start_row start_column eye3;
      constraint_loop (S i) rest operator
  end.

Definition get_block_constraint_partials (block : nat) : py (list (list Q)) :=
  rotation_flag ← to_numpy block "rotation_flag";
  let apriori_rotation_block_idx :=
    Np.where_ (fun v => Qeq_bool v 1) rotation_flag in
  f ← load block;
  lift (constraint_loop 0 apriori_rotation_block_idx
          (SlipRate.zeros (3 * length apriori_rotation_block_idx)
                          (3 * nrows f))).

(** A block table of three rows, the first and the last of which carry a
    rotation constraint. *)
Definition sample_constraint_block : frame :=
  Frame 3 (list_to_map [ ("rotation_flag", IntCol [1; 0; 1]%Z) ]).

(** ** Whole columns *)

(** [df.name] and [df[name]] read as a column, whatever its dtype; a name
    that is not a column raises. *)
Definition getattr (l : nat) (name : string) : py column :=
  f ← load l; lift (columns f !! name).

(** A column of the length and dtype of [c] that holds one value
    throughout: [q] in a float column, [z] in an integer column.  An
    object column is kept as the text of its entries, [s] here. *)
Definition full_like (q : Q) (z : Z) (s : string) (c : column) : column :=
  match c with
  | FloatCol vs => FloatCol (map (fun _ => q) vs)
  | IntCol vs => IntCol (map (fun _ => z) vs)
  | ObjCol vs => ObjCol (map (fun _ => s) vs)
  end.

(** [np.zeros_like(c)], [np.ones_like(c)] and [-1 * np.ones_like(c)]. *)
Definition zeros_like : column -> column := full_like 0 0 "0".
Definition ones_like : column -> column := full_like 1 1 "1".
Definition minus_ones_like : column -> column := full_like (-1) (-1) "-1".

(** [c / k] for a float [k]: a float column; text cannot be divided, so
    an object column goes through only when it is empty. *)
Definition divide (c : column) (k : Q) : option column :=
  match c with
  | FloatCol vs => Some (FloatCol (map (fun v => v / k)%Q vs))
  | IntCol vs => Some (FloatCol (map (fun v => inject_Z v / k)%Q vs))
  | ObjCol [] => Some (ObjCol [])
  | ObjCol (_ :: _) => None
  end.

(** [c == 0], entry by entry; text is never equal to a number. *)
Definition equals_zero (c : column) : list bool :=
  match c with
  | FloatCol vs => map (fun v => Qeq_bool v 0) vs
  | IntCol vs => map (fun v => Z.eqb v 0) vs
  | ObjCol vs => map (fun _ => false) vs
  end.

(** [df.empty]: no row or no column. *)
Definition frame_empty (f : frame) : bool :=
  Nat.eqb (nrows f) 0 || Nat.eqb (size (columns f)) 0.

(** The entries of [vs] at the positions that are not in [idx]. *)
Definition drop_at {A} (idx : list nat) (vs : list A) : list A :=
  (filter (fun p : nat * A => p.1 ∉ idx) (zip (seq 0 (length vs)) vs)).*2.

Definition drop_column (idx : list nat) (c : column) : column :=
  match c with
  | FloatCol vs => FloatCol (drop_at idx vs)
  | IntCol vs => IntCol (drop_at idx vs)
  | ObjCol vs => ObjCol (drop_at idx vs)
  end.

(** [df.drop(idx)] followed by [reset_index(drop=True)]: a new table
    without the rows labelled [idx], numbered afresh.  A frame keeps no
    row labels (the rows are numbered from 0, as after [read_csv]), so the
    two calls are one step here; a label that is no row raises. *)
Definition drop_reset (l : nat) (idx : list nat) : py nat :=
  fun w =>
    match heap w !! l with
    | Some f =>
        if bool_decide (Forall (fun i => i < nrows f)%nat idx) then
          let l' := fresh (dom (heap w)) in
          let f' := Frame (length (drop_at idx (seq 0 (nrows f))))
                          (drop_column idx <$> columns f) in
          Some (l', World (<[l' := f']> (heap w)) (stdout w))
        else None
    | None => None
    end.

(** ** [process_sar], [process_station] *)

Section Geodetic.

(** [celeri_util.sph2cart] on columns and the radius it is called with;
    [np.sqrt]. *)
Variable sph2cart : column -> column -> Q -> option (column * column * column).
Variable RADIUS_EARTH : Q.
Variable np_sqrt : Q -> Q.

(** [command.sar_weight] is the one field of the command that is read. *)
Definition process_sar (sar : nat) (sar_weight : Q) : py nat :=
  f ← load sar;
  (if frame_empty f then
     lon ← getattr sar "lon";
     setitem sar "depth" (zeros_like lon);;
     sig ← getattr sar "line_of_sight_change_sig";
     sig ← lift (divide sig (np_sqrt sar_weight));
     setitem sar "line_of_sight_change_sig" sig;;
     lon ← getattr sar "lon";
     lat ← getattr sar "lat";
     '(x, y, z) ← lift (sph2cart lon lat RADIUS_EARTH);
     setitem sar "x" x;;
     setitem sar "y" y;;
     setitem sar "z" z;;
     x ← getattr sar "x";
     setitem sar "block_label" (minus_ones_like x)
   else
     setitem sar "dep" (ObjCol []);;
     setitem sar "x" (ObjCol []);;
     setitem sar "y" (ObjCol []);;
     setitem sar "x" (ObjCol []);;
     setitem sar "block_label" (ObjCol []));;
  mret sar.

(** [command.unit_sigmas] is the one field of the command that is read. *)
Definition process_station (station : nat) (unit_sigmas : string) : py nat :=
  (if String.eqb unit_sigmas "yes" then
     east_sig ← getattr station "east_sig";
     setitem station "east_sig" (ones_like east_sig);;
     north_sig ← getattr station "north_sig";
     setitem station "north_sig" (ones_like north_sig);;
     up_sig ← getattr station "up_sig";
     setitem station "up_sig" (ones_like up_sig)
   else mret tt);;
  lon ← getattr station "lon";
  setitem station "depth" (zeros_like lon);;
  lon ← getattr station "lon";
  lat ← getattr station "lat";
  '(x, y, z) ← lift (sph2cart lon lat RADIUS_EARTH);
  setitem station "x" x;;
  setitem station "y" y;;
  setitem station "z" z;;
  flag ← getattr station "flag";
  drop_reset station (Np.where_ (fun b : bool => b) (equals_zero flag)).

End Geodetic.

(** The entries of [vs] on the rows where [mask] is false. *)
Definition unmasked {A} (mask : list bool) (vs : list A) : list A :=
  (filter (fun p : bool * A => p.1 = false) (zip mask vs)).*2.

Definition unmasked_column (mask : list bool) (c : column) : column :=
  match c with
  | FloatCol vs => FloatCol (unmasked mask vs)
  | IntCol vs => IntCol (unmasked mask vs)
  | ObjCol vs => ObjCol (unmasked mask vs)
  end.

(** A SAR table of two rows and a station table of three rows, the second
    of which is switched off. *)
Definition sample_sar : frame :=
  Frame 2 (list_to_map
    [ ("lon", FloatCol [10; 20]%Q); ("lat", FloatCol [30; 40]%Q);
      ("line_of_sight_change_sig", FloatCol [1; 1]%Q) ]).

Definition sample_station : frame :=
  Frame 3 (list_to_map
    [ ("name", ObjCol ["a"; "b"; "c"]);
      ("lon", FloatCol [10; 20; 30]%Q); ("lat", FloatCol [1; 2; 3]%Q);
      ("flag", IntCol [1; 0; 1]%Z) ]).

Definition sample_sph2cart (lon lat : column) (r : Q)
  : option (column * column * column) := Some (lon, lat, zeros_like lon).

(** ** [merge_geodetic_data] *)

(** One entry of a NumPy array of any dtype. *)
Inductive cell :=
| FloatCell (v : Q)
| IntCell (v : Z)
| ObjCell (v : string).

(** [col.to_numpy()], entry by entry. *)
Definition cells_of (c : column) : list cell :=
  match c with
  | FloatCol vs => map FloatCell vs
  | IntCol vs => map IntCell vs
  | ObjCol vs => map ObjCell vs
  end.

(** [df.name.to_numpy()] read through the store. *)
Definition to_cells (l : nat) (name : string) : py (list cell) :=
  c ← getattr l name; mret (cells_of c).

(** [np.arange(start, stop)]. *)
Definition arange (start stop : nat) : list nat := seq start (stop - start).

Module Assembly.

(** The fields of [assembly.data], [assembly.sigma] and [assembly.index]
    that [merge_geodetic_data] assigns. *)
Record geodetic := Geodetic {
  n_stations : nat;
  n_sar : nat;
  east_vel : list cell;
  east_sig : list cell;
  north_vel : list cell;
  north_sig : list cell;
  up_vel : list cell;
  up_sig : list cell;
  sar_line_of_sight_change_val : list cell;
  sar_line_of_sight_change_sig : list cell;
  lon : list cell;
  lat : list cell;
  depth : list cell;
  x : list cell;
  y : list cell;
  z : list cell;
  block_label : list cell;
  sar_coordinate_idx : list nat
}.

End Assembly.

(** The assignments in the order of the source.  [np.concatenate] is kept
    entry by entry; the common dtype it promotes to is not tracked. *)
Definition merge_geodetic_data (station sar : nat) : py Assembly.geodetic :=
  st ← load station;
  sr ← load sar;
  let n_stations := nrows st in
  let n_sar := nrows sr in
  east_vel ← to_cells station "east_vel";
  east_sig ← to_cells station "east_sig";
  north_vel ← to_cells station "north_vel";
  north_sig ← to_cells station "north_sig";
  up_vel ← to_cells station "up_vel";
  up_sig ← to_cells station "up_sig";
  sar_line_of_sight_change_val ← to_cells sar "line_of_sight_change_val";
  sar_line_of_sight_change_sig ← to_cells sar "line_of_sight_change_sig";
  lon1 ← to_cells station "lon"; lon2 ← to_cells sar "lon";
  lat1 ← to_cells station "lat"; lat2 ← to_cells sar "lat";
  depth1 ← to_cells station "depth"; depth2 ← to_cells sar "depth";
  x1 ← to_cells station "x"; x2 ← to_cells sar "x";
  y1 ← to_cells station "y"; y2 ← to_cells sar "y";
  z1 ← to_cells station "z"; z2 ← to_cells sar "z";
  block_label1 ← to_cells station "block_label";
  block_label2 ← to_cells sar "block_label";
  mret (Assembly.Geodetic n_stations n_sar
          east_vel east_sig north_vel north_sig up_vel up_sig
          sar_line_of_sight_change_val sar_line_of_sight_change_sig
          (lon1 ++ lon2) (lat1 ++ lat2) (depth1 ++ depth2)
          (x1 ++ x2) (y1 ++ y2) (z1 ++ z2) (block_label1 ++ block_label2)
          (arange n_stations (n_stations + n_sar))).

(** The concatenated fields, by the name of the columns they are read
    from. *)
Definition stacked_fields : list (string * (Assembly.geodetic -> list cell)) :=
  [ ("lon", Assembly.lon); ("lat", Assembly.lat); ("depth", Assembly.depth);
    ("x", Assembly.x); ("y", Assembly.y); ("z", Assembly.z);
    ("block_label", Assembly.block_label) ].

(** The columns read from the station table and from the SAR table. *)
Definition station_fields : list string :=
  [ "east_vel"; "east_sig"; "north_vel"; "north_sig"; "up_vel"; "up_sig";
    "lon"; "lat"; "depth"; "x"; "y"; "z"; "block_label" ].

Definition sar_fields : list string :=
  [ "line_of_sight_change_val"; "line_of_sight_change_sig";
    "lon"; "lat"; "depth"; "x"; "y"; "z"; "block_label" ].

(** ** [station_row_keep] *)

(** [np.arange(start, stop, step)] for a positive step. *)
Definition arange_step (start stop step : nat) : list nat :=
  map (fun k => start + k * step)%nat
      (seq 0 ((stop - start + step - 1) / step)).

(** [np.setdiff1d]: the sorted array of the distinct values of the first
    argument that are not in the second, kept as a finite set. *)
Definition setdiff1d (a b : list nat) : gset nat :=
  list_to_set a ∖ list_to_set b.

(** [np.sum(np.abs(v))]. *)
Definition sum_abs (v : list Q) : Q := foldr (fun a acc => Qabs a + acc)%Q 0%Q v.

(** The value assigned to [assembly.index.station_row_keep], given
    [assembly.data.up_vel] and [assembly.index.sz_rotation]. *)
Definition station_row_keep (up_vel : list Q) (sz_rotation : nat * nat)
  : gset nat :=
  if Qeq_bool (sum_abs up_vel) 0 then
    setdiff1d (arange 0 (fst sz_rotation)) (arange_step 2 (fst sz_rotation) 3)
  else list_to_set (arange 0 (snd sz_rotation)).

(** Station and SAR tables as [merge_geodetic_data] receives them. *)
Definition sample_merge_station : frame :=
  Frame 2 (list_to_map
    [ ("east_vel", FloatCol [1; 2]%Q); ("east_sig", FloatCol [1; 1]%Q);
      ("north_vel", FloatCol [3; 4]%Q); ("north_sig", FloatCol [1; 1]%Q);
      ("up_vel", FloatCol [0; 0]%Q); ("up_sig", FloatCol [1; 1]%Q);
      ("lon", FloatCol [10; 20]%Q); ("lat", FloatCol [1; 2]%Q);
      ("depth", FloatCol [0; 0]%Q);
      ("x", FloatCol [5; 6]%Q); ("y", FloatCol [7; 8]%Q);
      ("z", FloatCol [9; 9]%Q); ("block_label", IntCol [0; 1]%Z) ]).

Definition sample_merge_sar : frame :=
  Frame 1 (list_to_map
    [ ("line_of_sight_change_val", FloatCol [2]%Q);
      ("line_of_sight_change_sig", FloatCol [1]%Q);
      ("lon", FloatCol [30]%Q); ("lat", FloatCol [3]%Q);
      ("depth", FloatCol [0]%Q);
      ("x", FloatCol [1]%Q); ("y", FloatCol [2]%Q); ("z", FloatCol [3]%Q);
      ("block_label", IntCol [1]%Z) ]).

Definition sample_merge_world : world :=
  World {[ 0%nat := sample_merge_station; 1%nat := sample_merge_sar ]} [].

(** ** [get_block_rotation_operator],
    [get_global_float_block_rotation_operator] *)

(** [np.max] of an array of integers; it raises on an empty array. *)
Definition np_max (v : list Z) : option Z :=
  match v with
  | [] => None
  | a :: v' => Some (foldr Z.max a v')
  end.

(** [a[rows, col] = vals] for an array of row indices, one column and
    [vals] as long as [rows]. *)
Fixpoint set_entries (a : list (list Q)) (rows : list nat) (col : nat)
    (vals : list Q) : option (list (list Q)) :=
  match rows, vals with
  | [], [] => Some a
  | r :: rows', v :: vals' =>
      row ← a !! r;
      if decide (col < length row)%nat
      then set_entries (<[r := <[col := v]> row]> a) rows' col vals'
      else None
  | _, _ => None
  end.

Section BlockRotation.

Variables sin_deg cos_deg : Q -> Q.
Variable sph2cart : list Q -> list Q -> Q -> option (list Q * list Q * list Q).
Variable RADIUS_EARTH : Q.

Let rotation_displacements :=
  get_rotation_displacements sin_deg cos_deg sph2cart RADIUS_EARTH.

(** The loop over the blocks, from the blocks [blocks] on. *)
Fixpoint rotation_operator_loop (station : nat) (blocks : list nat)
    (block_rotation_operator : list (list Q)) : py (list (list Q)) :=
  match blocks with
  | [] => mret block_rotation_operator
  | i :: rest =>
      block_label ← ints station "block_label";
      let station_idx :=
        Np.where_ (fun l => Z.eqb l (Z.of_nat i)) block_label in
      lon ← to_numpy station "lon";
      lon_x ← lift (Np.take_at lon station_idx);
      lat ← to_numpy station "lat";
      lat_x ← lift (Np.take_at lat station_idx);
      '(vel_east_omega_x, vel_north_omega_x, vel_up_omega_x) ←
        lift (rotation_displacements lon_x lat_x 1 0 0);
      lon ← to_numpy station "lon";
      lon_y ← lift (Np.take_at lon station_idx);
      lat ← to_numpy station "lat";
      lat_y ← lift (Np.take_at lat station_idx);
      '(vel_east_omega_y, vel_north_omega_y, vel_up_omega_y) ←
        lift (rotation_displacements lon_y lat_y 0 1 0);
      lon ← to_numpy station "lon";
      lon_z ← lift (Np.take_at lon station_idx);
      lat ← to_numpy station "lat";
      lat_z ← lift (Np.take_at lat station_idx);
      '(vel_east_omega_z, vel_north_omega_z, vel_up_omega_z) ←
        lift (rotation_displacements lon_z lat_z 0 0 1);
      let east := map (fun s => 3 * s)%nat station_idx in
      let north := map (fun s => 3 * s + 1)%nat station_idx in
      let up := map (fun s => 3 * s + 2)%nat station_idx in
      op ← lift (set_entries block_rotation_operator east (3 * i)
                   vel_east_omega_x);
      op ← lift (set_entries op east (3 * i + 1) vel_east_omega_y);
      op ← lift (set_entries op east (3 * i + 2) vel_east_omega_z);
      op ← lift (set_entries op north (3 * i) vel_north_omega_x);
      op ← lift (set_entries op north (3 * i + 1) vel_north_omega_y);
      op ← lift (set_entries op north (3 * i + 2) vel_north_omega_z);
      op ← lift (set_entries op up (3 * i) vel_up_omega_x);
      op ← lift (set_entries op up (3 * i + 1) vel_up_omega_y);
      op ← lift (set_entries op up (3 * i + 2) vel_up_omega_z);
      rotation_operator_loop station rest op
  end.

(** [np.zeros] refuses a negative dimension; [n_blocks] is an integer
    because the labels are. *)
Definition get_block_rotation_operator (station : nat) : py (list (list Q)) :=
  block_label ← ints station "block_label";
  m ← lift (np_max block_label);
  let n_blocks := (m + 1)%Z in
  f ← load station;
  (if (n_blocks <? 0)%Z then raise else mret tt);;
  let block_rotation_operator :=
    SlipRate.zeros (3 * nrows f) (3 * Z.to_nat n_blocks) in
  rotation_operator_loop station (seq 0 (Z.to_nat n_blocks))
    block_rotation_operator.

(** [station_all_on_one_block.block_label.values[:] = 0]. *)
Definition zero_block_labels (l : nat) : py unit :=
  f ← load l;
  labels ← ints l "block_label";
  store l (Frame (nrows f)
             (<["block_label" := IntCol (map (fun _ => 0%Z) labels)]>
                (columns f))).

(** [station.copy()] copies the data of the table (pandas' default
    [deep=True]), as [copy.deepcopy] does. *)
Definition get_global_float_block_rotation_operator (station : nat)
  : py (list (list Q)) :=
  station_all_on_one_block ← deepcopy station;
  zero_block_labels station_all_on_one_block;;
  get_block_rotation_operator station_all_on_one_block.

End BlockRotation.

(** [sph2cart] works point by point: every output entry is [point] of the
    longitude and latitude at the same position. *)
Definition pointwise
    (sph2cart : list Q -> list Q -> Q -> option (list Q * list Q * list Q))
    (r : Q) (point : Q -> Q -> Q * Q * Q) : Prop :=
  forall lon lat,
    length lon = length lat ->
    sph2cart lon lat r
    = Some (zip_with (fun a b => (point a b).1.1) lon lat,
            zip_with (fun a b => (point a b).1.2) lon lat,
            zip_with (fun a b => (point a b).2) lon lat).

(** The rotation vector of block [b] in the stacked vector [omega]. *)
Definition block_omega (omega : list Q) (b : nat) : Q * Q * Q :=
  (nth (3 * b) omega 0%Q, nth (3 * b + 1) omega 0%Q,
   nth (3 * b + 2) omega 0%Q).

(** The unit rotation about axis [c]. *)
Definition unit_omega (c : nat) : Q * Q * Q :=
  match c with
  | 0%nat => (1, 0, 0)%Q
  | 1%nat => (0, 1, 0)%Q
  | _ => (0, 0, 1)%Q
  end.

(** The entry of the rotation operator for component [r] (east, north,
    up) of a station at [(lon, lat)] with position [p], in column [c] of
    its block. *)
Definition rotation_partial (sin_deg cos_deg : Q -> Q) (lon lat : Q)
    (p : Q * Q * Q) (r c : nat) : Q :=
  match r with
  | 0%nat => SlipRate.dot3 (east_unit sin_deg cos_deg lon lat)
               (Np.cross3 (unit_omega c) p)
  | 1%nat => SlipRate.dot3 (north_unit sin_deg cos_deg lon lat)
               (Np.cross3 (unit_omega c) p)
  | _ => 0%Q
  end.

(** A station table of three stations on two blocks. *)
Definition sample_rotation_station : frame :=
  Frame 3 (list_to_map
    [ ("lon", FloatCol [10; 20; 30]%Q); ("lat", FloatCol [1; 2; 3]%Q);
      ("block_label", IntCol [1; 0; 1]%Z) ]).

Definition sample_point (lon lat : Q) : Q * Q * Q := (lon, lat, lon + lat)%Q.

Definition sample_sph2cart_arrays (lon lat : list Q) (r : Q)
  : option (list Q * list Q * list Q) :=
  Some (zip_with (fun a b => (sample_point a b).1.1) lon lat,
        zip_with (fun a b => (sample_point a b).1.2) lon lat,
        zip_with (fun a b => (sample_point a b).2) lon lat).

(** An array agrees with a table of values when it has [n] rows of [w]
    entries and every entry is equal, as a rational, to the tabulated
    one. *)
Definition agrees (a : list (list Q)) (n w : nat) (g : nat -> nat -> Q) : Prop :=
  length a = n
  /\ Forall (fun row => length row = w) a
  /\ forall i c, (i < n)%nat -> (c < w)%nat ->
       exists v, SlipRate.entry a i c = Some v /\ (v == g i c)%Q.

(** * Properties *)

(** ** The shoelace sum *)

Section Shoelace.

Local Open Scope Q_scope.

Lemma removelast_prevs {A} (v : A) (r : list A) :
  List.removelast (v :: r) = prevs v r.
Proof.
  revert v; induction r as [|w r IH]; intros v; [reflexivity|].
  change (List.removelast (v :: w :: r)) with (v :: List.removelast (w :: r)).
  now rewrite IH.
Qed.

Lemma roll1_prevs {A} (d : A) (l : list A) :
  Np.roll1 l = prevs (List.last l d) l.
Proof.
  destruct l as [|v r]; [reflexivity|].
  unfold Np.roll1. rewrite removelast_prevs. simpl prevs. f_equal.
  generalize v at 1 3; generalize d. revert v.
  induction r as [|w r IH]; intros v d' v'; [reflexivity|].
  change (List.last (v :: w :: r) v') with (List.last (w :: r) v').
  change (List.last (v :: w :: r) d') with (List.last (w :: r) d').
  apply IH.
Qed.

Lemma prevs_fmap {A B} (f : A -> B) (p : A) (l : list A) :
  prevs (f p) (f <$> l) = f <$> prevs p l.
Proof.
  revert p; induction l as [|q l IH]; intros p; simpl; [reflexivity|].
  now rewrite <- IH.
Qed.

Lemma length_prevs {A} (p : A) (l : list A) : length (prevs p l) = length l.
Proof. revert p; induction l; intros p; simpl; auto. Qed.

Lemma last_fmap {A B} (f : A -> B) (d : A) (l : list A) :
  List.last (f <$> l) (f d) = f (List.last l d).
Proof.
  induction l as [|v l IH]; [reflexivity|].
  destruct l as [|w l]; [reflexivity|]. exact IH.
Qed.

Lemma length_roll1 {A} (l : list A) : length (Np.roll1 l) = length l.
Proof.
  destruct l as [|v r]; [reflexivity|].
  rewrite (roll1_prevs v). apply length_prevs.
Qed.

Lemma roll1_fmap {A B} (f : A -> B) (l : list A) :
  Np.roll1 (f <$> l) = f <$> Np.roll1 l.
Proof.
  destruct l as [|v r]; [reflexivity|].
  rewrite (roll1_prevs (f v)), (roll1_prevs v), last_fmap.
  apply prevs_fmap.
Qed.

(** The two dot products of [polygon_area], taken against the
    predecessors, add up edge by edge. *)
Lemma dot_aux_chain (p : Q * Q) (l : list (Q * Q)) :
  Np.dot_aux (l.*1) ((prevs p l).*2) - Np.dot_aux (l.*2) ((prevs p l).*1)
  == chain p l.
Proof.
  revert p; induction l as [|q l IH]; intros p.
  - reflexivity.
  - cbn [fmap list_fmap prevs chain Np.dot_aux].
    rewrite <- IH. unfold edge_term. ring.
Qed.

Lemma dot_aux_cyc (l : list (Q * Q)) :
  Np.dot_aux (l.*1) (Np.roll1 (l.*2)) - Np.dot_aux (l.*2) (Np.roll1 (l.*1))
  == cyc l.
Proof.
  rewrite !roll1_fmap, (roll1_prevs (0, 0)). apply dot_aux_chain.
Qed.

(** On the coordinate columns of a ring, [polygon_area] returns. *)
Lemma polygon_area_ring (l : list (Q * Q)) :
  polygon_area (l.*1) (l.*2)
  = Some ((1 # 2) * Qabs (Np.dot_aux (l.*1) (Np.roll1 (l.*2))
                          - Np.dot_aux (l.*2) (Np.roll1 (l.*1)))).
Proof.
  unfold polygon_area, Np.dot.
  rewrite !length_roll1, !length_fmap, Nat.eqb_refl. reflexivity.
Qed.

Lemma last_cons_default {A} (q p : A) (l : list A) :
  List.last (q :: l) p = List.last l q.
Proof.
  revert q p; induction l as [|w l IH]; intros q p; [reflexivity|].
  change (List.last (q :: w :: l) p) with (List.last (w :: l) p).
  rewrite (IH w p). symmetry. apply IH.
Qed.

Lemma chain_app (p : Q * Q) (l1 l2 : list (Q * Q)) :
  chain p (l1 ++ l2) == chain p l1 + chain (List.last l1 p) l2.
Proof.
  revert p; induction l1 as [|q l1 IH]; intros p.
  - cbn [app chain List.last]. ring.
  - change (chain p ((q :: l1) ++ l2))
      with (edge_term q p + chain q (l1 ++ l2)).
    rewrite IH, last_cons_default. cbn [chain]. ring.
Qed.

Lemma roll1_snoc {A} (init : list A) (z : A) :
  Np.roll1 (init ++ [z]) = z :: init.
Proof.
  destruct init as [|v r]; [reflexivity|].
  change ((v :: r) ++ [z]) with (v :: (r ++ [z])).
  unfold Np.roll1.
  change (v :: (r ++ [z])) with ((v :: r) ++ [z]).
  now rewrite last_last, removelast_last.
Qed.

Lemma snoc_cases {A} (l : list A) : l = [] \/ exists init z, l = init ++ [z].
Proof.
  destruct l as [|v r]; [now left | right].
  exists (List.removelast (v :: r)), (List.last (v :: r) v).
  now apply app_removelast_last.
Qed.

Lemma edge_term_swap (a b : Q * Q) : edge_term a b == - edge_term b a.
Proof. unfold edge_term. ring. Qed.

(** Moving the last vertex to the front leaves the sum around the ring
    unchanged. *)
Lemma cyc_roll1 (l : list (Q * Q)) : cyc (Np.roll1 l) == cyc l.
Proof.
  destruct (snoc_cases l) as [-> | (init & z & ->)]; [reflexivity|].
  rewrite roll1_snoc. unfold cyc.
  rewrite last_last, last_cons_default, chain_app.
  cbn [chain]. ring.
Qed.

Lemma cyc_roll (k : nat) (l : list (Q * Q)) : cyc (Np.roll k l) == cyc l.
Proof.
  induction k as [|k IH]; [reflexivity|].
  change (Np.roll (S k) l) with (Np.roll1 (Np.roll k l)).
  now rewrite cyc_roll1.
Qed.

(** A path walked backwards has the opposite sum. *)
Lemma chain_reverse (l : list (Q * Q)) (p q : Q * Q) :
  chain p (reverse l) + edge_term q (List.last (reverse l) p)
  == - (chain q l + edge_term p (List.last l q)).
Proof.
  revert p q; induction l as [|a l IH]; intros p q.
  - cbn [reverse rev_append chain List.last]. rewrite (edge_term_swap q p). ring.
  - rewrite reverse_cons, last_last, chain_app, last_cons_default.
    cbn [chain]. specialize (IH p a). rewrite (edge_term_swap q a).
    lra.
Qed.

Lemma cyc_reverse (l : list (Q * Q)) : cyc (reverse l) == - cyc l.
Proof.
  destruct l as [|a l]; [reflexivity|].
  rewrite reverse_cons, <- cyc_roll1, roll1_snoc. unfold cyc.
  rewrite !last_cons_default. cbn [chain].
  pose proof (chain_reverse l a a). lra.
Qed.

Lemma shoelace_edges_chain (first prev : Q * Q) (ring : list (Q * Q)) :
  shoelace_edges first prev ring
  == - (chain prev ring + edge_term first (List.last ring prev)).
Proof.
  revert prev; induction ring as [|v ring IH]; intros prev.
  - cbn [shoelace_edges chain List.last]. unfold edge_term. ring.
  - cbn [shoelace_edges chain]. rewrite IH, last_cons_default.
    unfold edge_term. ring.
Qed.

Lemma shoelace_signed_cyc (ring : list (Q * Q)) :
  shoelace_signed ring == - ((1 # 2) * cyc ring).
Proof.
  destruct ring as [|v ring]; [reflexivity|].
  unfold shoelace_signed, cyc.
  rewrite shoelace_edges_chain, last_cons_default. cbn [chain]. ring.
Qed.

Lemma half_abs (a : Q) : (1 # 2) * Qabs a == Qabs ((1 # 2) * a).
Proof. rewrite Qabs_Qmult. reflexivity. Qed.

(** What [polygon_area] returns on a ring, in closed form. *)
Lemma polygon_area_cyc (l : list (Q * Q)) :
  returns (polygon_area (l.*1) (l.*2)) (fun a => a == (1 # 2) * Qabs (cyc l)).
Proof.
  eexists; split; [apply polygon_area_ring|].
  now rewrite dot_aux_cyc.
Qed.

Lemma columns_of_ring (x y : list Q) :
  length x = length y -> x = (zip x y).*1 /\ y = (zip x y).*2.
Proof.
  intros E. split; symmetry; [apply fst_zip | apply snd_zip]; lia.
Qed.

Lemma roll_fmap {A B} (f : A -> B) (k : nat) (l : list A) :
  Np.roll k (f <$> l) = f <$> Np.roll k l.
Proof.
  induction k as [|k IH]; [reflexivity|].
  change (Np.roll (S k) (f <$> l)) with (Np.roll1 (Np.roll k (f <$> l))).
  change (Np.roll (S k) l) with (Np.roll1 (Np.roll k l)).
  now rewrite IH, roll1_fmap.
Qed.

End Shoelace.

(** ** [polygon_area] *)

Section PolygonArea.

Local Open Scope Q_scope.

Example polygon_area_triangle :
  returns (polygon_area [0; 4; 0] [0; 0; 3]) (fun a => a == 6).
Proof. eexists; split; reflexivity. Qed.

Example polygon_area_shape_mismatch : polygon_area [0; 1] [0] = None.
Proof. reflexivity. Qed.

(** The area is never negative. *)
Lemma polygon_area_nonneg (x y : list Q) (a : Q) :
  polygon_area x y = Some a -> 0 <= a.
Proof.
  unfold polygon_area. intros H.
  destruct (Np.dot x (Np.roll1 y)) as [u|]; [|discriminate].
  destruct (Np.dot y (Np.roll1 x)) as [v|]; [|discriminate].
  assert (E : a = (1 # 2) * Qabs (u - v)) by (symmetry; exact (Some_inj _ _ H)).
  rewrite E. pose proof (Qabs_nonneg (u - v)). lra.
Qed.

(** The area is the absolute value of the signed shoelace area. *)
Lemma polygon_area_shoelace (ring : list (Q * Q)) :
  returns (polygon_area (ring.*1) (ring.*2))
          (fun a => a == Qabs (shoelace_signed ring)).
Proof.
  destruct (polygon_area_cyc ring) as (a & Ha & E).
  exists a; split; [exact Ha|].
  rewrite E, shoelace_signed_cyc, Qabs_opp. apply half_abs.
Qed.

(** C3: for coordinate lists of equal length, [polygon_area] returns the
    same area after any cyclic rotation of the vertex sequence
    ([np.roll] by any shift) and after reversing it. *)
Theorem polygon_area_rotation_reversal (x y : list Q) (k : nat) :
  length x = length y ->
  exists a,
    polygon_area x y = Some a
    /\ returns (polygon_area (Np.roll k x) (Np.roll k y)) (fun b => b == a)
    /\ returns (polygon_area (reverse x) (reverse y)) (fun b => b == a).
Proof.
  intros E. destruct (columns_of_ring x y E) as [Ex Ey].
  set (l := zip x y) in *. rewrite Ex, Ey. clear Ex Ey E.
  destruct (polygon_area_cyc l) as (a & Ha & Ea).
  exists a; split; [exact Ha|]. split.
  - rewrite !roll_fmap.
    destruct (polygon_area_cyc (Np.roll k l)) as (b & Hb & Eb).
    exists b; split; [exact Hb|]. now rewrite Eb, Ea, cyc_roll.
  - rewrite <- !fmap_reverse.
    destruct (polygon_area_cyc (reverse l)) as (b & Hb & Eb).
    exists b; split; [exact Hb|]. now rewrite Eb, Ea, cyc_reverse, Qabs_opp.
Qed.

Lemma polygon_area_rotation_reversal_witness :
  exists a,
    polygon_area [0; 4; 0; 1] [0; 0; 3; 2] = Some a
    /\ returns (polygon_area (Np.roll 3 [0; 4; 0; 1]) (Np.roll 3 [0; 0; 3; 2]))
               (fun b => b == a)
    /\ returns (polygon_area (reverse [0; 4; 0; 1]) (reverse [0; 0; 3; 2]))
               (fun b => b == a).
Proof. apply (polygon_area_rotation_reversal [0; 4; 0; 1] [0; 0; 3; 2] 3). reflexivity. Defined.

(** C4: on the unit square, x = [0,1,1,0] and y = [0,0,1,1],
    [polygon_area] returns 1. *)
Theorem polygon_area_unit_square :
  returns (polygon_area [0; 1; 1; 0] [0; 0; 1; 1]) (fun a => a == 1).
Proof. eexists; split; reflexivity. Qed.

End PolygonArea.

(** ** Longitudes: [wrap2360] and the plate-carree mid longitude *)

Section Longitudes.

Local Open Scope Q_scope.

Lemma Qltb_lt (a b : Q) : Qltb a b = true <-> a < b.
Proof.
  unfold Qltb. rewrite negb_true_iff, <- not_true_iff_false, Qle_bool_iff.
  split; [apply Qnot_le_lt | apply Qlt_not_le].
Qed.

Lemma Qltb_ge (a b : Q) : Qltb a b = false <-> b <= a.
Proof.
  unfold Qltb. rewrite negb_false_iff. apply Qle_bool_iff.
Qed.

Example wrap2360_mixed :
  wrap2360 [-170; 10; 190; -(1 # 2)] = [190; 10; 190; 719 # 2].
Proof. reflexivity. Qed.

(** The shift is applied once, so longitudes below -360 stay negative and
    longitudes from 360 on are returned as they are. *)
Lemma wrap2360_not_always_in_range :
  ~ (forall lon i v, wrap2360 lon !! i = Some v -> 0 <= v /\ v < 360).
Proof.
  intros H.
  destruct (H [-400; 400] 0%nat (-40) eq_refl) as [H0 _].
  apply (Qlt_not_le _ _ (eq_refl : -40 < 0) H0).
Qed.

Example wrap2360_beyond : wrap2360 [-400; 400] = [-40; 400].
Proof. reflexivity. Qed.

(** *** [wrap2360] with the addition rounded *)

(** [Float64.round] on values whose binary64 neighbours are known: the
    nearest value to one tenth, and a tie that goes to the even side. *)
Example round_tenth :
  Float64.round (1 # 10) == 3602879701896397 # 36028797018963968.
Proof. vm_compute. reflexivity. Qed.

Example round_tie_to_even :
  Float64.round (inject_Z (2 ^ 53 + 1)) == inject_Z (2 ^ 53)
  /\ Float64.round (inject_Z (2 ^ 53 + 3)) == inject_Z (2 ^ 53 + 4).
Proof. split; vm_compute; reflexivity. Qed.

Lemma round_half_even_nonneg (q : Q) :
  0 <= q -> (0 <= Float64.round_half_even q)%Z.
Proof.
  destruct q as [n d]. unfold Qle, Float64.round_half_even. cbn.
  intros Hn.
  pose proof (Z.div_pos n (Z.pos d) ltac:(lia) ltac:(lia)) as Hf.
  destruct (2 * (n mod Z.pos d) ?= Z.pos d)%Z; [|lia|lia].
  destruct (Z.even (n / Z.pos d)); lia.
Qed.

Lemma round_half_even_le (q : Q) (k : Z) :
  q <= inject_Z k -> (Float64.round_half_even q <= k)%Z.
Proof.
  destruct q as [n d]. unfold Qle, Float64.round_half_even. cbn.
  intros Hn.
  pose proof (Z.div_mod n (Z.pos d) ltac:(lia)) as Hdiv.
  pose proof (Z.mod_pos_bound n (Z.pos d) ltac:(lia)) as Hmod.
  set (f := (n / Z.pos d)%Z) in *. set (r := (n mod Z.pos d)%Z) in *.
  destruct (Z.compare_spec (2 * r) (Z.pos d)) as [E|E|E].
  - assert (f + 1 <= k)%Z by nia. destruct (Z.even f); lia.
  - nia.
  - nia.
Qed.

Lemma Qpower_2_nonzero (k : Z) : ~ 2 ^ k == 0.
Proof.
  intros E. pose proof (Qpower_0_lt 2 k ltac:(reflexivity)) as H.
  rewrite E in H. discriminate.
Qed.

Lemma inject_Z_pow2 (k : Z) : (0 <= k)%Z -> inject_Z (2 ^ k) == 2 ^ k.
Proof. intros Hk. exact (Zpower_Qpower 2 k Hk). Qed.

Lemma floor_log2_le (q : Q) : 0 < q -> 2 ^ Float64.floor_log2 q <= q.
Proof.
  intros Hq. unfold Float64.floor_log2.
  set (a := Z.log2 (Qnum q)). set (b := Z.log2 (Z.pos (Qden q))).
  destruct (Qle_bool (2 ^ (a - b)) q) eqn:E; [now apply Qle_bool_iff|].
  clear E.
  assert (Hn : (0 < Qnum q)%Z).
  { destruct q as [n d]. unfold Qlt in Hq. cbn in *. lia. }
  pose proof (Z.log2_spec (Qnum q) Hn) as [Ha _]. fold a in Ha.
  pose proof (Z.log2_spec (Z.pos (Qden q)) ltac:(lia)) as [_ Hb].
  fold b in Hb.
  assert (Ha0 : (0 <= a)%Z) by apply Z.log2_nonneg.
  assert (Hb0 : (0 <= b)%Z) by apply Z.log2_nonneg.
  replace (a - b - 1)%Z with (a - Z.succ b)%Z by lia.
  rewrite Qpower_minus by (intros X; discriminate X).
  apply Qle_shift_div_r; [apply Qpower_0_lt; reflexivity|].
  rewrite <- !inject_Z_pow2 by lia.
  destruct q as [n d]. unfold Qle, Qmult, inject_Z. cbn in *.
  assert (0 < 2 ^ a)%Z by (apply Z.pow_pos_nonneg; lia).
  nia.
Qed.

Lemma exponent_nonpos (x : Q) : Qabs x < 2 ^ 53 -> (Float64.exponent x <= 0)%Z.
Proof.
  intros Hx. unfold Float64.exponent.
  enough (Float64.floor_log2 (Qabs x) <= 52)%Z by lia.
  destruct (Qlt_le_dec 0 (Qabs x)) as [Hpos|Hzero].
  - pose proof (floor_log2_le _ Hpos) as Hle.
    assert (Hlt : 2 ^ Float64.floor_log2 (Qabs x) < 2 ^ 53)
      by (eapply Qle_lt_trans; eassumption).
    apply Qpower_lt_compat_l_inv in Hlt; [lia|reflexivity].
  - assert (Hn : Qnum (Qabs x) = 0%Z).
    { pose proof (Qabs_nonneg x) as H0.
      destruct (Qabs x) as [n d]. unfold Qle in *. cbn in *. lia. }
    unfold Float64.floor_log2. rewrite Hn.
    change (Z.log2 0) with 0%Z.
    pose proof (Z.log2_nonneg (Z.pos (Qden (Qabs x)))).
    destruct (Qle_bool _ _); lia.
Qed.

Lemma round_nonneg (x : Q) : 0 <= x -> 0 <= Float64.round x.
Proof.
  intros Hx. unfold Float64.round.
  pose proof (Qpower_0_lt 2 (Float64.exponent x) ltac:(reflexivity)) as Hp.
  apply Qmult_le_0_compat; [|now apply Qlt_le_weak].
  change 0 with (inject_Z 0). rewrite <- Zle_Qle.
  apply round_half_even_nonneg.
  apply Qle_shift_div_l; [exact Hp|]. now rewrite Qmult_0_l.
Qed.

(** Rounding does not go past an integer that is itself a multiple of the
    last place. *)
Lemma round_le_integer (x : Q) (k : Z) :
  (Float64.exponent x <= 0)%Z -> x <= inject_Z k ->
  Float64.round x <= inject_Z k.
Proof.
  intros He Hx. unfold Float64.round.
  set (e := Float64.exponent x) in *.
  pose proof (Qpower_0_lt 2 e ltac:(reflexivity)) as Hp.
  assert (Hk : inject_Z k / 2 ^ e == inject_Z (k * 2 ^ (- e))).
  { rewrite inject_Z_mult, inject_Z_pow2 by lia.
    rewrite Qpower_opp. reflexivity. }
  assert (Hr : (Float64.round_half_even (x / 2 ^ e) <= k * 2 ^ (- e))%Z).
  { apply round_half_even_le. rewrite <- Hk.
    apply Qle_shift_div_l; [exact Hp|].
    unfold Qdiv. rewrite <- Qmult_assoc, (Qmult_comm (/ _)), Qmult_inv_r
      by apply Qpower_2_nonzero.
    lra. }
  rewrite Zle_Qle in Hr. rewrite <- Hk in Hr.
  apply (Qmult_le_r _ _ (2 ^ e)) in Hr; [|exact Hp].
  eapply Qle_trans; [exact Hr|].
  unfold Qdiv. rewrite <- Qmult_assoc, (Qmult_comm (/ _)), Qmult_inv_r
    by apply Qpower_2_nonzero.
  lra.
Qed.

Lemma add_360_range (v : Q) :
  -360 <= v -> v < 0 ->
  0 <= Float64.add v 360 /\ Float64.add v 360 <= 360.
Proof.
  intros Hlo Hhi. unfold Float64.add. split.
  - apply round_nonneg. lra.
  - apply (round_le_integer (v + 360) 360);
      [|change (inject_Z 360) with 360; lra].
    apply exponent_nonpos. apply Qabs_Qlt_condition.
    assert (H53 : 2 ^ 53 == 9007199254740992) by reflexivity.
    rewrite H53. split; lra.
Qed.

(** The shift of the code is a binary64 addition.  The rounded model and
    the code agree on the longitudes that are out of range. *)
Example wrap2360_rounded_beyond :
  Forall2 Qeq (Float64.wrap2360 [-400; 400]) [-40; 400].
Proof. repeat constructor; vm_compute; reflexivity. Qed.

(** The sum of 360 and a negative longitude of tiny magnitude rounds to 360
    itself: the code returns [360.0] for [-2**-50], and the range of the
    results is not half open. *)
Lemma wrap2360_reaches_360 :
  exists r, Float64.wrap2360 [- 2 ^ (-50)] !! 0%nat = Some r /\ r == 360.
Proof. eexists; split; [reflexivity|]. vm_compute. reflexivity. Qed.

(** C5, as the code has it: a longitude in [-360, 360) is returned in
    [0, 360], the non-negative values unchanged and the negative ones
    shifted by 360 in binary64; the rounded sum can be 360 itself. *)
Theorem wrap2360_rounded_range (lon : list Q) (i : nat) (v : Q) :
  lon !! i = Some v -> -360 <= v -> v < 360 ->
  exists r, Float64.wrap2360 lon !! i = Some r
            /\ 0 <= r /\ r <= 360
            /\ r = (if Qltb v 0 then Float64.add v 360 else v).
Proof.
  intros Hi Hlo Hhi. unfold Float64.wrap2360.
  rewrite list_lookup_fmap, Hi. eexists; split; [reflexivity|].
  destruct (Qltb v 0) eqn:E.
  - apply Qltb_lt in E.
    destruct (add_360_range v Hlo E) as [H0 H360]. repeat split; assumption.
  - apply Qltb_ge in E. repeat split; lra.
Qed.

Lemma wrap2360_rounded_range_witness :
  exists r, Float64.wrap2360 [- 2 ^ (-50); 10] !! 0%nat = Some r
            /\ 0 <= r /\ r <= 360
            /\ r = (if Qltb (- 2 ^ (-50)) 0
                    then Float64.add (- 2 ^ (-50)) 360 else - 2 ^ (-50)).
Proof.
  apply (wrap2360_rounded_range [- 2 ^ (-50); 10] 0 (- 2 ^ (-50)));
    [reflexivity | apply Qle_bool_iff; reflexivity | reflexivity].
Defined.

Lemma length_wrap2360 (lon : list Q) : length (wrap2360 lon) = length lon.
Proof. apply length_fmap. Qed.


Example mid_lon_across_meridian :
  Forall2 Qeq (mid_lon_plate_carree [350; 10; 5] [10; 30; 355]) [360; 20; 0].
Proof. repeat constructor. Qed.



End Longitudes.

(** ** Running Python computations *)

Section Running.

Lemma bind_run {A B} (m : py A) (k : A -> py B) (w w' : world) (a : A) :
  m w = Some (a, w') -> (m ≫= k) w = k a w'.
Proof. intros H. unfold mbind, py_bind. now rewrite H. Qed.

Lemma bind_inv {A B} (m : py A) (k : A -> py B) (w : world) (r : B * world) :
  (m ≫= k) w = Some r ->
  exists a w', m w = Some (a, w') /\ k a w' = Some r.
Proof.
  unfold mbind, py_bind. destruct (m w) as [[a w']|]; [|discriminate].
  intros H. now exists a, w'.
Qed.

Lemma lift_run {A} (o : option A) (a : A) (w : world) :
  o = Some a -> lift o w = Some (a, w).
Proof. now intros ->. Qed.

Lemma load_run (l : nat) (f : frame) (w : world) :
  heap w !! l = Some f -> load l w = Some (f, w).
Proof. intros H. unfold load. now rewrite H. Qed.

Lemma values_run (l : nat) (name : string) (f : frame) (vs : list Q) (w : world) :
  heap w !! l = Some f -> floats f name = Some vs ->
  values l name w = Some (vs, w).
Proof.
  intros Hl Hf. unfold values.
  rewrite (bind_run _ _ _ _ _ (load_run _ _ _ Hl)). now apply lift_run.
Qed.

Lemma assign_at_run (l : nat) (name : string) (idx : list nat)
    (vals old new : list Q) (f : frame) (w : world) :
  heap w !! l = Some f -> floats f name = Some old ->
  Np.put_at old idx vals = Some new ->
  assign_at l name idx vals w
  = Some (tt, World (<[l := set_values f name new]> (heap w)) (stdout w)).
Proof.
  intros Hl Hf Hp. unfold assign_at.
  rewrite (bind_run _ _ _ _ _ (load_run _ _ _ Hl)).
  rewrite (bind_run _ _ _ _ _ (lift_run _ _ _ Hf)).
  rewrite (bind_run _ _ _ _ _ (lift_run _ _ _ Hp)).
  reflexivity.
Qed.

Lemma deepcopy_run (l : nat) (f : frame) (w : world) :
  heap w !! l = Some f ->
  deepcopy l w
  = Some (fresh (dom (heap w)),
          World (<[fresh (dom (heap w)) := f]> (heap w)) (stdout w)).
Proof. intros H. unfold deepcopy. now rewrite H. Qed.

Lemma fresh_not_allocated (h : gmap nat frame) : h !! fresh (dom h) = None.
Proof. apply not_elem_of_dom, is_fresh. Qed.

Lemma floats_set_values (f : frame) (name : string) (vs : list Q) :
  floats (set_values f name vs) name = Some vs.
Proof. unfold floats, set_values; cbn. now rewrite lookup_insert_eq. Qed.

Lemma floats_set_values_ne (f : frame) (name name' : string) (vs : list Q) :
  name <> name' ->
  floats (set_values f name vs) name' = floats f name'.
Proof.
  intros N. unfold floats, set_values; cbn. now rewrite lookup_insert_ne.
Qed.

Lemma floats_length (f : frame) (name : string) (vs : list Q) :
  frame_wf f -> floats f name = Some vs -> length vs = nrows f.
Proof.
  unfold floats. intros W H.
  destruct (columns f !! name) as [[| |]|] eqn:E; try discriminate.
  injection H as <-. exact (map_Forall_lookup_1 _ _ _ _ W E).
Qed.

End Running.

(** ** Indexed reads and writes *)

Section Indexing.

Context {A : Type}.

Lemma elem_of_where_from (p : A -> bool) (k : nat) (a : list A) (i : nat) :
  i ∈ Np.where_from p k a
  <-> exists j v, i = (k + j)%nat /\ a !! j = Some v /\ p v = true.
Proof.
  revert k; induction a as [|u a IH]; intros k.
  - cbn. split; [intros H; inversion H | intros (j & v & _ & H & _); discriminate].
  - cbn [Np.where_from]. split.
    + destruct (p u) eqn:E.
      * rewrite elem_of_cons. intros [-> | H].
        -- exists 0%nat, u. repeat split; [lia | exact E].
        -- apply IH in H as (j & v & -> & Hj & Hv).
           exists (S j), v. repeat split; [lia | exact Hj | exact Hv].
      * intros H. apply IH in H as (j & v & -> & Hj & Hv).
        exists (S j), v. repeat split; [lia | exact Hj | exact Hv].
    + intros (j & v & -> & Hj & Hv). destruct j as [|j].
      * cbn in Hj. injection Hj as ->. rewrite Hv, Nat.add_0_r. apply elem_of_cons; now left.
      * assert (H : (k + S j)%nat ∈ Np.where_from p (S k) a).
        { apply IH. exists j, v. repeat split; [lia | exact Hj | exact Hv]. }
        destruct (p u); [apply elem_of_cons; right|]; exact H.
Qed.

(** [np.where] lists exactly the positions at which the test holds. *)
Lemma elem_of_where (p : A -> bool) (a : list A) (i : nat) :
  i ∈ Np.where_ p a <-> exists v, a !! i = Some v /\ p v = true.
Proof.
  unfold Np.where_. rewrite elem_of_where_from. split.
  - intros (j & v & -> & H). now exists v.
  - intros (v & H). now exists i, v.
Qed.

Lemma where_in_range (p : A -> bool) (a : list A) :
  Forall (fun i => i < length a)%nat (Np.where_ p a).
Proof.
  apply Forall_forall. intros i Hi.
  apply elem_of_where in Hi as (v & Hv & _). now apply lookup_lt_Some in Hv.
Qed.

(** [dst[idx] = src[idx]]: the positions of [idx] are copied from [src],
    the others are kept. *)
Lemma put_take (src dst : list A) (idx : list nat) :
  length src = length dst ->
  Forall (fun i => i < length dst)%nat idx ->
  exists vals dst',
    Np.take_at src idx = Some vals
    /\ Np.put_at dst idx vals = Some dst'
    /\ length dst' = length dst
    /\ forall j, dst' !! j = if decide (j ∈ idx) then src !! j else dst !! j.
Proof.
  intros L H. revert dst L H.
  induction idx as [|i idx IH]; intros dst L H.
  - exists [], dst. do 3 (split; [reflexivity|]).
    intros j. destruct (decide (j ∈ [])) as [E|_]; [inversion E | reflexivity].
  - apply Forall_cons in H as [Hi H].
    destruct (lookup_lt_is_Some_2 src i ltac:(lia)) as [v Hv].
    destruct (IH (<[i:=v]> dst)) as (vals & dst' & Ht & Hp & Hl & Hd).
    { now rewrite length_insert. }
    { now rewrite length_insert. }
    exists (v :: vals), dst'. split; [|split; [|split]].
    + unfold Np.take_at in *. cbn [mapM]. rewrite Hv. cbn. now rewrite Ht.
    + cbn [Np.put_at]. destruct (decide (i < length dst)%nat); [exact Hp | lia].
    + now rewrite Hl, length_insert.
    + intros j. rewrite Hd.
      destruct (decide (j ∈ idx)) as [E|E].
      * rewrite decide_True; [reflexivity | apply elem_of_cons; now right].
      * destruct (decide (j = i)) as [->|N].
        -- rewrite decide_True by (apply elem_of_cons; now left).
           rewrite Hv. now apply list_lookup_insert_eq.
        -- rewrite decide_False.
           ++ now apply list_lookup_insert_ne.
           ++ rewrite elem_of_cons. tauto.
Qed.

End Indexing.

(** ** [order_endpoints_sphere] *)

Section OrderEndpoints.

(** One statement of the form
    [copy.dst.values[idx] = segment.src.values[idx]]. *)
Lemma copy_step (segment c : nat) (src_name dst_name : string)
    (idx : list nat) (f fc : frame) (src dst : list Q) (w : world) :
  heap w !! segment = Some f -> heap w !! c = Some fc ->
  floats f src_name = Some src -> floats fc dst_name = Some dst ->
  length src = length dst ->
  Forall (fun i => i < length dst)%nat idx ->
  exists dst',
    (forall B (k : unit -> py B),
       (col ← values segment src_name;
        v ← lift (Np.take_at col idx);
        assign_at c dst_name idx v ≫= k) w
       = k tt (World (<[c := set_values fc dst_name dst']> (heap w))
                     (stdout w)))
    /\ length dst' = length dst
    /\ forall j, dst' !! j = if decide (j ∈ idx) then src !! j else dst !! j.
Proof.
  intros Hs Hc Hsrc Hdst L R.
  destruct (put_take src dst idx L R) as (vals & dst' & Ht & Hp & Hl & Hd).
  exists dst'. split; [|split; assumption]. intros B k.
  rewrite (bind_run _ _ _ _ _ (values_run _ _ _ _ _ Hs Hsrc)).
  rewrite (bind_run _ _ _ _ _ (lift_run _ _ _ Ht)).
  now rewrite (bind_run _ _ _ _ _ (assign_at_run _ _ _ _ _ _ _ _ Hc Hdst Hp)).
Qed.


Lemma heap_insert_other (h : gmap nat frame) (c l : nat) (f : frame) :
  l <> c -> <[c := f]> h !! l = h !! l.
Proof. intros N. apply lookup_insert_ne. congruence. Qed.


Lemma sample_segment_wf : frame_wf sample_segment.
Proof.
  unfold frame_wf, sample_segment. cbn [columns nrows list_to_map foldr].
  repeat (apply map_Forall_insert_2; [reflexivity|]).
  apply map_Forall_empty.
Qed.


(** On the sample table the second row is the one that is reordered. *)
Example order_endpoints_sphere_sample :
  exists w' g,
    order_endpoints_sphere 0 sample_world = Some (1%nat, w')
    /\ heap w' !! 0%nat = Some sample_segment
    /\ heap w' !! 1%nat = Some g
    /\ floats g "lon1" = Some [10; 19]%Q /\ floats g "lon2" = Some [11; 20]%Q
    /\ floats g "lat1" = Some [0; 3]%Q /\ floats g "lat2" = Some [2; 1]%Q
    /\ floats g "x1" = Some [1; 0]%Q.
Proof. vm_compute. do 2 eexists. repeat split. Qed.

End OrderEndpoints.

(** ** [locking_depth_manager] *)

Section LockingDepth.

Lemma numbers_set_values_ne (f : frame) (name name' : string) (vs : list Q) :
  name <> name' ->
  numbers (set_values f name vs) name' = numbers f name'.
Proof.
  intros N. unfold numbers, set_values; cbn. now rewrite lookup_insert_ne.
Qed.

Lemma numbers_length (f : frame) (name : string) (vs : list Q) :
  frame_wf f -> numbers f name = Some vs -> length vs = nrows f.
Proof.
  unfold numbers. intros W H.
  destruct (columns f !! name) as [[| |]|] eqn:E; try discriminate;
    injection H as <-; pose proof (map_Forall_lookup_1 _ _ _ _ W E) as L;
    cbn in L; [exact L | now rewrite length_fmap].
Qed.

(** One statement of the form [df.name.values[df.flag == k] = v]. *)
Lemma assign_where_run (l : nat) (name flag : string) (k v : Q)
    (f : frame) (flags old : list Q) (w : world) :
  heap w !! l = Some f ->
  numbers f flag = Some flags -> floats f name = Some old ->
  length flags = length old ->
  assign_where l name flag k v w
  = Some (tt, World (<[l := set_values f name
                            (zip_with (fun fl d => if Qeq_bool fl k then v else d)
                                      flags old)]> (heap w))
                    (stdout w)).
Proof.
  intros Hl Hn Hf L. unfold assign_where.
  rewrite (bind_run _ _ _ _ _ (load_run _ _ _ Hl)).
  rewrite (bind_run _ _ _ _ _ (lift_run _ _ _ Hn)).
  rewrite (bind_run _ _ _ _ _ (lift_run _ _ _ Hf)).
  unfold Np.fill_mask. rewrite length_fmap, L, Nat.eqb_refl.
  rewrite zip_with_fmap_l. reflexivity.
Qed.

Lemma assign_where_step {B} (l : nat) (name flag : string) (k v : Q)
    (f : frame) (flags old : list Q) (w : world) (kont : unit -> py B) :
  heap w !! l = Some f ->
  numbers f flag = Some flags -> floats f name = Some old ->
  length flags = length old ->
  (assign_where l name flag k v ≫= kont) w
  = kont tt (World (<[l := set_values f name
                            (zip_with (fun fl d => if Qeq_bool fl k then v else d)
                                      flags old)]> (heap w))
                   (stdout w)).
Proof.
  intros Hl Hn Hf L.
  now rewrite (bind_run _ _ _ _ _ (assign_where_run _ _ _ _ _ _ _ _ _ Hl Hn Hf L)).
Qed.

Lemma set_values_property_raises {B} (l : nat) (name : string) (v : Q)
    (k : unit -> py B) (w : world) :
  (set_values_property l name v ≫= k) w = None.
Proof.
  unfold set_values_property, mbind, py_bind, load, raise.
  now destruct (heap w !! l).
Qed.

Lemma bind_raises {A B} (m : py A) (k : A -> py B) (w : world) :
  (forall a w', k a w' = None) -> (m ≫= k) w = None.
Proof.
  intros H. unfold mbind, py_bind. destruct (m w) as [[a w']|]; auto.
Qed.

(** With the override requested, the last statement assigns to the
    read-only [values] property and the call raises, whatever the table. *)
Lemma locking_depth_manager_override_raises (w : world) (segment : nat)
    (cmd : command) :
  locking_depth_override_flag cmd = "yes" ->
  locking_depth_manager segment cmd w = None.
Proof.
  intros E. unfold locking_depth_manager. rewrite E. cbn [String.eqb].
  apply bind_raises; intros c w1.
  do 4 (apply bind_raises; intros [] ?).
  change (("yes" =? "yes")%string) with true. cbv iota.
  apply set_values_property_raises.
Qed.

Lemma length_masked (k v : Q) (flags old : list Q) :
  length flags = length old ->
  length (zip_with (fun fl d => if Qeq_bool fl k then v else d) flags old)
  = length old.
Proof. intros L. rewrite length_zip_with. lia. Qed.

(** X13: without the override, the call returns a new table in which
    only the locking depths may differ, each according to its flag; the
    input table and all other objects are untouched. *)
Lemma locking_depth_manager_flags (w : world) (segment : nat) (f : frame)
    (cmd : command) (depth flags : list Q) :
  heap w !! segment = Some f -> frame_wf f ->
  floats f "locking_depth" = Some depth ->
  numbers f "locking_depth_flag" = Some flags ->
  locking_depth_override_flag cmd <> "yes" ->
  exists c w' g depth',
    locking_depth_manager segment cmd w = Some (c, w')
    /\ heap w !! c = None
    /\ heap w' !! segment = Some f
    /\ (forall l, l <> c -> heap w' !! l = heap w !! l)
    /\ stdout w' = stdout w
    /\ heap w' !! c = Some g /\ nrows g = nrows f
    /\ (forall name, name <> "locking_depth" ->
          columns g !! name = columns f !! name)
    /\ floats g "locking_depth" = Some depth'
    /\ forall i fl d, flags !! i = Some fl -> depth !! i = Some d ->
         depth' !! i = Some (managed_depth cmd fl d).
Proof.
  intros Hs W Hd Hf E.
  pose proof (floats_length _ _ _ W Hd) as Ld.
  pose proof (numbers_length _ _ _ W Hf) as Lf.
  set (c := fresh (dom (heap w))).
  assert (Hc : heap w !! c = None) by apply fresh_not_allocated.
  assert (N : segment <> c) by congruence.
  unfold locking_depth_manager.
  rewrite (bind_run _ _ _ _ _ (deepcopy_run _ _ _ Hs)). fold c.
  set (step := fun k v => zip_with (fun fl d : Q => if Qeq_bool fl k then v else d) flags).
  set (d2 := step 2%Q (locking_depth_flag2 cmd) depth).
  set (d3 := step 3%Q (locking_depth_flag3 cmd) d2).
  set (d4 := step 4%Q (locking_depth_flag4 cmd) d3).
  set (d5 := step 5%Q (locking_depth_flag5 cmd) d4).
  assert (L2 : length d2 = length depth) by (apply length_masked; lia).
  assert (L3 : length d3 = length d2) by (apply length_masked; lia).
  assert (L4 : length d4 = length d3) by (apply length_masked; lia).
  erewrite assign_where_step;
    [| cbn; apply lookup_insert_eq | exact Hf | exact Hd | lia].
  erewrite assign_where_step;
    [| cbn; apply lookup_insert_eq
     | rewrite !numbers_set_values_ne by discriminate; exact Hf
     | apply floats_set_values | rewrite !length_zip_with; lia].
  erewrite assign_where_step;
    [| cbn; apply lookup_insert_eq
     | rewrite !numbers_set_values_ne by discriminate; exact Hf
     | apply floats_set_values | rewrite !length_zip_with; lia].
  erewrite assign_where_step;
    [| cbn; apply lookup_insert_eq
     | rewrite !numbers_set_values_ne by discriminate; exact Hf
     | apply floats_set_values | rewrite !length_zip_with; lia].
  apply String.eqb_neq in E. rewrite E.
  eexists c, _, _, d5.
  split; [reflexivity|]. split; [exact Hc|].
  split; [cbn; now rewrite !heap_insert_other|].
  split; [intros l Hl; cbn; now rewrite !heap_insert_other|].
  split; [reflexivity|].
  split; [cbn; apply lookup_insert_eq|].
  split; [reflexivity|].
  split.
  { intros name Hn. unfold set_values; cbn.
    now rewrite !lookup_insert_ne by congruence. }
  split; [apply floats_set_values|].
  intros i fl d Hi Hdi. unfold d5, d4, d3, d2, step.
  rewrite !lookup_zip_with, Hi, Hdi. cbn [mbind option_bind].
  unfold managed_depth. reflexivity.
Qed.

Lemma managed_depth_untouched (cmd : command) (fl d : Q) :
  (fl == 0 \/ fl == 1)%Q -> managed_depth cmd fl d = d.
Proof.
  intros H. unfold managed_depth.
  assert (F : forall k : Q, ~ (fl == k)%Q -> Qeq_bool fl k = false).
  { intros k Hk. destruct (Qeq_bool fl k) eqn:B; [|reflexivity].
    now apply Qeq_bool_iff in B. }
  rewrite !F; [reflexivity | | | |]; destruct H as [-> | ->]; discriminate.
Qed.

(** C9, at a table the function can receive: with the override flag set
    to yes the call raises instead of returning a table whose locking
    depths are all the override value; the same table without the
    override is processed, rows with flag 0 or 1 keeping their depth. *)
Theorem locking_depth_manager_override_sample :
  locking_depth_manager 0 (sample_command "yes") sample_world = None
  /\ exists w' g,
       locking_depth_manager 0 (sample_command "no") sample_world
       = Some (1%nat, w')
       /\ heap w' !! 0%nat = Some sample_segment
       /\ heap w' !! 1%nat = Some g
       /\ floats g "locking_depth" = Some [15; 20]%Q.
Proof.
  split; [now apply locking_depth_manager_override_raises|].
  vm_compute. do 2 eexists. repeat split.
Qed.

End LockingDepth.

(** ** [assign_block_labels] *)

Section BlockLabels.

Variable run_block_closure : list ((Q * Q) * (Q * Q)) -> option closure.

Lemma to_numpy_step {B} (l : nat) (name : string) (f : frame) (vs : list Q)
    (w : world) (k : list Q -> py B) :
  heap w !! l = Some f -> numbers f name = Some vs ->
  (to_numpy l name ≫= k) w = k vs w.
Proof.
  intros Hl Hn. unfold to_numpy.
  assert (E : (f ← load l; lift (numbers f name)) w = Some (vs, w)).
  { rewrite (bind_run _ _ _ _ _ (load_run _ _ _ Hl)). now apply lift_run. }
  now rewrite (bind_run _ _ _ _ _ E).
Qed.

Lemma lift_step {A B} (o : option A) (a : A) (w : world) (k : A -> py B) :
  o = Some a -> (lift o ≫= k) w = k a w.
Proof. intros ->. reflexivity. Qed.

Lemma setitem_step {B} (l : nat) (name : string) (c : column) (f : frame)
    (w : world) (k : unit -> py B) :
  heap w !! l = Some f -> column_length c = nrows f ->
  (setitem l name c ≫= k) w
  = k tt (World (<[l := Frame (nrows f) (<[name := c]> (columns f))]> (heap w))
                (stdout w)).
Proof.
  intros Hl Hc. unfold setitem.
  assert (E : (f ← load l; f' ← lift (set_column f name c); store l f') w
              = Some (tt, World (<[l := Frame (nrows f) (<[name := c]> (columns f))]>
                                   (heap w)) (stdout w))).
  { rewrite (bind_run _ _ _ _ _ (load_run _ _ _ Hl)).
    unfold set_column. rewrite Hc, Nat.eqb_refl. reflexivity. }
  now rewrite (bind_run _ _ _ _ _ E).
Qed.

Lemma ints_step {B} (l : nat) (name : string) (f : frame) (vs : list Z)
    (w : world) (k : list Z -> py B) :
  heap w !! l = Some f -> columns f !! name = Some (IntCol vs) ->
  (ints l name ≫= k) w = k vs w.
Proof.
  intros Hl Hn. unfold ints.
  assert (E : (f ← load l;
               lift (match columns f !! name with
                     | Some (IntCol vs) => Some vs
                     | _ => None
                     end)) w = Some (vs, w)).
  { rewrite (bind_run _ _ _ _ _ (load_run _ _ _ Hl)). now rewrite Hn. }
  now rewrite (bind_run _ _ _ _ _ E).
Qed.

(** The set of unprocessed indices is non-empty exactly when some segment
    has a negative west or east label. *)
Lemma unprocessed_indices_nonempty (labels : list (Z * Z)) :
  Nat.ltb 0 (size (union1d (Np.where_ (fun v => Z.ltb v 0) (labels.*2))
                           (Np.where_ (fun v => Z.ltb v 0) (labels.*1))))
  = true
  <-> exists i we, labels !! i = Some we /\ (we.1 < 0 \/ we.2 < 0)%Z.
Proof.
  rewrite Nat.ltb_lt. unfold union1d. split.
  - intros H. apply size_pos_elem_of in H as [i Hi].
    rewrite elem_of_union, !elem_of_list_to_set, !elem_of_where in Hi.
    destruct Hi as [(v & Hv & Hneg) | (v & Hv & Hneg)];
      rewrite list_lookup_fmap in Hv;
      destruct (labels !! i) as [we|] eqn:E; try discriminate;
      injection Hv as <-; apply Z.ltb_lt in Hneg;
      exists i, we; (split; [exact E|]); [right | left]; exact Hneg.
  - intros (i & we & Hi & Hneg).
    set (X := _ ∪ _).
    assert (Hin : i ∈ X).
    { unfold X. rewrite elem_of_union, !elem_of_list_to_set, !elem_of_where.
      destruct Hneg as [Hneg | Hneg]; [right | left];
        (eexists; split; [rewrite list_lookup_fmap, Hi; reflexivity|]);
        now apply Z.ltb_lt. }
    destruct (size X) eqn:S; [|lia].
    apply size_empty_inv in S. apply (proj1 (S i)) in Hin.
    now apply elem_of_empty in Hin.
Qed.

Lemma snoc_ne {A} (l : list A) (x : A) : l ++ [x] <> l.
Proof.
  intros E. apply (f_equal length) in E. rewrite length_app in E. cbn in E. lia.
Qed.

(** C1: once the closure has returned one label pair per segment, the
    labelling step of [assign_block_labels] does not raise, stores the
    west and east labels of every segment in the segment table, and
    prints its warning if and only if some segment has a negative west or
    east label; nothing else is printed. *)
Theorem assign_block_labels_reports_unprocessed (w : world) (segment : nat)
    (f : frame) (lon1 lon2 lat1 lat2 : list Q) (cl : closure) :
  heap w !! segment = Some f ->
  numbers f "lon1" = Some lon1 -> numbers f "lon2" = Some lon2 ->
  numbers f "lat1" = Some lat1 -> numbers f "lat2" = Some lat2 ->
  run_block_closure (np_segments_of lon1 lat1 lon2 lat2) = Some cl ->
  length (get_segment_labels cl) = nrows f ->
  exists w' g,
    assign_block_labels_segments run_block_closure segment w = Some (cl, w')
    /\ heap w' !! segment = Some g
    /\ columns g !! "west_labels" = Some (IntCol ((get_segment_labels cl).*1))
    /\ columns g !! "east_labels" = Some (IntCol ((get_segment_labels cl).*2))
    /\ (forall name, name <> "west_labels" -> name <> "east_labels" ->
          columns g !! name = columns f !! name)
    /\ (stdout w' = stdout w
        \/ stdout w' = stdout w ++ ["Found unproccessed indices"])
    /\ (stdout w' = stdout w ++ ["Found unproccessed indices"]
        <-> exists i we, get_segment_labels cl !! i = Some we
                         /\ (we.1 < 0 \/ we.2 < 0)%Z).
Proof.
  intros Hs H1 H2 H3 H4 Hcl L.
  unfold assign_block_labels_segments.
  rewrite (to_numpy_step _ _ _ _ _ _ Hs H1), (to_numpy_step _ _ _ _ _ _ Hs H2),
    (to_numpy_step _ _ _ _ _ _ Hs H3), (to_numpy_step _ _ _ _ _ _ Hs H4),
    (lift_step _ _ _ _ Hcl).
  cbv zeta. set (labels := get_segment_labels cl) in *.
  erewrite setitem_step; [| exact Hs | cbn; now rewrite length_fmap].
  erewrite setitem_step;
    [| cbn; apply lookup_insert_eq | cbn; now rewrite length_fmap].
  erewrite ints_step;
    [| cbn; apply lookup_insert_eq | cbn; apply lookup_insert_eq].
  erewrite ints_step;
    [| cbn; apply lookup_insert_eq
     | cbn; rewrite lookup_insert_ne by discriminate; apply lookup_insert_eq].
  pose proof (unprocessed_indices_nonempty labels) as U.
  destruct (Nat.ltb 0 _) eqn:T.
  - eexists _, _. split; [reflexivity|].
    split; [cbn; apply lookup_insert_eq|].
    split; [cbn; rewrite lookup_insert_ne by discriminate; apply lookup_insert_eq|].
    split; [cbn; apply lookup_insert_eq|].
    split; [intros name N1 N2; cbn; now rewrite !lookup_insert_ne by congruence|].
    split; [right; reflexivity|].
    split; [intros _; now apply U | reflexivity].
  - eexists _, _. split; [reflexivity|].
    split; [cbn; apply lookup_insert_eq|].
    split; [cbn; rewrite lookup_insert_ne by discriminate; apply lookup_insert_eq|].
    split; [cbn; apply lookup_insert_eq|].
    split; [intros name N1 N2; cbn; now rewrite !lookup_insert_ne by congruence|].
    split; [left; reflexivity|].
    split.
    + cbn. intros E. symmetry in E. now apply snoc_ne in E.
    + intros E. apply U in E. discriminate.
Qed.

End BlockLabels.

Lemma assign_block_labels_reports_unprocessed_witness :
  exists w' g,
    assign_block_labels_segments (fun _ => Some sample_closure) 0 sample_world
    = Some (sample_closure, w')
    /\ heap w' !! 0%nat = Some g
    /\ columns g !! "west_labels"
       = Some (IntCol ((get_segment_labels sample_closure).*1))
    /\ columns g !! "east_labels"
       = Some (IntCol ((get_segment_labels sample_closure).*2))
    /\ (forall name, name <> "west_labels" -> name <> "east_labels" ->
          columns g !! name = columns sample_segment !! name)
    /\ (stdout w' = stdout sample_world
        \/ stdout w' = stdout sample_world ++ ["Found unproccessed indices"])
    /\ (stdout w' = stdout sample_world ++ ["Found unproccessed indices"]
        <-> exists i we, get_segment_labels sample_closure !! i = Some we
                         /\ (we.1 < 0 \/ we.2 < 0)%Z).
Proof.
  apply (assign_block_labels_reports_unprocessed (fun _ => Some sample_closure)
           sample_world 0 sample_segment
           [10; 20]%Q [11; 19]%Q [0; 1]%Q [2; 3]%Q sample_closure);
    reflexivity.
Defined.

(** On the sample closure, whose first segment has east label -1, the
    warning is printed and both label columns are stored. *)
Example assign_block_labels_sample :
  exists w' g,
    assign_block_labels_segments (fun _ => Some sample_closure) 0 sample_world
    = Some (sample_closure, w')
    /\ stdout w' = ["Found unproccessed indices"]
    /\ heap w' !! 0%nat = Some g
    /\ columns g !! "west_labels" = Some (IntCol [0; 0]%Z)
    /\ columns g !! "east_labels" = Some (IntCol [-1; 1]%Z).
Proof. vm_compute. do 2 eexists. repeat split. Qed.

Section BlockAreas.

Local Open Scope Q_scope.

Lemma assign_item_step {B} (l : nat) (name : string) (i : nat) (a : Q)
    (f : frame) (old : list Q) (w : world) (k : unit -> py B) :
  heap w !! l = Some f -> floats f name = Some old -> (i < length old)%nat ->
  (assign_at l name [i] [a] ≫= k) w
  = k tt (World (<[l := set_values f name (<[i:=a]> old)]> (heap w)) (stdout w)).
Proof.
  intros Hl Hf Hi.
  assert (P : Np.put_at old [i] [a] = Some (<[i:=a]> old)).
  { cbn. destruct (decide (i < length old)%nat); [reflexivity | lia]. }
  now rewrite (bind_run _ _ _ _ _ (assign_at_run _ _ _ _ _ _ _ _ Hl Hf P)).
Qed.

(** The loop over the polygons writes the area of polygon [j] at position
    [i + j] and nothing else. *)
Lemma area_loop_run (block : nat) (ps : list polygon) :
  forall (i : nat) (w : world) (f : frame) (areas : list Q),
    heap w !! block = Some f ->
    floats f "area_plate_carree" = Some areas ->
    (i + length ps <= length areas)%nat ->
    exists w' g areas',
      area_loop block i ps w = Some (tt, w')
      /\ stdout w' = stdout w
      /\ (forall l, l <> block -> heap w' !! l = heap w !! l)
      /\ heap w' !! block = Some g /\ nrows g = nrows f
      /\ (forall name, name <> "area_plate_carree" ->
            columns g !! name = columns f !! name)
      /\ floats g "area_plate_carree" = Some areas'
      /\ length areas' = length areas
      /\ (forall j, (j < i \/ i + length ps <= j)%nat ->
            areas' !! j = areas !! j)
      /\ (forall j p, ps !! j = Some p ->
            exists a, areas' !! (i + j)%nat = Some a
                      /\ polygon_area ((vertices p).*1) ((vertices p).*2)
                         = Some a).
Proof.
  induction ps as [|p ps IH]; intros i w f areas Hb Hf Hi.
  - exists w, f, areas. cbn [area_loop].
    split; [reflexivity|]. split; [reflexivity|]. split; [auto|].
    split; [exact Hb|]. split; [reflexivity|]. split; [auto|].
    split; [exact Hf|]. split; [reflexivity|]. split; [auto|].
    intros j q Hq. discriminate.
  - cbn [area_loop length] in *. cbv zeta.
    rewrite (lift_step _ _ _ _ (polygon_area_ring (vertices p))).
    set (a := (1 # 2) * Qabs _).
    erewrite assign_item_step; [| exact Hb | exact Hf | lia].
    destruct (IH (S i) (World (<[block := set_values f "area_plate_carree"
                                            (<[i:=a]> areas)]> (heap w))
                              (stdout w))
                 (set_values f "area_plate_carree" (<[i:=a]> areas))
                 (<[i:=a]> areas))
      as (w' & g & areas' & Hrun & Hout & Hoth & Hg & Hn & Hcols & Hfl & Hlen
          & Hkeep & Hset).
    { cbn. apply lookup_insert_eq. }
    { apply floats_set_values. }
    { rewrite length_insert. lia. }
    exists w', g, areas'.
    split; [exact Hrun|]. split; [exact Hout|].
    split.
    { intros l Hl. rewrite (Hoth l Hl). cbn. apply lookup_insert_ne. congruence. }
    split; [exact Hg|]. split; [exact Hn|].
    split.
    { intros name Hname. rewrite (Hcols name Hname). cbn.
      apply lookup_insert_ne. congruence. }
    split; [exact Hfl|].
    split; [now rewrite Hlen, length_insert|].
    split.
    { intros j Hj. rewrite Hkeep by lia. apply list_lookup_insert_ne. lia. }
    intros j q Hq. destruct j as [|j].
    + injection Hq as ->. rewrite Nat.add_0_r, Hkeep by lia.
      exists a. split; [apply list_lookup_insert_eq; lia|].
      apply polygon_area_ring.
    + cbn in Hq. destruct (Hset j q Hq) as (a' & Ha' & Hp).
      exists a'. split; [|exact Hp].
      now replace (i + S j)%nat with (S i + j)%nat by lia.
Qed.

(** C6: when the block table has at least as many rows as there are
    traced polygons, the area step stores for each polygon the value of
    [polygon_area] on its vertex ring, which is non-negative and equal to
    the absolute value of the signed shoelace area; the rows past the
    last polygon keep the initial -1. *)
Theorem assign_block_labels_areas_unsigned (w : world) (block : nat)
    (f : frame) (c : closure) :
  heap w !! block = Some f -> (n_polygons c <= nrows f)%nat ->
  exists w' g areas,
    assign_block_labels_areas block c w = Some (tt, w')
    /\ heap w' !! block = Some g
    /\ floats g "area_plate_carree" = Some areas
    /\ length areas = nrows f
    /\ (forall i p, polygons c !! i = Some p ->
          exists a, areas !! i = Some a
                    /\ polygon_area ((vertices p).*1) ((vertices p).*2) = Some a
                    /\ 0 <= a
                    /\ a == Qabs (shoelace_signed (vertices p)))
    /\ (forall i, (n_polygons c <= i < nrows f)%nat -> areas !! i = Some (-1)).
Proof.
  intros Hb Hn. unfold assign_block_labels_areas.
  rewrite (bind_run _ _ _ _ _ (load_run _ _ _ Hb)).
  set (init := Qmult (-1) <$> replicate (nrows f) 1).
  assert (Li : length init = nrows f)
    by (unfold init; now rewrite length_fmap, length_replicate).
  erewrite setitem_step; [| exact Hb | exact Li].
  destruct (area_loop_run block (polygons c) 0
              (World (<[block := Frame (nrows f)
                                   (<["area_plate_carree" := FloatCol init]>
                                      (columns f))]> (heap w)) (stdout w))
              (Frame (nrows f)
                 (<["area_plate_carree" := FloatCol init]> (columns f)))
              init)
    as (w' & g & areas & Hrun & _ & _ & Hg & _ & _ & Hfl & Hlen & Hkeep & Hset).
  { cbn. apply lookup_insert_eq. }
  { unfold floats; cbn. now rewrite lookup_insert_eq. }
  { unfold n_polygons in Hn. lia. }
  exists w', g, areas.
  split; [exact Hrun|]. split; [exact Hg|]. split; [exact Hfl|].
  split; [lia|]. split.
  - intros i p Hp. destruct (Hset i p Hp) as (a & Ha & Harea).
    exists a. split; [exact Ha|]. split; [exact Harea|].
    split; [exact (polygon_area_nonneg _ _ _ Harea)|].
    destruct (polygon_area_shoelace (vertices p)) as (a' & Ha' & E).
    congruence.
  - intros i [Hlo Hhi]. unfold n_polygons in Hlo.
    rewrite Hkeep by (right; lia). unfold init.
    rewrite fmap_replicate. now apply lookup_replicate_2.
Qed.

Lemma assign_block_labels_areas_unsigned_witness :
  exists w' g areas,
    assign_block_labels_areas 0 sample_closure sample_block_world
    = Some (tt, w')
    /\ heap w' !! 0%nat = Some g
    /\ floats g "area_plate_carree" = Some areas
    /\ length areas = nrows sample_block
    /\ (forall i p, polygons sample_closure !! i = Some p ->
          exists a, areas !! i = Some a
                    /\ polygon_area ((vertices p).*1) ((vertices p).*2) = Some a
                    /\ 0 <= a
                    /\ a == Qabs (shoelace_signed (vertices p)))
    /\ (forall i, (n_polygons sample_closure <= i < nrows sample_block)%nat ->
          areas !! i = Some (-1)).
Proof.
  apply (assign_block_labels_areas_unsigned sample_block_world 0
           sample_block sample_closure); [reflexivity | cbn; lia].
Defined.

(** The unit square of the sample closure gets area 1, the two other
    block rows keep -1. *)
Example assign_block_labels_areas_sample :
  exists w' g areas,
    assign_block_labels_areas 0 sample_closure sample_block_world
    = Some (tt, w')
    /\ heap w' !! 0%nat = Some g
    /\ floats g "area_plate_carree" = Some areas
    /\ Forall2 Qeq areas [1; -1; -1].
Proof.
  vm_compute. do 3 eexists. do 3 (split; [reflexivity|]).
  repeat constructor.
Qed.

(** With more polygons than block rows the loop indexes past the end of
    the column and the call raises. *)
Example assign_block_labels_areas_too_many :
  assign_block_labels_areas 0 sample_closure
    (World {[ 0%nat := Frame 0 ∅ ]} []) = None.
Proof. vm_compute. reflexivity. Qed.

End BlockAreas.

(** ** [get_fault_slip_rate_partials] *)

Module SlipRateFacts.
Import SlipRate.

Local Open Scope nat_scope.

Lemma py_slice_in_range (n : nat) (v : nat) :
  v + 3 <= n ->
  py_slice n (Z.of_nat v) (Z.of_nat v + 3) = (v, 3).
Proof.
  intros H. unfold py_slice, slice_bound.
  destruct (Z.ltb_spec (Z.of_nat v) 0); [lia|].
  destruct (Z.ltb_spec (Z.of_nat v + 3) 0); [lia|].
  f_equal; lia.
Qed.

(** The rows selected by the slice [3k : 3k+3] on an axis long enough. *)
Lemma py_slice_rows (n k : nat) :
  3 * k + 3 <= n ->
  py_slice n (3 * Z.of_nat k) (3 * Z.of_nat k + 3) = (3 * k, 3).
Proof.
  intros H. replace (3 * Z.of_nat k)%Z with (Z.of_nat (3 * k)) by lia.
  now apply py_slice_in_range.
Qed.

Lemma ncols_rows (a : matrix) (m : nat) :
  a <> [] -> Forall (fun row => length row = m) a -> ncols a = m.
Proof.
  destruct a as [|row a]; [congruence|].
  intros _ H. now apply Forall_cons in H as [H _].
Qed.

Lemma lookup_imap_match {A B} (f : nat -> A -> B) (l : list A) (i : nat) :
  imap f l !! i = match l !! i with Some x => Some (f i x) | None => None end.
Proof. rewrite list_lookup_imap. now destruct (l !! i). Qed.

(** A successful block assignment keeps the shape and touches only the
    three selected rows. *)
Lemma set_block_frame (a a' m : matrix) (k : nat) (c : Z) (w : nat) :
  3 * k + 3 <= length a ->
  Forall (fun row => length row = w) a ->
  set_block a (3 * Z.of_nat k) c m = Some a' ->
  length a' = length a
  /\ Forall (fun row => length row = w) a'
  /\ forall i, (i < 3 * k \/ 3 * k + 3 <= i) -> a' !! i = a !! i.
Proof.
  intros Hk Hw. unfold set_block. rewrite (py_slice_rows _ _ Hk).
  destruct (py_slice (ncols a) c (c + 3)) as [c0 cn].
  destruct (Nat.eqb 3 3 && Nat.eqb cn 3); [|discriminate].
  intros H. apply Some_inj in H. subst a'.
  split; [apply length_imap|]. split.
  - apply Forall_lookup. intros i row Hrow.
    rewrite lookup_imap_match in Hrow.
    destruct (a !! i) as [old|] eqn:E; [|discriminate].
    apply Some_inj in Hrow. subst row.
    pose proof (Forall_lookup_1 _ _ _ _ Hw E) as L.
    destruct (_ && _); [now rewrite length_imap | exact L].
  - intros i Hi. rewrite lookup_imap_match.
    destruct (a !! i) as [old|]; [|reflexivity].
    destruct (Nat.leb_spec (3 * k) i); destruct (Nat.ltb_spec i (3 * k + 3));
      cbn [andb]; try reflexivity; lia.
Qed.

(** Columns [3e .. 3e+2] of rows [3k .. 3k+2] receive the 3x3 block, all
    other entries are kept. *)
Lemma set_block_entry (a m : matrix) (k e w : nat) :
  3 * k + 3 <= length a ->
  Forall (fun row => length row = w) a ->
  3 * e + 3 <= w ->
  exists a',
    set_block a (3 * Z.of_nat k) (3 * Z.of_nat e) m = Some a'
    /\ forall i j old, entry a i j = Some old ->
         entry a' i j
         = Some (if (3 * k <=? i) && (i <? 3 * k + 3)
                    && ((3 * e <=? j) && (j <? 3 * e + 3))
                 then default old (entry m (i - 3 * k) (j - 3 * e))
                 else old).
Proof.
  intros Hk Hw He. unfold set_block.
  assert (Hne : a <> []) by (intros ->; cbn in Hk; lia).
  rewrite (py_slice_rows _ _ Hk), (ncols_rows _ _ Hne Hw), (py_slice_rows _ _ He).
  cbn [Nat.eqb andb]. eexists; split; [reflexivity|].
  intros i j old. unfold entry at 1 2.
  rewrite lookup_imap_match.
  destruct (a !! i) as [row|]; [|discriminate].
  cbn [mbind option_bind]. intros Hj.
  destruct ((3 * k <=? i) && (i <? 3 * k + 3)); cbn [andb].
  - rewrite lookup_imap_match, Hj. reflexivity.
  - exact Hj.
Qed.

Lemma entry_neg (m : matrix) (i j : nat) :
  entry (neg m) i j = Qopp <$> entry m i j.
Proof.
  unfold entry, neg. rewrite list_lookup_fmap.
  destruct (m !! i) as [row|]; [|reflexivity].
  cbn [fmap option_fmap option_map mbind option_bind].
  apply list_lookup_fmap.
Qed.

Lemma entry_zeros (n m i j : nat) :
  i < n -> j < m -> entry (zeros n m) i j = Some 0%Q.
Proof.
  intros Hi Hj. unfold entry, zeros.
  rewrite (lookup_replicate_2 _ _ _ Hi). cbn [mbind option_bind].
  now apply lookup_replicate_2.
Qed.

Section Loop.

Variables sin_deg cos_deg : Q -> Q.
Variable geoid_inv_azimuth : Q -> Q -> Q -> Q -> Q.

Let block := slip_rate_matrix sin_deg cos_deg geoid_inv_azimuth.
Let loop := partials_loop sin_deg cos_deg geoid_inv_azimuth.

(** The block written for a segment is a full 3x3 array. *)
Lemma slip_rate_matrix_entry (s : segment_row) (a b : nat) :
  a < 3 -> b < 3 -> entry (block s) a b = Some (at3 (block s) a b).
Proof.
  intros Ha Hb. unfold at3, block, slip_rate_matrix.
  destruct (negb (Qeq_bool (dip s) 90));
    destruct a as [|[|[|a]]]; try lia;
    destruct b as [|[|[|b]]]; try lia; reflexivity.
Qed.

Lemma loop_cons (k : nat) (s : segment_row) (rest : list segment_row)
    (op op' : matrix) :
  loop k (s :: rest) op = Some op' ->
  exists p1 p2,
    set_block op (3 * Z.of_nat k) (3 * east_labels s) (block s) = Some p1
    /\ set_block p1 (3 * Z.of_nat k) (3 * west_labels s) (neg (block s))
       = Some p2
    /\ loop (S k) rest p2 = Some op'.
Proof.
  unfold loop, block. cbn [partials_loop]. cbv zeta.
  destruct (set_block op _ _ _) as [p1|]; [|discriminate].
  cbn [mbind option_bind].
  destruct (set_block p1 _ _ _) as [p2|] eqn:E2; [|discriminate].
  cbn [mbind option_bind]. intros H. now exists p1, p2.
Qed.

(** The iterations from segment [k] on keep the shape of the operator
    and leave the rows of the earlier segments alone. *)
Lemma loop_frame (segs : list segment_row) :
  forall (k : nat) (op op' : matrix) (w : nat),
    3 * (k + length segs) <= length op ->
    Forall (fun row => length row = w) op ->
    loop k segs op = Some op' ->
    length op' = length op
    /\ Forall (fun row => length row = w) op'
    /\ forall i, i < 3 * k -> op' !! i = op !! i.
Proof.
  induction segs as [|s rest IH]; intros k op op' w Hk Hw H.
  - apply Some_inj in H. subst op'. auto.
  - cbn [length] in Hk.
    apply loop_cons in H as (p1 & p2 & H1 & H2 & H3).
    destruct (set_block_frame op p1 _ k _ w ltac:(lia) Hw H1) as (L1 & W1 & K1).
    destruct (set_block_frame p1 p2 _ k _ w ltac:(lia) W1 H2) as (L2 & W2 & K2).
    destruct (IH (S k) p2 op' w ltac:(lia) W2 H3) as (L3 & W3 & K3).
    split; [lia|]. split; [exact W3|].
    intros i Hi. rewrite K3, K2, K1 by lia. reflexivity.
Qed.

(** The rows of segment [k + j], once the loop has run from segment
    [k] over rows that were still zero. *)
Lemma loop_segment_rows (segs : list segment_row) :
  forall (k : nat) (op op' : matrix) (j : nat) (s : segment_row)
         (e w nb : nat),
    3 * (k + length segs) <= length op ->
    Forall (fun row => length row = 3 * nb) op ->
    (forall i col, 3 * k <= i < length op -> col < 3 * nb ->
       entry op i col = Some 0%Q) ->
    loop k segs op = Some op' ->
    segs !! j = Some s ->
    east_labels s = Z.of_nat e -> west_labels s = Z.of_nat w ->
    e < nb -> w < nb -> e <> w ->
    forall a col, a < 3 -> col < 3 * nb ->
      entry op' (3 * (k + j) + a) col
      = Some (if (3 * e <=? col) && (col <? 3 * e + 3)
              then at3 (block s) a (col - 3 * e)
              else if (3 * w <=? col) && (col <? 3 * w + 3)
                   then (- at3 (block s) a (col - 3 * w))%Q
                   else 0%Q).
Proof.
  induction segs as [|s0 rest IH];
    intros k op op' j s e w nb Hk Hw Hz H Hj He Hwl Le Lw Ne a col Ha Hcol;
    [discriminate|].
  cbn [length] in Hk.
  apply loop_cons in H as (p1 & p2 & H1 & H2 & H3).
  destruct (set_block_frame op p1 _ k _ _ ltac:(lia) Hw H1) as (L1 & W1 & K1).
  destruct (set_block_frame p1 p2 _ k _ _ ltac:(lia) W1 H2) as (L2 & W2 & K2).
  destruct j as [|j].
  - apply Some_inj in Hj. subst s0. rewrite He in H1. rewrite Hwl in H2.
    destruct (set_block_entry op (block s) k e (3 * nb) ltac:(lia) Hw ltac:(lia))
      as (q1 & E1 & F1).
    destruct (set_block_entry p1 (neg (block s)) k w (3 * nb) ltac:(lia) W1
                ltac:(lia)) as (q2 & E2 & F2).
    assert (q1 = p1) by congruence. subst q1.
    assert (q2 = p2) by congruence. subst q2.
    destruct (loop_frame rest (S k) p2 op' (3 * nb) ltac:(lia) W2 H3)
      as (_ & _ & K3).
    replace (3 * (k + 0) + a) with (3 * k + a) by lia.
    unfold entry at 1. rewrite K3 by lia. fold (entry p2 (3 * k + a) col).
    rewrite (F2 _ _ _ (F1 _ _ _ (Hz (3 * k + a) col ltac:(lia) Hcol))).
    replace (3 * k + a - 3 * k) with a by lia.
    assert (R : (3 * k <=? 3 * k + a) && (3 * k + a <? 3 * k + 3) = true).
    { apply andb_true_intro. split; [apply Nat.leb_le | apply Nat.ltb_lt]; lia. }
    rewrite R. cbn [andb]. f_equal.
    destruct (Nat.leb_spec (3 * e) col); destruct (Nat.ltb_spec col (3 * e + 3));
      destruct (Nat.leb_spec (3 * w) col); destruct (Nat.ltb_spec col (3 * w + 3));
      cbn [andb]; try lia; try reflexivity;
      rewrite entry_neg, slip_rate_matrix_entry by lia; reflexivity.
  - cbn in Hj.
    replace (3 * (k + S j) + a) with (3 * (S k + j) + a) by lia.
    apply (IH (S k) p2 op' j s e w nb); try assumption; try lia.
    intros i c' Hi Hc'. unfold entry. rewrite K2, K1 by lia.
    apply (Hz i c'); lia.
Qed.

Lemma loop_total (segs : list segment_row) (nb : nat) :
  Forall (fun s => (0 <= east_labels s < Z.of_nat nb)%Z
                   /\ (0 <= west_labels s < Z.of_nat nb)%Z) segs ->
  forall (k : nat) (op : matrix),
    3 * (k + length segs) <= length op ->
    Forall (fun row => length row = 3 * nb) op ->
    is_Some (loop k segs op).
Proof.
  induction 1 as [|s rest [[He1 He2] [Hw1 Hw2]] _ IH]; intros k op Hk Hw.
  - now exists op.
  - cbn [length] in Hk. unfold loop. cbn [partials_loop]. cbv zeta.
    fold loop. fold (block s).
    destruct (set_block_entry op (block s) k (Z.to_nat (east_labels s))
                (3 * nb) ltac:(lia) Hw ltac:(lia)) as (p1 & E1 & _).
    rewrite Z2Nat.id in E1 by lia. rewrite E1. cbn [mbind option_bind].
    destruct (set_block_frame op p1 _ k _ _ ltac:(lia) Hw E1) as (L1 & W1 & _).
    destruct (set_block_entry p1 (neg (block s)) k (Z.to_nat (west_labels s))
                (3 * nb) ltac:(lia) W1 ltac:(lia)) as (p2 & E2 & _).
    rewrite Z2Nat.id in E2 by lia. rewrite E2. cbn [mbind option_bind].
    destruct (set_block_frame p1 p2 _ k _ _ ltac:(lia) W1 E2) as (L2 & W2 & _).
    apply IH; [lia | exact W2].
Qed.

End Loop.

Section Products.

Local Open Scope Q_scope.

Lemma dot_aux_split (row : list Q) :
  forall (omega : list Q) (j : nat) (v : Q),
    row !! j = Some v ->
    Np.dot_aux row omega
    == v * nth j omega 0 + Np.dot_aux (<[j:=0]> row) omega.
Proof.
  induction row as [|u row IH]; intros omega j v Hj; [discriminate|].
  destruct j as [|j].
  - apply Some_inj in Hj. subst u.
    change (<[0%nat:=0]> (v :: row)) with (0 :: row).
    destruct omega as [|o omega]; cbn [nth Np.dot_aux]; ring.
  - change (<[S j:=0]> (u :: row)) with (u :: <[j:=0]> row).
    destruct omega as [|o omega]; cbn [nth Np.dot_aux].
    + destruct j; ring.
    + rewrite (IH omega j v Hj). ring.
Qed.

Lemma dot_aux_zero (row : list Q) :
  forall omega : list Q,
    (forall j v, row !! j = Some v -> v == 0) ->
    Np.dot_aux row omega == 0.
Proof.
  induction row as [|u row IH]; intros omega H; [reflexivity|].
  destruct omega as [|o omega]; [reflexivity|].
  cbn [Np.dot_aux]. rewrite (H 0%nat u eq_refl), IH; [ring|].
  intros j v Hj. exact (H (S j) v Hj).
Qed.

(** A row that is zero outside the positions [js] meets a vector only
    at those positions. *)
Lemma dot_aux_support (js : list nat) :
  forall row omega : list Q,
    NoDup js ->
    Forall (fun j => j < length row)%nat js ->
    (forall j v, row !! j = Some v -> j ∉ js -> v == 0) ->
    Np.dot_aux row omega
    == foldr (fun j acc => nth j row 0 * nth j omega 0 + acc) 0 js.
Proof.
  induction js as [|j js IH]; intros row omega ND Hjs Hz.
  - cbn [foldr]. apply dot_aux_zero. intros j v Hj.
    apply (Hz j v Hj). apply not_elem_of_nil.
  - apply NoDup_cons in ND as [Hnot ND].
    apply Forall_cons in Hjs as [Hj Hjs].
    destruct (lookup_lt_is_Some_2 row j Hj) as [v Hv].
    cbn [foldr]. rewrite (dot_aux_split row omega j v Hv).
    rewrite (IH (<[j:=0]> row) omega ND).
    + rewrite (nth_lookup_Some _ _ _ _ Hv).
      assert (E : forall acc,
                foldr (fun j0 acc => nth j0 (<[j:=0]> row) 0 * nth j0 omega 0 + acc)
                      acc js
                = foldr (fun j0 acc => nth j0 row 0 * nth j0 omega 0 + acc)
                        acc js).
      { clear -Hnot. induction js as [|j' js IHjs]; intros acc; [reflexivity|].
        cbn [foldr].
        rewrite IHjs by (intros ?; apply Hnot, elem_of_cons; now right).
        rewrite !nth_lookup, list_lookup_insert_ne; [reflexivity|].
        intros ->. apply Hnot, elem_of_cons. now left. }
      rewrite E. reflexivity.
    + rewrite length_insert. exact Hjs.
    + intros i u Hi Hni. destruct (decide (i = j)) as [->|Nij].
      * rewrite list_lookup_insert_eq in Hi by exact Hj.
        apply Some_inj in Hi. now subst u.
      * rewrite list_lookup_insert_ne in Hi by congruence.
        apply (Hz i u Hi). rewrite elem_of_cons. tauto.
Qed.

End Products.

Section Operator.

Variables sin_deg cos_deg : Q -> Q.
Variable geoid_inv_azimuth : Q -> Q -> Q -> Q -> Q.

Let block := slip_rate_matrix sin_deg cos_deg geoid_inv_azimuth.
Let partials := get_fault_slip_rate_partials sin_deg cos_deg geoid_inv_azimuth.

Lemma zeros_shape (n m : nat) :
  length (zeros n m) = n
  /\ Forall (fun row => length row = m) (zeros n m).
Proof.
  unfold zeros. split; [apply length_replicate|].
  apply Forall_replicate, length_replicate.
Qed.

(** With every label a block index, the operator is built. *)
Lemma get_fault_slip_rate_partials_total (segment : list segment_row)
    (n_blocks : nat) :
  Forall (fun s => (0 <= east_labels s < Z.of_nat n_blocks)%Z
                   /\ (0 <= west_labels s < Z.of_nat n_blocks)%Z) segment ->
  is_Some (partials segment n_blocks).
Proof.
  intros H. unfold partials, get_fault_slip_rate_partials. cbv zeta.
  destruct (zeros_shape (3 * length segment) (3 * n_blocks)) as [L W].
  apply (loop_total _ _ _ segment n_blocks H); [lia | exact W].
Qed.

(** C7: for a segment [i] whose east and west labels are two different
    block indices, rows 3i..3i+2 of the operator hold the segment's 3x3
    block in the columns of the east block, its negation in the columns
    of the west block and zero elsewhere; hence the product of such a
    row with a vector of block rotations is the block applied to the
    difference of the east and west rotation vectors. *)
Theorem fault_slip_rate_partials_rows (segment : list segment_row)
    (n_blocks : nat) (op : matrix) (i : nat) (s : segment_row) (e w a : nat) :
  partials segment n_blocks = Some op ->
  segment !! i = Some s ->
  east_labels s = Z.of_nat e -> west_labels s = Z.of_nat w ->
  e < n_blocks -> w < n_blocks -> e <> w -> a < 3 ->
    (forall b, b < 3 ->
       entry op (3 * i + a) (3 * e + b) = Some (at3 (block s) a b))
    /\ (forall b, b < 3 ->
          entry op (3 * i + a) (3 * w + b) = Some (- at3 (block s) a b)%Q)
    /\ (forall col, col < 3 * n_blocks ->
          ~ (3 * e <= col < 3 * e + 3) -> ~ (3 * w <= col < 3 * w + 3) ->
          entry op (3 * i + a) col = Some 0%Q)
    /\ (forall omega : list Q,
          exists row,
            op !! (3 * i + a) = Some row
            /\ (Np.dot_aux row omega
                == at3 (block s) a 0 * (nth (3 * e) omega 0 - nth (3 * w) omega 0)
                   + at3 (block s) a 1
                     * (nth (3 * e + 1) omega 0 - nth (3 * w + 1) omega 0)
                   + at3 (block s) a 2
                     * (nth (3 * e + 2) omega 0 - nth (3 * w + 2) omega 0))%Q).
Proof.
  intros Hop Hi He Hw Le Lw Ne Ha.
  unfold partials, get_fault_slip_rate_partials in Hop. cbv zeta in Hop.
  destruct (zeros_shape (3 * length segment) (3 * n_blocks)) as [L W].
  pose proof (lookup_lt_Some _ _ _ Hi) as Li.
  assert (Rows : forall col, col < 3 * n_blocks ->
            entry op (3 * i + a) col
            = Some (if (3 * e <=? col) && (col <? 3 * e + 3)
                    then at3 (block s) a (col - 3 * e)
                    else if (3 * w <=? col) && (col <? 3 * w + 3)
                         then (- at3 (block s) a (col - 3 * w))%Q
                         else 0%Q)).
  { intros col Hcol.
    apply (loop_segment_rows sin_deg cos_deg geoid_inv_azimuth segment 0
             (zeros (3 * length segment) (3 * n_blocks)) op i s e w n_blocks);
      try assumption; try lia.
    intros r c' Hr Hc'. apply entry_zeros; lia. }
  assert (East : forall b, b < 3 ->
            entry op (3 * i + a) (3 * e + b) = Some (at3 (block s) a b)).
  { intros b Hb. rewrite Rows by lia.
    destruct (Nat.leb_spec (3 * e) (3 * e + b)); [|lia].
    destruct (Nat.ltb_spec (3 * e + b) (3 * e + 3)); [|lia].
    cbn [andb]. now replace (3 * e + b - 3 * e) with b by lia. }
  assert (West : forall b, b < 3 ->
            entry op (3 * i + a) (3 * w + b) = Some (- at3 (block s) a b)%Q).
  { intros b Hb. rewrite Rows by lia.
    assert (C1 : (3 * e <=? 3 * w + b) && (3 * w + b <? 3 * e + 3) = false)
      by (apply andb_false_iff; rewrite Nat.leb_gt, Nat.ltb_ge; lia).
    assert (C2 : (3 * w <=? 3 * w + b) && (3 * w + b <? 3 * w + 3) = true)
      by (apply andb_true_intro; rewrite Nat.leb_le, Nat.ltb_lt; lia).
    rewrite C1, C2. now replace (3 * w + b - 3 * w) with b by lia. }
  assert (Zero : forall col, col < 3 * n_blocks ->
            ~ (3 * e <= col < 3 * e + 3) -> ~ (3 * w <= col < 3 * w + 3) ->
            entry op (3 * i + a) col = Some 0%Q).
  { intros col Hcol N1 N2. rewrite Rows by lia.
    destruct (Nat.leb_spec (3 * e) col); destruct (Nat.ltb_spec col (3 * e + 3));
      destruct (Nat.leb_spec (3 * w) col); destruct (Nat.ltb_spec col (3 * w + 3));
      cbn [andb]; try lia; reflexivity. }
  split; [exact East|]. split; [exact West|]. split; [exact Zero|].
  intros omega.
  destruct (loop_frame sin_deg cos_deg geoid_inv_azimuth segment 0
              (zeros (3 * length segment) (3 * n_blocks)) op
              (3 * n_blocks) ltac:(lia) W Hop) as (Lop & Wop & _).
  destruct (lookup_lt_is_Some_2 op (3 * i + a) ltac:(lia)) as [row Hrow].
  pose proof (Forall_lookup_1 _ _ _ _ Wop Hrow) as Lrow. cbv beta in Lrow.
  assert (Ent : forall col, entry op (3 * i + a) col = row !! col).
  { intros col. unfold entry. now rewrite Hrow. }
  exists row. split; [exact Hrow|].
  rewrite (dot_aux_support
             [3 * e; 3 * e + 1; 3 * e + 2; 3 * w; 3 * w + 1; 3 * w + 2]).
  - cbn [foldr].
    pose proof (East 0 ltac:(lia)) as E0. pose proof (East 1 ltac:(lia)) as E1.
    pose proof (East 2 ltac:(lia)) as E2.
    pose proof (West 0 ltac:(lia)) as W0. pose proof (West 1 ltac:(lia)) as W1.
    pose proof (West 2 ltac:(lia)) as W2.
    rewrite Ent in E0, E1, E2, W0, W1, W2.
    rewrite Nat.add_0_r in E0, W0.
    rewrite (nth_lookup_Some _ _ _ _ E0), (nth_lookup_Some _ _ _ _ E1),
      (nth_lookup_Some _ _ _ _ E2), (nth_lookup_Some _ _ _ _ W0),
      (nth_lookup_Some _ _ _ _ W1), (nth_lookup_Some _ _ _ _ W2).
    ring.
  - repeat (apply NoDup_cons; split;
            [rewrite ?elem_of_cons, elem_of_nil; lia|]).
    apply NoDup_nil_2.
  - repeat (apply Forall_cons; split; [lia|]). apply Forall_nil_2.
  - intros j v Hj Hnot. rewrite <- Ent in Hj.
    pose proof (lookup_lt_Some _ _ _ (eq_trans (eq_sym (Ent j)) Hj)) as Lj.
    rewrite !elem_of_cons, elem_of_nil in Hnot.
    rewrite Zero in Hj by lia. apply Some_inj in Hj. now subst v.
Qed.

End Operator.

Lemma fault_slip_rate_partials_rows_witness :
    (forall b, b < 3 ->
       entry sample_operator (3 * 0 + 1) (3 * 1 + b)
       = Some (at3 (slip_rate_matrix sample_sin sample_cos sample_azimuth
                      (SegmentRow 1 0 1 2 3 10 20 10 20 11 21 90)) 1 b))
    /\ (forall b, b < 3 ->
          entry sample_operator (3 * 0 + 1) (3 * 0 + b)
          = Some (- at3 (slip_rate_matrix sample_sin sample_cos sample_azimuth
                           (SegmentRow 1 0 1 2 3 10 20 10 20 11 21 90)) 1 b)%Q)
    /\ (forall col, col < 3 * 3 ->
          ~ (3 * 1 <= col < 3 * 1 + 3) -> ~ (3 * 0 <= col < 3 * 0 + 3) ->
          entry sample_operator (3 * 0 + 1) col = Some 0%Q)
    /\ (forall omega : list Q,
          exists row,
            sample_operator !! (3 * 0 + 1) = Some row
            /\ (Np.dot_aux row omega
                == at3 (slip_rate_matrix sample_sin sample_cos sample_azimuth
                          (SegmentRow 1 0 1 2 3 10 20 10 20 11 21 90)) 1 0
                   * (nth (3 * 1) omega 0 - nth (3 * 0) omega 0)
                   + at3 (slip_rate_matrix sample_sin sample_cos sample_azimuth
                            (SegmentRow 1 0 1 2 3 10 20 10 20 11 21 90)) 1 1
                     * (nth (3 * 1 + 1) omega 0 - nth (3 * 0 + 1) omega 0)
                   + at3 (slip_rate_matrix sample_sin sample_cos sample_azimuth
                            (SegmentRow 1 0 1 2 3 10 20 10 20 11 21 90)) 1 2
                     * (nth (3 * 1 + 2) omega 0 - nth (3 * 0 + 2) omega 0))%Q).
Proof.
  apply (fault_slip_rate_partials_rows sample_sin sample_cos sample_azimuth
           sample_rows 3 sample_operator 0
           (SegmentRow 1 0 1 2 3 10 20 10 20 11 21 90) 1 0 1);
    [vm_compute; reflexivity | reflexivity | reflexivity | reflexivity
    | lia | lia | lia | lia].
Defined.

(** The unresolved-side label -1 selects an empty column slice, so the
    block assignment cannot broadcast and the call raises. *)
Example get_fault_slip_rate_partials_sentinel :
  get_fault_slip_rate_partials sample_sin sample_cos sample_azimuth
    [SegmentRow (-1) 0 1 2 3 10 20 10 20 11 21 90%Q] 3 = None.
Proof. reflexivity. Qed.

End SlipRateFacts.

(** ** The tracer on a single closed loop *)

Module LoopFacts.
Import HalfEdges.

Local Open Scope nat_scope.

Lemma nxt_lt (n j : nat) : j < n -> nxt n j < n.
Proof. unfold nxt. destruct (Nat.eqb_spec (S j) n); lia. Qed.

Lemma prv_lt (n j : nat) : j < n -> prv n j < n.
Proof. unfold prv. destruct (Nat.eqb_spec j 0); lia. Qed.

Lemma prv_nxt (n j : nat) : j < n -> prv n (nxt n j) = j.
Proof.
  unfold prv, nxt. intros H.
  destruct (Nat.eqb_spec (S j) n) as [E|E].
  - cbn. lia.
  - cbn. reflexivity.
Qed.

Lemma nxt_prv (n j : nat) : j < n -> nxt n (prv n j) = j.
Proof.
  unfold prv, nxt. intros H.
  destruct (Nat.eqb_spec j 0) as [E|E].
  - destruct (Nat.eqb_spec (S (Nat.pred n)) n); lia.
  - destruct (Nat.eqb_spec (S (Nat.pred j)) n); lia.
Qed.

Lemma nxt_ne (n j : nat) : 2 <= n -> j < n -> nxt n j <> j.
Proof. unfold nxt. destruct (Nat.eqb_spec (S j) n); lia. Qed.

Lemma nxt_nxt_ne (n j : nat) : 3 <= n -> j < n -> nxt n (nxt n j) <> j.
Proof.
  unfold nxt. intros H3 H.
  destruct (Nat.eqb_spec (S j) n); [destruct (Nat.eqb_spec 1 n); lia|].
  destruct (Nat.eqb_spec (S (S j)) n); lia.
Qed.

Lemma loop_pos_0 (n : nat) (d : bool) (j0 : nat) :
  j0 < n -> loop_pos n d j0 0 = j0.
Proof.
  intros H. unfold loop_pos. destruct d.
  - destruct (Nat.ltb_spec (j0 + 0) n); lia.
  - destruct (Nat.leb_spec 0 j0); lia.
Qed.

Lemma loop_pos_lt (n : nat) (d : bool) (j0 k : nat) :
  j0 < n -> k <= n -> loop_pos n d j0 k < n.
Proof.
  intros H Hk. unfold loop_pos. destruct d.
  - destruct (Nat.ltb_spec (j0 + k) n); lia.
  - destruct (Nat.leb_spec k j0); lia.
Qed.

Lemma loop_pos_S (n : nat) (d : bool) (j0 k : nat) :
  j0 < n -> k < n ->
  loop_pos n d j0 (S k)
  = if d then nxt n (loop_pos n d j0 k) else prv n (loop_pos n d j0 k).
Proof.
  intros H Hk. unfold loop_pos, nxt, prv. destruct d.
  - destruct (Nat.ltb_spec (j0 + S k) n); destruct (Nat.ltb_spec (j0 + k) n);
      try lia.
    + destruct (Nat.eqb_spec (S (j0 + k)) n); lia.
    + destruct (Nat.eqb_spec (S (j0 + k)) n); lia.
    + destruct (Nat.eqb_spec (S (j0 + k - n)) n); lia.
  - destruct (Nat.leb_spec (S k) j0); destruct (Nat.leb_spec k j0); try lia.
    + destruct (Nat.eqb_spec (j0 - k) 0); lia.
    + destruct (Nat.eqb_spec (j0 - k) 0); lia.
    + destruct (Nat.eqb_spec (j0 + n - k) 0); lia.
Qed.

(** The walk is back at its start after [n] steps and not before. *)
Lemma loop_pos_start (n : nat) (d : bool) (j0 k : nat) :
  j0 < n -> 0 < k <= n -> (loop_pos n d j0 k = j0 <-> k = n).
Proof.
  intros H Hk. unfold loop_pos. destruct d.
  - destruct (Nat.ltb_spec (j0 + k) n); lia.
  - destruct (Nat.leb_spec k j0); lia.
Qed.

(** Every position is reached within [n] steps. *)
Lemma loop_pos_reaches (n : nat) (d : bool) (j0 j : nat) :
  j0 < n -> j < n -> exists k, k < n /\ loop_pos n d j0 k = j.
Proof.
  intros H Hj. unfold loop_pos. destruct d.
  - destruct (Nat.le_gt_cases j0 j).
    + exists (j - j0). split; [lia|]. destruct (Nat.ltb_spec (j0 + (j - j0)) n); lia.
    + exists (j + n - j0). split; [lia|].
      destruct (Nat.ltb_spec (j0 + (j + n - j0)) n); lia.
  - destruct (Nat.le_gt_cases j j0).
    + exists (j0 - j). split; [lia|]. destruct (Nat.leb_spec (j0 - j) j0); lia.
    + exists (j0 + n - j). split; [lia|].
      destruct (Nat.leb_spec (j0 + n - j) j0); lia.
Qed.

(** A duplicate-free list with exactly two members. *)
Lemma two_members (l : list nat) (a b : nat) :
  NoDup l -> a <> b -> (forall x, x ∈ l <-> x = a \/ x = b) ->
  l = [a; b] \/ l = [b; a].
Proof.
  intros ND Hab H.
  destruct l as [|x l]; [exfalso; apply (not_elem_of_nil a), H; now left|].
  destruct l as [|y l].
  { exfalso. assert (Ha : a ∈ [x]) by (apply H; now left).
    assert (Hb : b ∈ [x]) by (apply H; now right).
    rewrite list_elem_of_singleton in Ha, Hb. congruence. }
  destruct l as [|z l].
  - apply NoDup_cons in ND as [Hx _]. rewrite list_elem_of_singleton in Hx.
    assert (Hx' : x = a \/ x = b) by (apply H, elem_of_cons; now left).
    assert (Hy' : y = a \/ y = b)
      by (apply H, elem_of_cons; right; apply elem_of_cons; now left).
    destruct Hx' as [-> | ->], Hy' as [-> | ->]; try congruence; auto.
  - exfalso.
    apply NoDup_cons in ND as [Hx ND]. apply NoDup_cons in ND as [Hy ND].
    apply NoDup_cons in ND as [Hz _].
    rewrite !elem_of_cons in Hx. rewrite elem_of_cons in Hy.
    assert (Hx' : x = a \/ x = b) by (apply H, elem_of_cons; now left).
    assert (Hy' : y = a \/ y = b)
      by (apply H; rewrite !elem_of_cons; tauto).
    assert (Hz' : z = a \/ z = b)
      by (apply H; rewrite !elem_of_cons; tauto).
    destruct Hx' as [-> | ->], Hy' as [-> | ->], Hz' as [-> | ->]; tauto.
Qed.

Lemma successor_pair (a b : nat) (l : list nat) :
  a <> b -> l = [a; b] \/ l = [b; a] -> successor a l = b.
Proof.
  intros Hab [-> | ->]; unfold successor; cbn [after head].
  - rewrite Nat.eqb_refl. reflexivity.
  - destruct (Nat.eqb_spec b a); [congruence|].
    rewrite Nat.eqb_refl. reflexivity.
Qed.

Lemma div2_bit (i b : nat) : b < 2 -> (2 * i + b) / 2 = i.
Proof. intros H. symmetry. apply (Nat.div_unique _ 2 i b); lia. Qed.

Lemma even_bit (i b : nat) : Nat.even (2 * i + b) = Nat.even b.
Proof.
  rewrite Nat.even_add, Nat.even_mul. cbn. now destruct (Nat.even b).
Qed.

Lemma twin_bit (i : nat) (b : bool) :
  twin (2 * i + (if b then 1 else 0)) = 2 * i + (if b then 0 else 1).
Proof.
  unfold twin. rewrite even_bit. destruct b; cbn [Nat.even]; lia.
Qed.

Section Loop.

Variable by_angle : nat -> list nat -> list nat.
Variables (vs : list nat) (flips : list bool) (segment : list (nat * nat)).
Variables f g : nat -> nat.

Let n := length vs.
Let V := vertex_at vs.
Let he := half_edge_at g flips.

Hypothesis by_angle_perm : forall v l, by_angle v l ≡ₚ l.
Hypothesis vs_distinct : NoDup vs.
Hypothesis at_least_3 : 3 <= n.
Hypothesis segment_length : length segment = n.
Hypothesis segment_at : forall i, i < n ->
  f i < n
  /\ segment !! i
     = Some (orient (flipped flips (f i)) (V (f i), V (nxt n (f i)))).
Hypothesis g_inverse : forall j, j < n -> g j < n /\ f (g j) = j.
Hypothesis f_inverse : forall i, i < n -> g (f i) = i.

Lemma V_inj (j j' : nat) : j < n -> j' < n -> V j = V j' -> j = j'.
Proof.
  intros Hj Hj' E. unfold V, vertex_at in E.
  destruct (lookup_lt_is_Some_2 vs j Hj) as [x Hx].
  destruct (lookup_lt_is_Some_2 vs j' Hj') as [y Hy].
  rewrite Hx, Hy in E. cbn in E. subst y.
  exact (NoDup_lookup _ _ _ _ vs_distinct Hx Hy).
Qed.

Lemma he_lt (j : nat) (d : bool) : j < n -> he j d < 2 * n.
Proof.
  intros Hj. unfold he, half_edge_at.
  destruct (g_inverse j Hj) as [Hg _]. destruct (Bool.eqb _ _); lia.
Qed.

Lemma origin_he (j : nat) (d : bool) :
  j < n -> origin segment (he j d) = if d then V j else V (nxt n j).
Proof.
  intros Hj. unfold origin, he, half_edge_at.
  destruct (g_inverse j Hj) as [Hg Hfg].
  destruct (segment_at (g j) Hg) as [_ Hs]. rewrite Hfg in Hs.
  rewrite div2_bit by (destruct (Bool.eqb _ _); lia).
  rewrite Hs, even_bit.
  destruct d, (flipped flips j); reflexivity.
Qed.

Lemma twin_he (j : nat) (d : bool) : twin (he j d) = he j (negb d).
Proof.
  unfold he, half_edge_at. rewrite twin_bit.
  destruct d, (flipped flips j); reflexivity.
Qed.

Lemma destination_he (j : nat) (d : bool) :
  j < n -> destination segment (he j d) = if d then V (nxt n j) else V j.
Proof.
  intros Hj. unfold destination. rewrite twin_he, origin_he by exact Hj.
  now destruct d.
Qed.

(** Every half-edge runs along or against the loop at some position. *)
Lemma he_surj (h : nat) :
  h < 2 * n -> exists j d, j < n /\ h = he j d.
Proof.
  intros Hh.
  assert (Hi : h / 2 < n) by (apply Nat.Div0.div_lt_upper_bound; lia).
  destruct (segment_at (h / 2) Hi) as [Hf _].
  exists (f (h / 2)),
    (if Nat.even h then negb (flipped flips (f (h / 2)))
     else flipped flips (f (h / 2))).
  split; [exact Hf|].
  unfold he, half_edge_at. rewrite (f_inverse _ Hi).
  pose proof (Nat.div_mod_eq h 2) as E.
  assert (Hm : h mod 2 = if Nat.even h then 0 else 1).
  { destruct (Nat.even h) eqn:Ev.
    - apply Nat.even_spec in Ev as [k ->].
      now rewrite Nat.mul_comm, Nat.Div0.mod_mul.
    - rewrite <- Nat.negb_odd in Ev. apply negb_false_iff in Ev.
      apply Nat.odd_spec in Ev as [k ->].
      rewrite Nat.add_comm, Nat.mul_comm, Nat.Div0.mod_add. reflexivity. }
  destruct (Nat.even h), (flipped flips (f (h / 2))); cbn [negb Bool.eqb]; lia.
Qed.

Lemma he_inj (j j' : nat) (d d' : bool) :
  j < n -> j' < n -> he j d = he j' d' -> j = j' /\ d = d'.
Proof.
  intros Hj Hj' E. unfold he, half_edge_at in E.
  assert (Eg : g j = g j')
    by (destruct (Bool.eqb d _), (Bool.eqb d' _); lia).
  assert (Ej : j = j').
  { destruct (g_inverse j Hj) as [_ <-]. destruct (g_inverse j' Hj') as [_ <-].
    now rewrite Eg. }
  subst j'. split; [reflexivity|].
  destruct d, d', (flipped flips j); cbn [Bool.eqb] in E; try reflexivity; lia.
Qed.

Lemma origin_he_at (j j' : nat) (d' : bool) :
  j < n -> j' < n ->
  (origin segment (he j' d') = V j
   <-> (d' = true /\ j' = j) \/ (d' = false /\ j' = prv n j)).
Proof.
  intros Hj Hj'. rewrite origin_he by exact Hj'. destruct d'.
  - split.
    + intros E. left. split; [reflexivity|]. now apply V_inj.
    + intros [[_ ->] | [E _]]; [reflexivity | discriminate].
  - split.
    + intros E. right. split; [reflexivity|].
      apply V_inj in E; [| now apply nxt_lt | exact Hj].
      rewrite <- E. symmetry. now apply prv_nxt.
    + intros [[E _] | [_ ->]]; [discriminate|]. now rewrite nxt_prv.
Qed.

(** Two half-edges leave the vertex at position [j]: the one along the
    loop on the segment that starts there and the one against the loop on
    the segment that ends there. *)
Lemma outgoing_at (j : nat) :
  j < n ->
  outgoing by_angle segment (V j) = [he j true; he (prv n j) false]
  \/ outgoing by_angle segment (V j) = [he (prv n j) false; he j true].
Proof.
  intros Hj. pose proof (prv_lt n j Hj) as Hp.
  unfold outgoing, n_half_edges. rewrite segment_length.
  apply two_members.
  - rewrite by_angle_perm. apply NoDup_filter, NoDup_seq.
  - intros E. apply he_inj in E as [_ E]; [discriminate | exact Hj | exact Hp].
  - intros x. rewrite by_angle_perm, list_elem_of_filter, elem_of_seq. split.
    + intros [Ho Hx]. destruct (he_surj x ltac:(lia)) as (j' & d' & Hj' & ->).
      apply origin_he_at in Ho as [[-> ->] | [-> ->]]; auto.
    + intros [-> | ->].
      * split; [apply origin_he_at; auto | pose proof (he_lt j true Hj); lia].
      * split; [apply origin_he_at; auto | pose proof (he_lt _ false Hp); lia].
Qed.

(** On a loop the continuation of a half-edge does not depend on the
    angular order: it is the half-edge of the same direction one position
    further. *)
Lemma next_he (j : nat) (d : bool) :
  j < n ->
  next by_angle segment (he j d) = he (if d then nxt n j else prv n j) d.
Proof.
  intros Hj. unfold next. rewrite twin_he, destination_he by exact Hj.
  destruct d; cbn [negb].
  - pose proof (nxt_lt n j Hj) as Hn.
    destruct (outgoing_at (nxt n j) Hn) as [E | E]; rewrite E;
      rewrite prv_nxt by exact Hj; apply successor_pair; try tauto;
      intros X; apply he_inj in X as [_ X]; auto; discriminate.
  - pose proof (prv_lt n j Hj) as Hp.
    destruct (outgoing_at j Hj) as [E | E]; rewrite E;
      apply successor_pair; try tauto;
      intros X; apply he_inj in X as [_ X]; auto; discriminate.
Qed.

Lemma degree_at (j : nat) :
  j < n -> length (outgoing by_angle segment (V j)) = 2.
Proof. intros Hj. now destruct (outgoing_at j Hj) as [-> | ->]. Qed.

Lemma dangling_he (j : nat) (d : bool) :
  j < n -> dangling by_angle segment (he j d) = false.
Proof.
  intros Hj. pose proof (nxt_lt n j Hj) as Hn. unfold dangling.
  rewrite destination_he, origin_he by exact Hj.
  destruct d; now rewrite !degree_at.
Qed.

(** The walk started at position [j0], seen after [k] steps. *)
Lemma walk_loop (d : bool) (j0 : nat) (fuel : nat) :
  j0 < n ->
  forall k, k < n -> n - k <= fuel ->
    walk by_angle segment fuel (he j0 d) (he (loop_pos n d j0 k) d)
    = Some (map (fun k' => he (loop_pos n d j0 k') d) (seq k (n - k))).
Proof.
  intros Hj0. induction fuel as [|fuel IH]; intros k Hk Hf; [lia|].
  pose proof (loop_pos_lt n d j0 k Hj0 ltac:(lia)) as Hp.
  cbn [walk]. rewrite dangling_he, next_he by exact Hp.
  rewrite <- (loop_pos_S n d j0 k Hj0 Hk).
  destruct (Nat.eqb_spec (he (loop_pos n d j0 (S k)) d) (he j0 d)) as [E | E].
  - apply he_inj in E as [E _];
      [| apply loop_pos_lt; [exact Hj0 | lia] | exact Hj0].
    apply loop_pos_start in E; [|exact Hj0 | lia].
    replace (n - k) with 1 by lia. reflexivity.
  - assert (Hk' : S k < n).
    { destruct (Nat.eq_dec (S k) n) as [E' | E']; [|lia].
      exfalso. apply E. f_equal. apply loop_pos_start; [exact Hj0 | lia | exact E']. }
    rewrite (IH (S k) Hk' ltac:(lia)). cbn [mbind option_bind].
    replace (n - k) with (S (n - S k)) by lia. reflexivity.
Qed.

Lemma walk_polygon (d : bool) (j0 : nat) :
  j0 < n ->
  walk by_angle segment (2 * n) (he j0 d) (he j0 d)
  = Some (loop_polygon g flips n d j0).
Proof.
  intros Hj0.
  pose proof (walk_loop d j0 (2 * n) Hj0 0 ltac:(lia) ltac:(lia)) as W.
  rewrite loop_pos_0, Nat.sub_0_r in W by exact Hj0. exact W.
Qed.

(** The polygon of a direction holds exactly the half-edges of that
    direction. *)
Lemma elem_of_loop_polygon (d : bool) (j0 : nat) (h : nat) :
  j0 < n ->
  (h ∈ loop_polygon g flips n d j0 <-> exists j, j < n /\ h = he j d).
Proof.
  intros Hj0. unfold loop_polygon. rewrite list_elem_of_fmap. split.
  - intros (k & -> & Hk). apply elem_of_seq in Hk.
    eexists. split; [|reflexivity]. apply loop_pos_lt; [exact Hj0 | lia].
  - intros (j & Hj & ->).
    destruct (loop_pos_reaches n d j0 j Hj0 Hj) as (k & Hk & <-).
    exists k. split; [reflexivity|]. apply elem_of_seq. lia.
Qed.

Lemma trace_from_seen (st : traced) (h : nat) :
  h ∈ concat (polygons st) ->
  trace_from by_angle segment st h = st.
Proof.
  intros H. unfold trace_from. rewrite bool_decide_eq_true_2; [reflexivity|].
  now left.
Qed.

Lemma trace_from_new (ps : list (list nat)) (j : nat) (d : bool) :
  j < n -> he j d ∉ concat ps ->
  trace_from by_angle segment (Traced ps []) (he j d)
  = Traced (ps ++ [loop_polygon g flips n d j]) [].
Proof.
  intros Hj H. unfold trace_from. cbn [polygons unresolved].
  rewrite bool_decide_eq_false_2.
  - unfold n_half_edges. rewrite segment_length.
    fold n. fold he. now rewrite walk_polygon.
  - intros [X | X]; [contradiction | now apply elem_of_nil in X].
Qed.

(** The tracer on a loop: the half-edges 0 and 1 start the two polygons,
    one for each direction, and every other half-edge is found visited. *)
Lemma run_block_closure_loop :
  exists j0 d0,
    j0 < n
    /\ run_block_closure by_angle segment
       = Traced [loop_polygon g flips n d0 j0;
                 loop_polygon g flips n (negb d0) j0] [].
Proof.
  destruct (he_surj 0 ltac:(lia)) as (j0 & d0 & Hj0 & E0).
  assert (E1 : 1 = he j0 (negb d0)).
  { rewrite <- twin_he, <- E0. reflexivity. }
  exists j0, d0. split; [exact Hj0|].
  unfold run_block_closure, n_half_edges. rewrite segment_length. fold n.
  replace (2 * n) with (2 + (2 * n - 2)) by lia.
  rewrite seq_app, foldl_app. cbn [seq foldl].
  rewrite E0 at 1. rewrite (trace_from_new [] j0 d0 Hj0)
    by (cbn; apply not_elem_of_nil).
  cbn [app]. rewrite E1 at 1.
  rewrite (trace_from_new [_] j0 (negb d0) Hj0).
  2:{ cbn [concat]. rewrite app_nil_r, elem_of_loop_polygon by exact Hj0.
      intros (j & Hj & X). apply he_inj in X as [_ X]; [|exact Hj0 | exact Hj].
      now destruct d0. }
  cbn [app].
  set (st := Traced _ _).
  assert (Hall : forall l : list nat,
            Forall (fun h => h < 2 * n) l ->
            foldl (trace_from by_angle segment) st l = st).
  { induction l as [|h l IHl]; intros Hl; [reflexivity|].
    apply Forall_cons in Hl as [Hh Hl]. cbn [foldl].
    rewrite trace_from_seen; [now apply IHl|].
    unfold st. cbn [polygons concat]. rewrite app_nil_r, elem_of_app.
    rewrite !elem_of_loop_polygon by exact Hj0.
    destruct (he_surj h Hh) as (j & d & Hj & ->).
    destruct (Bool.bool_dec d d0) as [-> | Hd]; [left | right]; exists j;
      (split; [exact Hj|]); [reflexivity|].
    f_equal. destruct d, d0; cbn; congruence. }
  apply Hall. apply Forall_forall. intros h Hh. apply elem_of_seq in Hh. lia.
Qed.

End Loop.

Lemma loop_edges_lookup (vs : list nat) (flips : list bool) (j : nat) :
  2 <= length vs -> length flips = length vs -> j < length vs ->
  zip_with orient flips (loop_edges vs) !! j
  = Some (orient (flipped flips j)
            (vertex_at vs j, vertex_at vs (nxt (length vs) j))).
Proof.
  intros H2 Hf Hj. unfold loop_edges, flipped, vertex_at.
  rewrite !lookup_zip_with.
  destruct (lookup_lt_is_Some_2 flips j ltac:(lia)) as [b ->].
  destruct (lookup_lt_is_Some_2 vs j Hj) as [x Hx]. rewrite Hx.
  rewrite lookup_rotate_r by exact Hj.
  rewrite rotate_nat_add_alt by lia.
  assert (E : (if decide (1 + j < length vs) then 1 + j
               else 1 + j - length vs) = nxt (length vs) j).
  { unfold nxt. destruct (decide (1 + j < length vs));
      destruct (Nat.eqb_spec (S j) (length vs)); lia. }
  rewrite E.
  destruct (lookup_lt_is_Some_2 vs (nxt (length vs) j)
              (nxt_lt _ _ Hj)) as [y ->].
  reflexivity.
Qed.

Lemma length_loop_edges (vs : list nat) (flips : list bool) :
  length flips = length vs ->
  length (zip_with orient flips (loop_edges vs)) = length vs.
Proof.
  intros H. unfold loop_edges.
  rewrite !length_zip_with, length_rotate. lia.
Qed.

(** The segments of a loop of at least three vertices are pairwise
    different, whichever way each of them is stored. *)
Lemma loop_edges_distinct (vs : list nat) (flips : list bool) :
  NoDup vs -> 3 <= length vs -> length flips = length vs ->
  NoDup (zip_with orient flips (loop_edges vs)).
Proof.
  intros ND H3 Hf. apply NoDup_alt. intros i j x Hi Hj.
  pose proof (lookup_lt_Some _ _ _ Hi) as Li.
  pose proof (lookup_lt_Some _ _ _ Hj) as Lj.
  rewrite length_loop_edges in Li, Lj by exact Hf.
  rewrite loop_edges_lookup in Hi, Hj by lia.
  rewrite <- Hj in Hi. apply Some_inj in Hi.
  pose proof (nxt_lt _ _ Li) as Ni. pose proof (nxt_lt _ _ Lj) as Nj.
  unfold orient in Hi.
  destruct (flipped flips i), (flipped flips j); cbn [fst snd] in Hi;
    injection Hi as E1 E2.
  - now apply (V_inj vs ND) in E2.
  - apply (V_inj vs ND) in E1, E2; try assumption.
    exfalso. apply (nxt_nxt_ne (length vs) j H3 Lj). congruence.
  - apply (V_inj vs ND) in E1, E2; try assumption.
    exfalso. apply (nxt_nxt_ne (length vs) i H3 Li). congruence.
  - now apply (V_inj vs ND) in E1.
Qed.

Lemma argmax_from_bound (l : list Q) :
  forall (bi : nat) (b : Q) (i : nat),
    bi < i -> argmax_from bi b i l < i + length l.
Proof.
  induction l as [|a l IH]; intros bi b i H; cbn [argmax_from length]; [lia|].
  destruct (Qltb b a).
  - pose proof (IH i a (S i) ltac:(lia)). lia.
  - pose proof (IH bi b (S i) ltac:(lia)). lia.
Qed.

(** With polygons traced, one of them is the exterior block. *)
Lemma argmax_bound (l : list Q) (k : nat) :
  argmax l = Some k -> k < length l.
Proof.
  destruct l as [|a l]; [discriminate|]. cbn [argmax length].
  intros H. apply Some_inj in H. subst k.
  pose proof (argmax_from_bound l 0 a 1 ltac:(lia)). lia.
Qed.

Lemma argmax_nonempty (l : list Q) : l <> [] -> is_Some (argmax l).
Proof. destruct l; [congruence | now eexists]. Qed.

Lemma elem_of_concat (x : nat) (ls : list (list nat)) :
  x ∈ concat ls <-> exists l, x ∈ l /\ l ∈ ls.
Proof.
  rewrite list_elem_of_In, in_concat. split.
  - intros (l & Hl & Hx). exists l. now rewrite !list_elem_of_In.
  - intros (l & Hx & Hl). exists l. now rewrite <- !list_elem_of_In.
Qed.

(** A side has the negative sentinel exactly when its half-edge is on no
    traced polygon. *)
Lemma side_label_negative (t : traced) (h : nat) :
  (side_label t h < 0)%Z <-> h ∉ concat (polygons t).
Proof.
  unfold side_label.
  destruct (list_find (fun p => h ∈ p) (polygons t)) as [[k p]|] eqn:E.
  - apply list_find_Some in E as (Hk & Hp & _). split; [lia|].
    intros H. exfalso. apply H, elem_of_concat.
    exists p. split; [exact Hp|]. now apply list_elem_of_lookup_2 in Hk.
  - split; [intros _ | lia].
    intros H. apply elem_of_concat in H as (p & Hp & Hin).
    apply list_find_None in E. rewrite Forall_forall in E.
    exact (E p Hin Hp).
Qed.

(** C2: for a segment set that holds, in any order and each in either
    direction, the segments of one closed loop through at least three
    distinct vertices, and for any angular ordering rule, the tracer finds
    two polygons, of which one is the exterior block and exactly one is
    interior; no half-edge is left unresolved, and no segment receives a
    negative west or east label. *)
Theorem single_closed_loop_traced (by_angle : nat -> list nat -> list nat)
    (coord : nat -> Q * Q) (west_is_left : nat -> bool)
    (segment : list (nat * nat)) :
  (forall v l, by_angle v l ≡ₚ l) ->
  single_closed_loop segment ->
  length (interior_polygons coord segment (run_block_closure by_angle segment))
  = 1
  /\ unresolved (run_block_closure by_angle segment) = []
  /\ length (get_segment_labels west_is_left segment
               (run_block_closure by_angle segment)) = length segment
  /\ forall i w e,
       get_segment_labels west_is_left segment
         (run_block_closure by_angle segment) !! i = Some (w, e) ->
       (0 <= w)%Z /\ (0 <= e)%Z.
Proof.
  intros Hang (vs & flips & ND & H3 & Hf & Hperm).
  set (canon := zip_with orient flips (loop_edges vs)) in *.
  pose proof (length_loop_edges vs flips Hf) as Lc. fold canon in Lc.
  pose proof (loop_edges_distinct vs flips ND H3 Hf) as NDc. fold canon in NDc.
  assert (Ls : length segment = length vs)
    by (rewrite <- Lc; now apply Permutation_length).
  destruct (proj1 (Permutation_inj segment canon) Hperm)
    as (_ & f & Finj & Hfl).
  destruct (proj1 (Permutation_inj canon segment) (Permutation_sym Hperm))
    as (_ & g & _ & Hgl).
  assert (Fb : forall i, i < length vs -> f i < length vs).
  { intros i Hi. destruct (lookup_lt_is_Some_2 segment i ltac:(lia)) as [x Hx].
    rewrite Hfl in Hx. apply lookup_lt_Some in Hx. lia. }
  assert (Gb : forall j, j < length vs -> g j < length vs).
  { intros j Hj. destruct (lookup_lt_is_Some_2 canon j ltac:(lia)) as [x Hx].
    rewrite Hgl in Hx. apply lookup_lt_Some in Hx. lia. }
  assert (FG : forall j, j < length vs -> f (g j) = j).
  { intros j Hj. destruct (lookup_lt_is_Some_2 canon j ltac:(lia)) as [x Hx].
    pose proof Hx as Hx'. rewrite Hgl, Hfl in Hx'.
    exact (proj1 (NoDup_alt canon) NDc _ _ _ Hx' Hx). }
  assert (GF : forall i, i < length vs -> g (f i) = i).
  { intros i Hi. apply Finj. apply FG. now apply Fb. }
  assert (SegAt : forall i, i < length vs ->
            f i < length vs
            /\ segment !! i
               = Some (orient (flipped flips (f i))
                         (vertex_at vs (f i),
                          vertex_at vs (nxt (length vs) (f i))))).
  { intros i Hi. split; [now apply Fb|].
    rewrite Hfl. unfold canon. apply loop_edges_lookup; [lia | exact Hf|].
    now apply Fb. }
  destruct (run_block_closure_loop by_angle vs flips segment f g Hang ND H3 Ls
              SegAt (fun j Hj => conj (Gb j Hj) (FG j Hj)) GF)
    as (j0 & d0 & Hj0 & Run).
  rewrite Run.
  set (P0 := loop_polygon g flips (length vs) d0 j0).
  set (P1 := loop_polygon g flips (length vs) (negb d0) j0).
  split.
  { unfold interior_polygons, exterior. cbn [polygons].
    destruct (argmax_nonempty (map (area coord segment) [P0; P1]))
      as [k Hk]; [discriminate|].
    rewrite Hk. apply argmax_bound in Hk. cbn [map length] in Hk.
    rewrite length_delete; [reflexivity|].
    apply lookup_lt_is_Some. cbn [length]. lia. }
  split; [reflexivity|].
  split; [unfold get_segment_labels; now rewrite length_fmap, length_seq|].
  assert (Side : forall h, h < 2 * length vs ->
            (0 <= side_label (Traced [P0; P1] []) h)%Z).
  { intros h Hh. unfold side_label. cbn [polygons].
    assert (In01 : h ∈ P0 \/ h ∈ P1).
    { destruct (he_surj vs flips segment f g H3 Ls SegAt GF h Hh)
        as (j & d & Hj & ->).
      unfold P0, P1.
      rewrite !(elem_of_loop_polygon vs flips segment g H3 Ls) by exact Hj0.
      destruct (Bool.bool_dec d d0) as [-> | Hd]; [left | right]; exists j;
        (split; [exact Hj|]); [reflexivity|].
      f_equal. destruct d, d0; cbn; congruence. }
    assert (Some_found : is_Some (list_find (fun p => h ∈ p) [P0; P1])).
    { destruct In01 as [X | X].
      - apply (list_find_elem_of _ _ P0); [apply elem_of_cons; now left | exact X].
      - apply (list_find_elem_of _ _ P1);
          [apply elem_of_cons; right; apply elem_of_cons; now left | exact X]. }
    destruct Some_found as [[k p] ->]. lia. }
  intros i w e Hi. unfold get_segment_labels in Hi.
  rewrite list_lookup_fmap in Hi.
  destruct (seq 0 (length segment) !! i) as [i'|] eqn:Ei; [|discriminate].
  apply lookup_seq in Ei as [-> Ei]. cbn [fmap option_fmap option_map] in Hi.
  apply Some_inj in Hi. cbv zeta in Hi.
  pose proof (Side (2 * (0 + i)) ltac:(lia)) as S0.
  pose proof (Side (2 * (0 + i) + 1) ltac:(lia)) as S1.
  destruct (west_is_left (0 + i)); injection Hi as <- <-; auto.
Qed.

Lemma sample_loop_closed : single_closed_loop sample_loop.
Proof.
  exists [0; 1; 2], [false; true; true].
  split; [apply (bool_decide_unpack (NoDup [0; 1; 2])); vm_compute; exact I|].
  split; [cbn; lia|]. split; [reflexivity|].
  apply perm_swap.
Qed.

Lemma single_closed_loop_traced_witness :
  length (interior_polygons sample_coord sample_loop
            (run_block_closure sample_by_angle sample_loop)) = 1
  /\ unresolved (run_block_closure sample_by_angle sample_loop) = []
  /\ length (get_segment_labels Nat.even sample_loop
               (run_block_closure sample_by_angle sample_loop))
     = length sample_loop
  /\ forall i w e,
       get_segment_labels Nat.even sample_loop
         (run_block_closure sample_by_angle sample_loop) !! i = Some (w, e) ->
       (0 <= w)%Z /\ (0 <= e)%Z.
Proof.
  apply (single_closed_loop_traced sample_by_angle sample_coord Nat.even
           sample_loop);
    [intros v l; apply reverse_Permutation | exact sample_loop_closed].
Defined.

(** The sample triangle: two polygons of three half-edges each, labels 0
    and 1 on the two sides of every segment. *)
Example run_block_closure_sample :
  run_block_closure sample_by_angle sample_loop
  = Traced [[0; 3; 4]; [1; 5; 2]] []
  /\ get_segment_labels Nat.even sample_loop
       (run_block_closure sample_by_angle sample_loop)
     = [(0, 1); (0, 1); (0, 1)]%Z.
Proof. split; reflexivity. Qed.

(** A segment that ends nowhere is reported, and the loop it hangs on is
    still traced on its inner side. *)
Example run_block_closure_dangling :
  run_block_closure (fun _ l => l) [(0, 1); (1, 2); (2, 0); (2, 3)]
  = Traced [[0; 2; 4]] [1; 3; 5; 6; 7].
Proof. reflexivity. Qed.

End LoopFacts.

(** ** More on [polygon_area] *)

Section PolygonAreaMore.

Local Open Scope Q_scope.

(** A vertex moved by [(dx, dy)]. *)
Let shift (dx dy : Q) (p : Q * Q) : Q * Q := (dx + fst p, dy + snd p).

Lemma chain_shift (dx dy : Q) (l : list (Q * Q)) :
  forall p : Q * Q,
    chain (shift dx dy p) (shift dx dy <$> l)
    == chain p l + dy * (fst (List.last l p) - fst p)
       - dx * (snd (List.last l p) - snd p).
Proof.
  induction l as [|q l IH]; intros p.
  - cbn [fmap list_fmap chain List.last]. ring.
  - change (shift dx dy <$> q :: l) with (shift dx dy q :: (shift dx dy <$> l)).
    cbn [chain]. rewrite IH, last_cons_default.
    unfold edge_term, shift. cbn [fst snd]. ring.
Qed.

Lemma cyc_shift (dx dy : Q) (l : list (Q * Q)) :
  cyc (shift dx dy <$> l) == cyc l.
Proof.
  destruct l as [|q l]; [reflexivity|].
  unfold cyc.
  change (shift dx dy <$> q :: l) with (shift dx dy q :: (shift dx dy <$> l)).
  rewrite !last_cons_default, last_fmap.
  change (shift dx dy q :: (shift dx dy <$> l)) with (shift dx dy <$> q :: l).
  rewrite chain_shift, last_cons_default. ring.
Qed.

Lemma Qabs_half_compat (a b : Q) : a == b -> (1 # 2) * Qabs a == (1 # 2) * Qabs b.
Proof. intros E. rewrite E. reflexivity. Qed.

(** X1: moving every vertex of a polygon by the same offset does not
    change the area that [polygon_area] returns. *)
Theorem polygon_area_translation (x y : list Q) (dx dy : Q) :
  length x = length y ->
  exists a,
    polygon_area x y = Some a
    /\ returns (polygon_area (map (Qplus dx) x) (map (Qplus dy) y))
               (fun b => b == a).
Proof.
  intros Hlen.
  destruct (columns_of_ring x y Hlen) as [Ex Ey].
  set (l := zip x y) in *.
  destruct (polygon_area_cyc l) as (a & Ha & Ea).
  destruct (polygon_area_cyc (shift dx dy <$> l)) as (b & Hb & Eb).
  exists a. split; [rewrite Ex, Ey; exact Ha|].
  exists b. split.
  - rewrite <- Hb. f_equal.
    + rewrite Ex at 1. rewrite <- !list_fmap_compose. reflexivity.
    + rewrite Ey at 1. rewrite <- !list_fmap_compose. reflexivity.
  - rewrite Eb, Ea. apply Qabs_half_compat, cyc_shift.
Qed.

Lemma polygon_area_translation_witness :
  exists a,
    polygon_area [0; 4; 0] [0; 0; 3] = Some a
    /\ returns (polygon_area (map (Qplus 10) [0; 4; 0])
                             (map (Qplus (-7)) [0; 0; 3]))
               (fun b => b == a).
Proof.
  apply (polygon_area_translation [0; 4; 0] [0; 0; 3] 10 (-7)). reflexivity.
Defined.


End PolygonAreaMore.

Section LongitudesMore.

Local Open Scope Q_scope.

(** X3: on longitudes from -360 on, a second pass of [wrap2360] changes
    nothing. *)
Theorem wrap2360_idempotent (lon : list Q) :
  Forall (fun v => -360 <= v) lon ->
  wrap2360 (wrap2360 lon) = wrap2360 lon.
Proof.
  induction 1 as [|v lon Hv _ IH]; [reflexivity|].
  unfold wrap2360 in *. cbn [map]. rewrite IH. f_equal.
  destruct (Qltb v 0) eqn:E; [|rewrite E; reflexivity].
  assert (E' : Qltb (v + 360) 0 = false) by (apply Qltb_ge; lra).
  rewrite E'. reflexivity.
Qed.

Lemma wrap2360_idempotent_witness :
  wrap2360 (wrap2360 [-170; 10; -360]) = wrap2360 [-170; 10; -360].
Proof.
  apply (wrap2360_idempotent [-170; 10; -360]).
  repeat constructor; lra.
Defined.



End LongitudesMore.

(** ** [latitude_to_colatitude] *)

Section Colatitude.

Local Open Scope Q_scope.

Lemma take_at_fmap {A B} (f : A -> B) (a : list A) (idx : list nat) :
  Np.take_at (f <$> a) idx = (fun vs : list A => f <$> vs) <$> Np.take_at a idx.
Proof.
  unfold Np.take_at. induction idx as [|i idx IH]; [reflexivity|].
  cbn [mapM]. rewrite IH, list_lookup_fmap.
  destruct (a !! i); [|reflexivity]. cbn [fmap option_fmap option_map mbind option_bind].
  destruct (mapM (fun i => a !! i) idx); reflexivity.
Qed.

(** One pass: the entries that pass the test are reflected, the others
    stay. *)
Lemma reflect_where_lookup (test : Q -> bool) (c : Q) (lat : list Q) :
  exists lat',
    reflect_where test c lat = Some lat'
    /\ length lat' = length lat
    /\ forall j, lat' !! j
                 = (fun v => if test v then c - v else v) <$> lat !! j.
Proof.
  destruct (put_take ((fun v => c - v) <$> lat) lat (Np.where_ test lat))
    as (vals & lat' & Ht & Hp & Hl & Hj).
  { apply length_fmap. }
  { apply where_in_range. }
  rewrite take_at_fmap in Ht.
  destruct (Np.take_at lat (Np.where_ test lat)) as [vals0|] eqn:E;
    [|discriminate Ht].
  exists lat'. split; [|split; [exact Hl|]].
  - unfold reflect_where. rewrite E. cbn [mbind option_bind].
    cbn [fmap option_fmap option_map] in Ht.
    assert (Ev : vals = (fun v => c - v) <$> vals0)
      by (symmetry; exact (Some_inj _ _ Ht)).
    rewrite <- Hp, Ev. reflexivity.
  - intros j. rewrite Hj, list_lookup_fmap.
    destruct (decide (j ∈ Np.where_ test lat)) as [Hin | Hin].
    + apply elem_of_where in Hin. destruct Hin as (v & Hv & Htest).
      rewrite Hv. cbn. rewrite Htest. reflexivity.
    + destruct (lat !! j) as [v|] eqn:Hv; [|reflexivity].
      cbn. destruct (test v) eqn:Htest; [|reflexivity].
      exfalso. apply Hin, elem_of_where. exists v. split; assumption.
Qed.

Lemma latitude_to_colatitude_lookup (lat : list Q) :
  exists r,
    latitude_to_colatitude lat = Some r
    /\ length r = length lat
    /\ forall j, r !! j
                 = (if Nat.eqb (length lat) 1 then colatitude_scalar
                    else colatitude_array) <$> lat !! j.
Proof.
  unfold latitude_to_colatitude.
  destruct (Nat.eqb (length lat) 1).
  - eexists. split; [reflexivity|]. split; [apply length_map|].
    intros j. apply list_lookup_fmap.
  - destruct (reflect_where_lookup (fun v => Qle_bool 0 v) 90 lat)
      as (l1 & H1 & L1 & J1).
    destruct (reflect_where_lookup (fun v => Qltb v 0) (-90) l1)
      as (l2 & H2 & L2 & J2).
    exists l2. rewrite H1. cbn [mbind option_bind].
    split; [exact H2|]. split; [congruence|].
    intros j. rewrite J2, J1. destruct (lat !! j); reflexivity.
Qed.

Lemma Qle_bool_false (a b : Q) : Qle_bool a b = false <-> b < a.
Proof.
  rewrite <- not_true_iff_false, Qle_bool_iff.
  split; [apply Qnot_le_lt | apply Qlt_not_le].
Qed.

Lemma colatitude_cases (v : Q) :
  (0 <= v -> v <= 90 ->
   colatitude_scalar v = 90 - v /\ colatitude_array v = 90 - v)
  /\ (v < 0 ->
      colatitude_scalar v = -90 - v /\ colatitude_array v = -90 - v)
  /\ (90 < v ->
      colatitude_scalar v = 90 - v /\ colatitude_array v == v - 180).
Proof.
  unfold colatitude_scalar, colatitude_array.
  destruct (Qle_bool 0 v) eqn:E0.
  - apply Qle_bool_iff in E0.
    destruct (Qltb (90 - v) 0) eqn:E1;
      [apply Qltb_lt in E1 | apply Qltb_ge in E1].
    + split; [intros; exfalso; lra|]. split; [intros; exfalso; lra|].
      intros _. split; [reflexivity | ring].
    + split; [intros; split; reflexivity|].
      split; intros; exfalso; lra.
  - apply Qle_bool_false in E0.
    assert (E1 : Qltb v 0 = true) by (apply Qltb_lt; exact E0).
    rewrite E1.
    split; [intros; exfalso; lra|].
    split; [intros; split; reflexivity|].
    intros; exfalso; lra.
Qed.

(** X5: [latitude_to_colatitude] never raises and keeps the length.  Up to
    90 degrees the array case and the scalar case compute the same value,
    [90 - lat] from 0 on and [-90 - lat] below 0; above 90 degrees an array
    of one element holds [90 - lat] and a longer one [lat - 180]. *)
Theorem latitude_to_colatitude_entries (lat : list Q) :
  exists r,
    latitude_to_colatitude lat = Some r
    /\ length r = length lat
    /\ forall j v, lat !! j = Some v ->
         (0 <= v -> v <= 90 -> r !! j = Some (90 - v))
         /\ (v < 0 -> r !! j = Some (-90 - v))
         /\ (90 < v ->
             exists u, r !! j = Some u
                       /\ if Nat.eqb (length lat) 1 then u == 90 - v
                          else u == v - 180).
Proof.
  destruct (latitude_to_colatitude_lookup lat) as (r & Hr & Hl & Hj).
  exists r. split; [exact Hr|]. split; [exact Hl|].
  intros j v Hv. rewrite Hj, Hv. cbn [fmap option_fmap option_map].
  destruct (colatitude_cases v) as (Hmid & Hneg & Hbig).
  destruct (Nat.eqb (length lat) 1).
  - split; [intros H0 H90; destruct (Hmid H0 H90) as [-> _]; reflexivity|].
    split; [intros H0; destruct (Hneg H0) as [-> _]; reflexivity|].
    intros H90. destruct (Hbig H90) as [-> _].
    eexists. split; [reflexivity|]. reflexivity.
  - split; [intros H0 H90; destruct (Hmid H0 H90) as [_ ->]; reflexivity|].
    split; [intros H0; destruct (Hneg H0) as [_ ->]; reflexivity|].
    intros H90. destruct (Hbig H90) as [_ E].
    eexists. split; [reflexivity|]. exact E.
Qed.



End Colatitude.

(** ** Rotations: [cartesian_vector_to_spherical_vector] and
    [get_rotation_displacements] *)

Section Rotations.

Local Open Scope Q_scope.

Variables sin_deg cos_deg : Q -> Q.


(** The velocity of the point [r] under the rotation [omega], seen along
    the local east and north directions. *)
Let east_of (lon lat : Q) (omega r : Q * Q * Q) : Q :=
  SlipRate.dot3 (east_unit sin_deg cos_deg lon lat) (Np.cross3 omega r).
Let north_of (lon lat : Q) (omega r : Q * Q * Q) : Q :=
  SlipRate.dot3 (north_unit sin_deg cos_deg lon lat) (Np.cross3 omega r).

Lemma rotation_loop_run (lon_obs lat_obs x y z : list Q)
    (omega_x omega_y omega_z : Q) :
  length lat_obs = length lon_obs -> length x = length lon_obs ->
  length y = length lon_obs -> length z = length lon_obs ->
  forall (m k : nat) (vel_east vel_north : list Q),
    (k + m <= length lon_obs)%nat ->
    length vel_east = length lon_obs -> length vel_north = length lon_obs ->
    exists vel_east' vel_north',
      rotation_loop sin_deg cos_deg (seq k m) lon_obs lat_obs x y z
        omega_x omega_y omega_z vel_east vel_north
      = Some (vel_east', vel_north')
      /\ length vel_east' = length lon_obs
      /\ length vel_north' = length lon_obs
      /\ (forall j, (j < k)%nat ->
            vel_east' !! j = vel_east !! j /\ vel_north' !! j = vel_north !! j)
      /\ (forall j lon lat xj yj zj, (k <= j < k + m)%nat ->
            lon_obs !! j = Some lon -> lat_obs !! j = Some lat ->
            x !! j = Some xj -> y !! j = Some yj -> z !! j = Some zj ->
            exists e n,
              vel_east' !! j = Some e /\ vel_north' !! j = Some n
              /\ e == east_of lon lat (omega_x, omega_y, omega_z) (xj, yj, zj)
              /\ n == north_of lon lat (omega_x, omega_y, omega_z) (xj, yj, zj)).
Proof.
  intros Llat Lx Ly Lz. induction m as [|m IH]; intros k ve vn Hk Lve Lvn.
  - exists ve, vn. split; [reflexivity|]. split; [exact Lve|].
    split; [exact Lvn|]. split; [intros; split; reflexivity | intros; lia].
  - cbn [seq rotation_loop].
    destruct (lookup_lt_is_Some_2 x k ltac:(lia)) as [xk Hxk].
    destruct (lookup_lt_is_Some_2 y k ltac:(lia)) as [yk Hyk].
    destruct (lookup_lt_is_Some_2 z k ltac:(lia)) as [zk Hzk].
    destruct (lookup_lt_is_Some_2 lon_obs k ltac:(lia)) as [lonk Hlonk].
    destruct (lookup_lt_is_Some_2 lat_obs k ltac:(lia)) as [latk Hlatk].
    rewrite Hxk, Hyk, Hzk, Hlonk, Hlatk. cbn [mbind option_bind].
    unfold SlipRate.cartesian_vector_to_spherical_vector.
    cbv beta iota zeta.
    match goal with
    | |- context [rotation_loop _ _ _ _ _ _ _ _ _ _ _ (<[k:=?e]> ve) (<[k:=?n]> vn)] =>
        set (ek := e); set (nk := n)
    end.
    destruct (IH (S k) (<[k:=ek]> ve) (<[k:=nk]> vn))
      as (ve' & vn' & Hrun & Lve' & Lvn' & Hbefore & Hat).
    { lia. }
    { rewrite length_insert. exact Lve. }
    { rewrite length_insert. exact Lvn. }
    exists ve', vn'. split; [exact Hrun|]. split; [exact Lve'|].
    split; [exact Lvn'|]. split.
    + intros j Hj. destruct (Hbefore j ltac:(lia)) as [E1 E2].
      rewrite E1, E2, !list_lookup_insert_ne by lia. split; reflexivity.
    + intros j lon lat xj yj zj Hj Hlon Hlat Hx Hy Hz.
      destruct (decide (j = k)) as [->|Hne].
      * destruct (Hbefore k ltac:(lia)) as [E1 E2].
        exists ek, nk. rewrite E1, E2.
        rewrite !list_lookup_insert_eq by lia.
        split; [reflexivity|]. split; [reflexivity|].
        assert (lon = lonk) by congruence. assert (lat = latk) by congruence.
        assert (xj = xk) by congruence. assert (yj = yk) by congruence.
        assert (zj = zk) by congruence. subst.
        subst ek nk. unfold east_of, north_of, east_unit, north_unit.
        unfold SlipRate.dot3, Np.cross3.
        change (SlipRate.at3 (SlipRate.get_cross_partials (xk, yk, zk)) 0 0) with 0.
        change (SlipRate.at3 (SlipRate.get_cross_partials (xk, yk, zk)) 1 0) with (- zk).
        change (SlipRate.at3 (SlipRate.get_cross_partials (xk, yk, zk)) 2 0) with yk.
        change (SlipRate.at3 (SlipRate.get_cross_partials (xk, yk, zk)) 0 1) with zk.
        change (SlipRate.at3 (SlipRate.get_cross_partials (xk, yk, zk)) 1 1) with 0.
        change (SlipRate.at3 (SlipRate.get_cross_partials (xk, yk, zk)) 2 1) with (- xk).
        change (SlipRate.at3 (SlipRate.get_cross_partials (xk, yk, zk)) 0 2) with (- yk).
        change (SlipRate.at3 (SlipRate.get_cross_partials (xk, yk, zk)) 1 2) with xk.
        change (SlipRate.at3 (SlipRate.get_cross_partials (xk, yk, zk)) 2 2) with 0.
        split; ring.
      * apply (Hat j lon lat xj yj zj); [lia | assumption..].
Qed.

Variable sph2cart : list Q -> list Q -> Q -> option (list Q * list Q * list Q).
Variable RADIUS_EARTH : Q.

(** X8: [get_rotation_displacements] returns, at every observation point,
    the velocity of the rotation, the cross product of the rotation vector
    and the position of the point, taken along the local east and north
    directions; the up component is zero everywhere. *)
Theorem get_rotation_displacements_cross_product
    (lon_obs lat_obs x y z : list Q) (omega_x omega_y omega_z : Q) :
  sph2cart lon_obs lat_obs RADIUS_EARTH = Some (x, y, z) ->
  length lat_obs = length lon_obs -> length x = length lon_obs ->
  length y = length lon_obs -> length z = length lon_obs ->
  exists vel_east vel_north vel_up,
    get_rotation_displacements sin_deg cos_deg sph2cart RADIUS_EARTH
      lon_obs lat_obs omega_x omega_y omega_z
    = Some (vel_east, vel_north, vel_up)
    /\ length vel_east = length lon_obs
    /\ length vel_north = length lon_obs
    /\ vel_up = replicate (length lon_obs) 0
    /\ forall i lon lat xi yi zi,
         lon_obs !! i = Some lon -> lat_obs !! i = Some lat ->
         x !! i = Some xi -> y !! i = Some yi -> z !! i = Some zi ->
         exists e n,
           vel_east !! i = Some e /\ vel_north !! i = Some n
           /\ e == SlipRate.dot3 (east_unit sin_deg cos_deg lon lat)
                    (Np.cross3 (omega_x, omega_y, omega_z) (xi, yi, zi))
           /\ n == SlipRate.dot3 (north_unit sin_deg cos_deg lon lat)
                    (Np.cross3 (omega_x, omega_y, omega_z) (xi, yi, zi)).
Proof.
  intros Hs Llat Lx Ly Lz.
  destruct (rotation_loop_run lon_obs lat_obs x y z omega_x omega_y omega_z
              Llat Lx Ly Lz (length lon_obs) 0
              (replicate (length lon_obs) 0) (replicate (length lon_obs) 0))
    as (ve & vn & Hrun & Lve & Lvn & _ & Hat).
  { lia. }
  { apply length_replicate. }
  { apply length_replicate. }
  exists ve, vn, (replicate (length lon_obs) 0).
  split.
  - unfold get_rotation_displacements. rewrite Hs. cbn [mbind option_bind].
    rewrite Hrun. reflexivity.
  - split; [exact Lve|]. split; [exact Lvn|]. split; [reflexivity|].
    intros i lon lat xi yi zi Hlon Hlat Hx Hy Hz.
    apply (Hat i lon lat xi yi zi); try assumption.
    apply lookup_lt_Some in Hlon. lia.
Qed.

End Rotations.

Lemma get_rotation_displacements_cross_product_witness :
  exists vel_east vel_north vel_up,
    get_rotation_displacements sample_sin sample_cos
      (fun lon lat r => Some (lon, lat, map (Qmult r) lon)) 2
      [10; 20]%Q [30; 40]%Q 1 2 3
    = Some (vel_east, vel_north, vel_up)
    /\ length vel_east = length [10; 20]%Q
    /\ length vel_north = length [10; 20]%Q
    /\ vel_up = replicate (length [10; 20]%Q) 0%Q
    /\ forall i lon lat xi yi zi,
         [10; 20]%Q !! i = Some lon -> [30; 40]%Q !! i = Some lat ->
         [10; 20]%Q !! i = Some xi -> [30; 40]%Q !! i = Some yi ->
         map (Qmult 2) [10; 20]%Q !! i = Some zi ->
         exists e n,
           vel_east !! i = Some e /\ vel_north !! i = Some n
           /\ (e == SlipRate.dot3 (east_unit sample_sin sample_cos lon lat)
                    (Np.cross3 (1, 2, 3) (xi, yi, zi)))%Q
           /\ (n == SlipRate.dot3 (north_unit sample_sin sample_cos lon lat)
                    (Np.cross3 (1, 2, 3) (xi, yi, zi)))%Q.
Proof.
  apply (get_rotation_displacements_cross_product sample_sin sample_cos
           (fun lon lat r => Some (lon, lat, map (Qmult r) lon)) 2
           [10; 20]%Q [30; 40]%Q [10; 20]%Q [30; 40]%Q
           (map (Qmult 2) [10; 20]%Q) 1 2 3); reflexivity.
Defined.


(** ** [interleave2], [interleave3] *)

Section Interleave.

Local Open Scope nat_scope.

(** Linear arithmetic with quotients and remainders by constants. *)
Ltac div_lia := zify; Z.to_euclidean_division_equations; lia.

(** A strided assignment of as many values as the slice has positions:
    the values land on the positions of the slice in order, everything
    else stays. *)
Lemma set_stride_lookup {A} (a vals : list A) (start step : nat) :
  0 < step ->
  length vals = NpMore.stride_count (length a) start step ->
  exists a',
    NpMore.set_stride a start step vals = Some a'
    /\ length a' = length a
    /\ (forall i, start + step * i < length a ->
          a' !! (start + step * i) = vals !! i)
    /\ (forall p, ~ (start <= p /\ (p - start) mod step = 0) ->
          a' !! p = a !! p).
Proof.
  intros Hstep Hlen. unfold NpMore.set_stride.
  rewrite Hlen, Nat.eqb_refl. cbn [orb].
  eexists. split; [reflexivity|]. split; [apply length_imap|]. split.
  - intros i Hi. rewrite list_lookup_imap.
    destruct (lookup_lt_is_Some_2 a (start + step * i) Hi) as [old Hold].
    rewrite Hold. cbn [fmap option_fmap option_map].
    replace (start + step * i - start) with (i * step) by lia.
    rewrite Nat.Div0.mod_mul, Nat.div_mul by lia.
    replace (start <=? start + step * i) with true
      by (symmetry; apply Nat.leb_le; lia).
    cbn [andb Nat.eqb].
    assert (Hi' : i < length vals).
    { rewrite Hlen. unfold NpMore.stride_count.
      apply (Nat.lt_le_trans _ (S i)); [lia|].
      apply Nat.div_le_lower_bound; lia. }
    destruct (lookup_lt_is_Some_2 vals i Hi') as [v Hv].
    rewrite Hv. reflexivity.
  - intros p Hp. rewrite list_lookup_imap.
    destruct (a !! p) as [old|]; [|reflexivity].
    cbn [fmap option_fmap option_map].
    destruct (start <=? p) eqn:E1; [|reflexivity].
    destruct ((p - start) mod step =? 0) eqn:E2; [|reflexivity].
    exfalso. apply Hp. apply Nat.leb_le in E1. apply Nat.eqb_eq in E2.
    split; assumption.
Qed.

(** When a strided assignment goes through, the array keeps its length
    and the values fit the slice, or there is a single one. *)
Lemma set_stride_Some {A} (a vals a' : list A) (start step : nat) :
  NpMore.set_stride a start step vals = Some a' ->
  length a' = length a
  /\ (length vals = NpMore.stride_count (length a) start step
      \/ length vals = 1).
Proof.
  unfold NpMore.set_stride. intros H.
  destruct (length vals =? NpMore.stride_count (length a) start step) eqn:E1;
    [|destruct (length vals =? 1) eqn:E2; [|discriminate H]];
    cbn [orb] in H.
  - split; [|left; apply Nat.eqb_eq; exact E1].
    rewrite <- (Some_inj _ _ H). apply length_imap.
  - split; [|right; apply Nat.eqb_eq; exact E2].
    rewrite <- (Some_inj _ _ H). apply length_imap.
Qed.

Lemma length_empty (garbage : nat -> Q) (n : nat) :
  length (NpMore.empty garbage n) = n.
Proof. unfold NpMore.empty. rewrite length_map. apply length_seq. Qed.

(** X9: when the first array is as long as the second one, or one element
    longer, [interleave2] returns their elements in alternation, the first
    array on the even positions, and nothing of the uninitialised buffer
    is left in the result. *)
Theorem interleave2_alternates (garbage : nat -> Q) (array_1 array_2 : list Q) :
  length array_1 = length array_2 \/ length array_1 = S (length array_2) ->
  exists r,
    interleave2 garbage array_1 array_2 = Some r
    /\ length r = length array_1 + length array_2
    /\ (forall i, r !! (2 * i) = array_1 !! i)
    /\ (forall i, r !! (2 * i + 1) = array_2 !! i).
Proof.
  intros Hlen. unfold interleave2.
  set (n := length array_1 + length array_2).
  destruct (set_stride_lookup (NpMore.empty garbage n) array_1 0 2)
    as (b1 & H1 & L1 & At1 & Else1).
  { lia. }
  { rewrite length_empty. unfold NpMore.stride_count. subst n. div_lia. }
  rewrite length_empty in L1, At1.
  destruct (set_stride_lookup b1 array_2 1 2) as (b2 & H2 & L2 & At2 & Else2).
  { lia. }
  { rewrite L1. unfold NpMore.stride_count. subst n. div_lia. }
  rewrite L1 in L2, At2.
  exists b2. rewrite H1. cbn [mbind option_bind].
  split; [exact H2|]. split; [exact L2|]. split.
  - intros i. rewrite Else2 by div_lia.
    destruct (decide (2 * i < n)) as [Hi | Hi].
    + apply (At1 i). lia.
    + rewrite (lookup_ge_None_2 b1) by lia.
      symmetry. apply lookup_ge_None_2. subst n. lia.
  - intros i. destruct (decide (2 * i + 1 < n)) as [Hi | Hi].
    + replace (2 * i + 1) with (1 + 2 * i) by lia. apply (At2 i). lia.
    + rewrite (lookup_ge_None_2 b2) by lia.
      symmetry. apply lookup_ge_None_2. subst n. lia.
Qed.

Lemma interleave2_alternates_witness :
  exists r,
    interleave2 (fun _ => 99%Q) [1; 3; 5]%Q [2; 4]%Q = Some r
    /\ length r = length [1; 3; 5]%Q + length [2; 4]%Q
    /\ (forall i, r !! (2 * i) = [1; 3; 5]%Q !! i)
    /\ (forall i, r !! (2 * i + 1) = [2; 4]%Q !! i).
Proof.
  apply (interleave2_alternates (fun _ => 99%Q) [1; 3; 5]%Q [2; 4]%Q).
  right. reflexivity.
Defined.

(** X10: [interleave2] raises exactly when the first array is neither as
    long as the second one nor one element longer; broadcasting a single
    element never rescues other lengths. *)
Theorem interleave2_raises (garbage : nat -> Q) (array_1 array_2 : list Q) :
  interleave2 garbage array_1 array_2 = None
  <-> ~ (length array_1 = length array_2
         \/ length array_1 = S (length array_2)).
Proof.
  split.
  - intros Hnone Hlen.
    destruct (set_stride_lookup
                (NpMore.empty garbage (length array_1 + length array_2))
                array_1 0 2) as (b1 & H1 & L1 & _).
    { lia. }
    { rewrite length_empty. unfold NpMore.stride_count. div_lia. }
    rewrite length_empty in L1.
    destruct (set_stride_lookup b1 array_2 1 2) as (b2 & H2 & _).
    { lia. }
    { rewrite L1. unfold NpMore.stride_count. div_lia. }
    unfold interleave2 in Hnone. rewrite H1 in Hnone.
    cbn [mbind option_bind] in Hnone. congruence.
  - intros Hlen. unfold interleave2.
    destruct (NpMore.set_stride _ 0 2 array_1) as [b1|] eqn:H1;
      [|reflexivity].
    cbn [mbind option_bind].
    destruct (NpMore.set_stride b1 1 2 array_2) as [b2|] eqn:H2;
      [|reflexivity].
    exfalso. apply Hlen.
    apply set_stride_Some in H1. destruct H1 as [L1 C1].
    apply set_stride_Some in H2. destruct H2 as [_ C2].
    rewrite length_empty in L1, C1. rewrite L1 in C2.
    unfold NpMore.stride_count in C1, C2.
    destruct C1 as [C1 | C1], C2 as [C2 | C2]; div_lia.
Qed.

(** X11: when the three arrays fill the positions 0, 1, 2 modulo 3 of the
    result exactly (equal lengths, or the first one or the first two longer
    by one), [interleave3] returns their elements in rotation. *)
Theorem interleave3_rotates (garbage : nat -> Q)
    (array_1 array_2 array_3 : list Q) :
  length array_3 <= length array_2 <= length array_1 ->
  length array_1 <= S (length array_3) ->
  exists r,
    interleave3 garbage array_1 array_2 array_3 = Some r
    /\ length r = length array_1 + length array_2 + length array_3
    /\ (forall i, r !! (3 * i) = array_1 !! i)
    /\ (forall i, r !! (3 * i + 1) = array_2 !! i)
    /\ (forall i, r !! (3 * i + 2) = array_3 !! i).
Proof.
  intros Hle Hle'. unfold interleave3.
  set (n := length array_1 + length array_2 + length array_3).
  destruct (set_stride_lookup (NpMore.empty garbage n) array_1 0 3)
    as (b1 & H1 & L1 & At1 & Else1).
  { lia. }
  { rewrite length_empty. unfold NpMore.stride_count. subst n. div_lia. }
  rewrite length_empty in L1, At1.
  destruct (set_stride_lookup b1 array_2 1 3) as (b2 & H2 & L2 & At2 & Else2).
  { lia. }
  { rewrite L1. unfold NpMore.stride_count. subst n. div_lia. }
  rewrite L1 in L2, At2.
  destruct (set_stride_lookup b2 array_3 2 3) as (b3 & H3 & L3 & At3 & Else3).
  { lia. }
  { rewrite L2. unfold NpMore.stride_count. subst n. div_lia. }
  rewrite L2 in L3, At3.
  exists b3. rewrite H1. cbn [mbind option_bind]. rewrite H2.
  cbn [mbind option_bind].
  split; [exact H3|]. split; [exact L3|]. split; [|split].
  - intros i. rewrite Else3, Else2 by div_lia.
    destruct (decide (3 * i < n)) as [Hi | Hi].
    + apply (At1 i). lia.
    + rewrite (lookup_ge_None_2 b1) by lia.
      symmetry. apply lookup_ge_None_2. subst n. lia.
  - intros i. rewrite Else3 by div_lia.
    destruct (decide (3 * i + 1 < n)) as [Hi | Hi].
    + replace (3 * i + 1) with (1 + 3 * i) by lia. apply (At2 i). lia.
    + rewrite (lookup_ge_None_2 b2) by lia.
      symmetry. apply lookup_ge_None_2. subst n. lia.
  - intros i. destruct (decide (3 * i + 2 < n)) as [Hi | Hi].
    + replace (3 * i + 2) with (2 + 3 * i) by lia. apply (At3 i). lia.
    + rewrite (lookup_ge_None_2 b3) by lia.
      symmetry. apply lookup_ge_None_2. subst n. lia.
Qed.

Lemma interleave3_rotates_witness :
  exists r,
    interleave3 (fun _ => 99%Q) [1; 4; 7]%Q [2; 5]%Q [3; 6]%Q = Some r
    /\ length r = length [1; 4; 7]%Q + length [2; 5]%Q + length [3; 6]%Q
    /\ (forall i, r !! (3 * i) = [1; 4; 7]%Q !! i)
    /\ (forall i, r !! (3 * i + 1) = [2; 5]%Q !! i)
    /\ (forall i, r !! (3 * i + 2) = [3; 6]%Q !! i).
Proof.
  apply (interleave3_rotates (fun _ => 99%Q) [1; 4; 7]%Q [2; 5]%Q [3; 6]%Q);
    cbn [length]; lia.
Defined.

End Interleave.

(** ** [zero_mesh_segment_locking_depth] and more on
    [locking_depth_manager] *)

Section MeshLockingDepth.

Lemma take_at_replicate {A} (n : nat) (v : A) (idx : list nat) :
  Forall (fun i => i < n)%nat idx ->
  Np.take_at (replicate n v) idx = Some (replicate (length idx) v).
Proof.
  unfold Np.take_at. induction 1 as [|i idx Hi _ IH]; [reflexivity|].
  cbn [mapM]. rewrite IH, (lookup_replicate_2 n v i Hi). reflexivity.
Qed.

(** [a[idx] = v] for a scalar [v] and indices in range. *)
Lemma put_at_scalar {A} (a : list A) (idx : list nat) (v : A) :
  Forall (fun i => i < length a)%nat idx ->
  exists a',
    Np.put_at a idx (replicate (length idx) v) = Some a'
    /\ length a' = length a
    /\ forall j old, a !! j = Some old ->
         a' !! j = Some (if decide (j ∈ idx) then v else old).
Proof.
  intros Hidx.
  destruct (put_take (replicate (length a) v) a idx)
    as (vals & a' & Ht & Hp & Hl & Hj).
  { apply length_replicate. }
  { exact Hidx. }
  rewrite take_at_replicate in Ht by exact Hidx.
  assert (Ev : vals = replicate (length idx) v)
    by (symmetry; exact (Some_inj _ _ Ht)).
  exists a'. rewrite <- Ev. split; [exact Hp|]. split; [exact Hl|].
  intros j old Hold. rewrite Hj.
  destruct (decide (j ∈ idx)); [|exact Hold].
  apply lookup_replicate_2. apply lookup_lt_Some in Hold. exact Hold.
Qed.

(** X12: [zero_mesh_segment_locking_depth] returns a new table in which
    the locking depth is 0 on the rows whose patch flag and patch file
    number are not zero and whose file number is at most the number of
    meshes; the other locking depths, all other columns, the input table
    and every other object are as before. *)
Theorem zero_mesh_segment_locking_depth_frame {M} (w : world) (segment : nat)
    (f : frame) (meshes : list M) (depth patch_flag patch_file_name : list Q) :
  heap w !! segment = Some f -> frame_wf f ->
  floats f "locking_depth" = Some depth ->
  numbers f "patch_flag" = Some patch_flag ->
  numbers f "patch_file_name" = Some patch_file_name ->
  exists c w' g depth',
    zero_mesh_segment_locking_depth segment meshes w = Some (c, w')
    /\ heap w !! c = None
    /\ heap w' !! segment = Some f
    /\ (forall l, l <> c -> heap w' !! l = heap w !! l)
    /\ stdout w' = stdout w
    /\ heap w' !! c = Some g /\ nrows g = nrows f
    /\ (forall name, name <> "locking_depth" ->
          columns g !! name = columns f !! name)
    /\ floats g "locking_depth" = Some depth'
    /\ length depth' = length depth
    /\ forall i a b d,
         patch_flag !! i = Some a -> patch_file_name !! i = Some b ->
         depth !! i = Some d ->
         depth' !! i
         = Some (if traces_mesh (length meshes) (a, b) then 0%Q else d).
Proof.
  intros Hs W Hd Hpf Hpn.
  pose proof (floats_length _ _ _ W Hd) as Ld.
  pose proof (numbers_length _ _ _ W Hpf) as Lpf.
  pose proof (numbers_length _ _ _ W Hpn) as Lpn.
  set (c := fresh (dom (heap w))).
  assert (Hc : heap w !! c = None) by apply fresh_not_allocated.
  assert (N : segment <> c) by congruence.
  unfold zero_mesh_segment_locking_depth.
  rewrite (bind_run _ _ _ _ _ (deepcopy_run _ _ _ Hs)). fold c.
  erewrite to_numpy_step; [| cbn; apply lookup_insert_eq | exact Hpf].
  erewrite to_numpy_step; [| cbn; apply lookup_insert_eq | exact Hpn].
  set (toggle_off :=
         Np.where_ (traces_mesh (length meshes)) (zip patch_flag patch_file_name)).
  assert (Hrange : Forall (fun i => i < length depth)%nat toggle_off).
  { eapply Forall_impl; [apply where_in_range|].
    intros i Hi. cbn beta in Hi. rewrite length_zip in Hi. lia. }
  destruct (put_at_scalar depth toggle_off 0%Q Hrange)
    as (depth' & Hput & Ld' & Hj).
  assert (Hload : heap (World (<[c := f]> (heap w)) (stdout w)) !! c = Some f)
    by (cbn; apply lookup_insert_eq).
  rewrite (bind_run _ _ _ _ _
             (assign_at_run c "locking_depth" toggle_off _ depth depth' f _
                Hload Hd Hput)).
  eexists c, _, _, depth'.
  split; [reflexivity|]. split; [exact Hc|].
  split; [cbn; now rewrite !heap_insert_other|].
  split; [intros l Hl; cbn; now rewrite !heap_insert_other|].
  split; [reflexivity|].
  split; [cbn; apply lookup_insert_eq|].
  split; [reflexivity|].
  split.
  { intros name Hn. unfold set_values; cbn.
    now rewrite !lookup_insert_ne by congruence. }
  split; [apply floats_set_values|]. split; [exact Ld'|].
  intros i a b d Ha Hb Hdi. rewrite (Hj i d Hdi). f_equal.
  destruct (decide (i ∈ toggle_off)) as [Hin | Hin].
  - apply elem_of_where in Hin. destruct Hin as (p & Hp & Ht).
    rewrite lookup_zip_with, Ha, Hb in Hp. cbn [mbind option_bind] in Hp.
    rewrite (Some_inj _ _ Hp), Ht. reflexivity.
  - destruct (traces_mesh (length meshes) (a, b)) eqn:Ht; [|reflexivity].
    exfalso. apply Hin, elem_of_where. exists (a, b). split; [|exact Ht].
    rewrite lookup_zip_with, Ha, Hb. reflexivity.
Qed.

Lemma sample_patch_segment_wf : frame_wf sample_patch_segment.
Proof.
  unfold frame_wf, sample_patch_segment. cbn [columns nrows list_to_map foldr].
  repeat (apply map_Forall_insert_2; [reflexivity|]).
  apply map_Forall_empty.
Qed.

Lemma zero_mesh_segment_locking_depth_frame_witness :
  exists c w' g depth',
    zero_mesh_segment_locking_depth 0 [tt]
      (World {[ 0%nat := sample_patch_segment ]} [])
    = Some (c, w')
    /\ heap (World {[ 0%nat := sample_patch_segment ]} []) !! c = None
    /\ heap w' !! 0%nat = Some sample_patch_segment
    /\ (forall l, l <> c ->
          heap w' !! l
          = heap (World {[ 0%nat := sample_patch_segment ]} []) !! l)
    /\ stdout w' = stdout (World {[ 0%nat := sample_patch_segment ]} [])
    /\ heap w' !! c = Some g /\ nrows g = nrows sample_patch_segment
    /\ (forall name, name <> "locking_depth" ->
          columns g !! name = columns sample_patch_segment !! name)
    /\ floats g "locking_depth" = Some depth'
    /\ length depth' = length [15; 20; 25]%Q
    /\ forall i a b d,
         [1; 0; 1]%Q !! i = Some a -> [1; 1; 1]%Q !! i = Some b ->
         [15; 20; 25]%Q !! i = Some d ->
         depth' !! i
         = Some (if traces_mesh (length [tt]) (a, b) then 0%Q else d).
Proof.
  apply (zero_mesh_segment_locking_depth_frame
           (World {[ 0%nat := sample_patch_segment ]} []) 0
           sample_patch_segment [tt] [15; 20; 25]%Q [1; 0; 1]%Q [1; 1; 1]%Q);
    [reflexivity | exact sample_patch_segment_wf | reflexivity ..].
Defined.

Lemma locking_depth_manager_flags_witness :
  exists c w' g depth',
    locking_depth_manager 0 (sample_command "no") sample_world = Some (c, w')
    /\ heap sample_world !! c = None
    /\ heap w' !! 0%nat = Some sample_segment
    /\ (forall l, l <> c -> heap w' !! l = heap sample_world !! l)
    /\ stdout w' = stdout sample_world
    /\ heap w' !! c = Some g /\ nrows g = nrows sample_segment
    /\ (forall name, name <> "locking_depth" ->
          columns g !! name = columns sample_segment !! name)
    /\ floats g "locking_depth" = Some depth'
    /\ forall i fl d, [1; 2]%Q !! i = Some fl -> [15; 15]%Q !! i = Some d ->
         depth' !! i = Some (managed_depth (sample_command "no") fl d).
Proof.
  apply (locking_depth_manager_flags sample_world 0 sample_segment
           (sample_command "no") [15; 15]%Q [1; 2]%Q);
    [reflexivity | exact sample_segment_wf | reflexivity | reflexivity
     | discriminate].
Defined.

End MeshLockingDepth.

(** ** More on the areas of [assign_block_labels] *)

Section BlockAreasMore.

Lemma area_loop_overflow (block : nat) (ps : list polygon) :
  forall (i : nat) (w : world) (f : frame) (areas : list Q),
    heap w !! block = Some f ->
    floats f "area_plate_carree" = Some areas ->
    (0 < length ps)%nat -> (length areas < i + length ps)%nat ->
    area_loop block i ps w = None.
Proof.
  induction ps as [|p ps IH]; intros i w f areas Hb Hf Hpos Hi;
    [cbn [length] in Hpos; lia|].
  cbn [area_loop length] in *. cbv zeta.
  rewrite (lift_step _ _ _ _ (polygon_area_ring (vertices p))).
  set (a := ((1 # 2) * Qabs _)%Q).
  destruct (decide (i < length areas)%nat) as [Hin | Hout].
  - erewrite assign_item_step; [| exact Hb | exact Hf | exact Hin].
    apply (IH (S i) _ (set_values f "area_plate_carree" (<[i:=a]> areas))
              (<[i:=a]> areas)).
    + cbn. apply lookup_insert_eq.
    + apply floats_set_values.
    + lia.
    + rewrite length_insert. lia.
  - assert (Hfail : assign_at block "area_plate_carree" [i] [a] w = None).
    { unfold assign_at.
      rewrite (bind_run _ _ _ _ _ (load_run _ _ _ Hb)).
      rewrite (bind_run _ _ _ _ _ (lift_run _ _ _ Hf)).
      cbn [Np.put_at]. destruct (decide (i < length areas)%nat); [lia|].
      reflexivity. }
    unfold mbind, py_bind. rewrite Hfail. reflexivity.
Qed.

(** X14: when the closure has more polygons than the block table has
    rows, the area step raises: the loop writes past the end of the
    column. *)
Theorem assign_block_labels_areas_overflow (w : world) (block : nat)
    (f : frame) (c : closure) :
  heap w !! block = Some f -> (nrows f < n_polygons c)%nat ->
  assign_block_labels_areas block c w = None.
Proof.
  intros Hb Hn. unfold assign_block_labels_areas.
  rewrite (bind_run _ _ _ _ _ (load_run _ _ _ Hb)).
  set (init := Qmult (-1) <$> replicate (nrows f) 1%Q).
  assert (Li : length init = nrows f)
    by (unfold init; now rewrite length_fmap, length_replicate).
  erewrite setitem_step; [| exact Hb | exact Li].
  unfold n_polygons in Hn.
  apply (area_loop_overflow block (polygons c) 0 _
           (Frame (nrows f)
              (<["area_plate_carree" := FloatCol init]> (columns f)))
           init).
  - cbn. apply lookup_insert_eq.
  - unfold floats; cbn. now rewrite lookup_insert_eq.
  - lia.
  - lia.
Qed.

Lemma assign_block_labels_areas_overflow_witness :
  assign_block_labels_areas 0 sample_closure
    (World {[ 0%nat := Frame 0 ∅ ]} []) = None.
Proof.
  apply (assign_block_labels_areas_overflow
           (World {[ 0%nat := Frame 0 ∅ ]} []) 0 (Frame 0 ∅) sample_closure);
    [reflexivity | cbn; lia].
Defined.

End BlockAreasMore.

(** ** More on [get_fault_slip_rate_partials] *)

Module SlipRateMore.

Import SlipRate SlipRateFacts.

Local Open Scope nat_scope.

Lemma set_block_defined (a m : matrix) (r c : Z) :
  is_Some (set_block a r c m)
  <-> (py_slice (length a) r (r + 3)).2 = 3
      /\ (py_slice (ncols a) c (c + 3)).2 = 3.
Proof.
  unfold set_block.
  destruct (py_slice (length a) r (r + 3)) as [r0 rn].
  destruct (py_slice (ncols a) c (c + 3)) as [c0 cn]. cbn [snd].
  destruct (Nat.eqb_spec rn 3) as [-> | Hr];
    destruct (Nat.eqb_spec cn 3) as [-> | Hc]; cbn [andb].
  - split; [intros _; split; reflexivity | intros _; eexists; reflexivity].
  - split; [intros [x Hx]; discriminate Hx | intros [_ H]; congruence].
  - split; [intros [x Hx]; discriminate Hx | intros [H _]; congruence].
  - split; [intros [x Hx]; discriminate Hx | intros [H _]; congruence].
Qed.

Lemma py_slice_label (n_blocks : nat) (label : Z) :
  (py_slice (3 * n_blocks) (3 * label) (3 * label + 3)).2 = 3
  <-> addressable n_blocks label.
Proof.
  unfold py_slice, slice_bound, addressable. cbn [snd].
  destruct (Z.ltb_spec (3 * label) 0); destruct (Z.ltb_spec (3 * label + 3) 0);
    lia.
Qed.

Section Defined.

Variables sin_deg cos_deg : Q -> Q.
Variable geoid_inv_azimuth : Q -> Q -> Q -> Q -> Q.

Let block := slip_rate_matrix sin_deg cos_deg geoid_inv_azimuth.
Let loop := partials_loop sin_deg cos_deg geoid_inv_azimuth.
Let partials := get_fault_slip_rate_partials sin_deg cos_deg geoid_inv_azimuth.

Lemma loop_defined (segs : list segment_row) (nb : nat) :
  forall (k : nat) (op : matrix),
    3 * (k + length segs) <= length op ->
    Forall (fun row => length row = 3 * nb) op ->
    (is_Some (loop k segs op)
     <-> Forall (fun s => addressable nb (east_labels s)
                          /\ addressable nb (west_labels s)) segs).
Proof.
  induction segs as [|s rest IH]; intros k op Hlen Hw.
  - split; [intros _; constructor | intros _; eexists; reflexivity].
  - cbn [length] in Hlen.
    assert (Hne : op <> []) by (intros ->; cbn in Hlen; lia).
    assert (Hrows : forall (p : matrix), length p = length op ->
              (py_slice (length p) (3 * Z.of_nat k) (3 * Z.of_nat k + 3)).2 = 3).
    { intros p Hp. rewrite py_slice_rows by lia. reflexivity. }
    assert (Hcols : forall (p : matrix) (label : Z),
              length p = length op ->
              Forall (fun row => length row = 3 * nb) p ->
              (py_slice (ncols p) (3 * label) (3 * label + 3)).2 = 3
              <-> addressable nb label).
    { intros p label Hp Hpw.
      rewrite (ncols_rows p (3 * nb)); [apply py_slice_label | | exact Hpw].
      intros ->. cbn in Hp. lia. }
    split.
    + intros [op' Hop']. fold loop in IH.
      destruct (loop_cons sin_deg cos_deg geoid_inv_azimuth k s rest op op' Hop')
        as (p1 & p2 & H1 & H2 & H3).
      destruct (set_block_frame op p1 _ k _ (3 * nb) ltac:(lia) Hw H1)
        as (L1 & W1 & _).
      destruct (set_block_frame p1 p2 _ k _ (3 * nb) ltac:(lia) W1 H2)
        as (L2 & W2 & _).
      constructor.
      * split.
        -- apply (Hcols op _ eq_refl Hw).
           apply (proj1 (set_block_defined _ _ _ _) (ex_intro _ _ H1)).
        -- apply (Hcols p1 _ L1 W1).
           apply (proj1 (set_block_defined _ _ _ _) (ex_intro _ _ H2)).
      * apply (IH (S k) p2); [lia | exact W2 | eexists; exact H3].
    + intros HF. apply Forall_cons in HF. destruct HF as [[He Hwl] HF].
      destruct (proj2 (set_block_defined op (block s) (3 * Z.of_nat k)
                         (3 * east_labels s))) as [p1 H1].
      { split; [apply Hrows; reflexivity | apply (Hcols op _ eq_refl Hw), He]. }
      destruct (set_block_frame op p1 _ k _ (3 * nb) ltac:(lia) Hw H1)
        as (L1 & W1 & _).
      destruct (proj2 (set_block_defined p1 (neg (block s)) (3 * Z.of_nat k)
                         (3 * west_labels s))) as [p2 H2].
      { split; [apply Hrows; exact L1 | apply (Hcols p1 _ L1 W1), Hwl]. }
      destruct (set_block_frame p1 p2 _ k _ (3 * nb) ltac:(lia) W1 H2)
        as (L2 & W2 & _).
      unfold loop. cbn [partials_loop]. cbv zeta.
      fold block. rewrite H1. cbn [mbind option_bind]. rewrite H2.
      cbn [mbind option_bind].
      apply (IH (S k) p2); [lia | exact W2 | exact HF].
Qed.

(** X15: [get_fault_slip_rate_partials] builds the operator exactly when
    every east and west label selects three columns: it is a block index,
    or it lies between minus the number of blocks and -2, where the
    negative slice counts from the last block.  A label -1, the mark of an
    unassigned side, or a label from the number of blocks on makes the
    call raise. *)
Theorem get_fault_slip_rate_partials_defined (segment : list segment_row)
    (n_blocks : nat) :
  is_Some (partials segment n_blocks)
  <-> Forall (fun s => addressable n_blocks (east_labels s)
                       /\ addressable n_blocks (west_labels s)) segment.
Proof.
  unfold partials, get_fault_slip_rate_partials. cbv zeta.
  destruct (zeros_shape (3 * length segment) (3 * n_blocks)) as [L W].
  apply loop_defined; [lia | exact W].
Qed.

End Defined.


Section Components.

Variables sin_deg cos_deg : Q -> Q.
Variable geoid_inv_azimuth : Q -> Q -> Q -> Q -> Q.

Let block := slip_rate_matrix sin_deg cos_deg geoid_inv_azimuth.
Let partials := get_fault_slip_rate_partials sin_deg cos_deg geoid_inv_azimuth.

(** The row of the 3x3 block that is left at zero: the tensile row of a
    dipping segment, the dip-slip row of a vertical one. *)
Lemma slip_rate_matrix_zero_row (s : segment_row) (b : nat) :
  b < 3 ->
  at3 (block s) (if Qeq_bool (dip s) 90 then 1 else 2) b = 0%Q.
Proof.
  intros Hb. unfold block, slip_rate_matrix.
  unfold cartesian_vector_to_spherical_vector. cbv beta iota zeta.
  destruct (Qeq_bool (dip s) 90); cbn [negb];
    destruct b as [|[|[|b]]]; try lia; reflexivity.
Qed.

(** X16: a segment between two different blocks whose dip is 90 degrees
    has an all-zero dip-slip row (row 3i + 1) in the operator, and a
    segment of any other dip has an all-zero tensile row (row 3i + 2):
    no block rotation produces that slip component. *)
Theorem fault_slip_rate_partials_zero_row (segment : list segment_row)
    (n_blocks : nat) (op : matrix) (i : nat) (s : segment_row) (e w col : nat) :
  partials segment n_blocks = Some op ->
  segment !! i = Some s ->
  east_labels s = Z.of_nat e -> west_labels s = Z.of_nat w ->
  e < n_blocks -> w < n_blocks -> e <> w -> col < 3 * n_blocks ->
  exists v,
    entry op (3 * i + (if Qeq_bool (dip s) 90 then 1 else 2)) col = Some v
    /\ (v == 0)%Q.
Proof.
  intros Hop Hi He Hw Le Lw Ne Hcol.
  unfold partials, get_fault_slip_rate_partials in Hop. cbv zeta in Hop.
  destruct (zeros_shape (3 * length segment) (3 * n_blocks)) as [L W].
  pose proof (lookup_lt_Some _ _ _ Hi) as Li.
  set (a := if Qeq_bool (dip s) 90 then 1 else 2).
  assert (Ha : a < 3) by (subst a; destruct (Qeq_bool (dip s) 90); lia).
  eexists. split.
  - apply (loop_segment_rows sin_deg cos_deg geoid_inv_azimuth segment 0
             (zeros (3 * length segment) (3 * n_blocks)) op i s e w n_blocks);
      try assumption; try lia.
    intros r c' Hr Hc'. apply entry_zeros; lia.
  - fold block. subst a.
    destruct ((3 * e <=? col) && (col <? 3 * e + 3)) eqn:E1;
      [|destruct ((3 * w <=? col) && (col <? 3 * w + 3)) eqn:E2].
    + apply andb_true_iff in E1. destruct E1 as [E1 E1'].
      apply Nat.leb_le in E1. apply Nat.ltb_lt in E1'.
      rewrite slip_rate_matrix_zero_row by lia. reflexivity.
    + apply andb_true_iff in E2. destruct E2 as [E2 E2'].
      apply Nat.leb_le in E2. apply Nat.ltb_lt in E2'.
      rewrite slip_rate_matrix_zero_row by lia. reflexivity.
    + reflexivity.
Qed.

End Components.

Lemma fault_slip_rate_partials_zero_row_witness :
  exists v,
    entry sample_operator
      (3 * 0 + (if Qeq_bool 90 90 then 1 else 2)) 4 = Some v
    /\ (v == 0)%Q.
Proof.
  apply (fault_slip_rate_partials_zero_row sample_sin sample_cos
           sample_azimuth sample_rows 3 sample_operator 0
           (SegmentRow 1 0 1 2 3 10 20 10 20 11 21 90) 1 0 4);
    [reflexivity | reflexivity | reflexivity | reflexivity | lia..].
Defined.

End SlipRateMore.

(** ** [get_block_constraint_partials] *)

Module BlockConstraintFacts.

Import SlipRate SlipRateFacts.

Local Open Scope nat_scope.

Lemma entry_eye3 (a b : nat) :
  a < 3 -> b < 3 -> entry eye3 a b = Some (if a =? b then 1 else 0)%Q.
Proof.
  intros Ha Hb.
  destruct a as [|[|[|a]]]; try lia; destruct b as [|[|[|b]]]; try lia;
    reflexivity.
Qed.

(** The loop writes an identity block for each flagged block and leaves
    zero elsewhere. *)
Lemma constraint_loop_rows (idx : list nat) (nb : nat) :
  forall (k : nat) (op : matrix),
    3 * (k + length idx) <= length op ->
    Forall (fun row => length row = 3 * nb) op ->
    Forall (fun b => b < nb) idx ->
    (forall i col, 3 * k <= i < length op -> col < 3 * nb ->
       entry op i col = Some 0%Q) ->
    exists op',
      constraint_loop k idx op = Some op'
      /\ length op' = length op
      /\ Forall (fun row => length row = 3 * nb) op'
      /\ (forall i, i < 3 * k -> op' !! i = op !! i)
      /\ forall j b a col,
           idx !! j = Some b -> a < 3 -> col < 3 * nb ->
           entry op' (3 * (k + j) + a) col
           = Some (if col =? 3 * b + a then 1 else 0)%Q.
Proof.
  induction idx as [|b rest IH]; intros k op Hlen Hw Hidx Hzero.
  - exists op. split; [reflexivity|]. split; [reflexivity|].
    split; [exact Hw|]. split; [reflexivity|].
    intros j b a col Hj. discriminate Hj.
  - cbn [length] in Hlen. apply Forall_cons in Hidx.
    destruct Hidx as [Hb Hidx].
    destruct (set_block_entry op eye3 k b (3 * nb)) as (p1 & H1 & Hent);
      [lia | exact Hw | lia |].
    destruct (set_block_frame op p1 eye3 k (3 * Z.of_nat b) (3 * nb))
      as (L1 & W1 & Hout); [lia | exact Hw | exact H1 |].
    destruct (IH (S k) p1) as (op' & Hrun & L' & W' & Hbefore & Hrows).
    { lia. }
    { exact W1. }
    { exact Hidx. }
    { intros i col Hi Hcol. unfold entry. rewrite Hout by lia.
      apply (Hzero i col); lia. }
    exists op'. split.
    { cbn [constraint_loop]. cbv zeta. rewrite H1. exact Hrun. }
    split; [lia|]. split; [exact W'|]. split.
    { intros i Hi. rewrite Hbefore by lia. apply Hout. lia. }
    intros j b' a col Hj Ha Hcol. destruct j as [|j].
    + cbn in Hj. assert (b' = b) by congruence. subst b'.
      rewrite Nat.add_0_r.
      assert (E1 : entry op' (3 * k + a) col = entry p1 (3 * k + a) col)
        by (unfold entry; rewrite Hbefore by lia; reflexivity).
      rewrite E1, (Hent (3 * k + a) col 0%Q) by (apply Hzero; lia).
      f_equal.
      replace ((3 * k <=? 3 * k + a) && (3 * k + a <? 3 * k + 3)) with true
        by (symmetry; apply andb_true_intro;
            rewrite Nat.leb_le, Nat.ltb_lt; lia).
      cbn [andb]. replace (3 * k + a - 3 * k) with a by lia.
      destruct ((3 * b <=? col) && (col <? 3 * b + 3)) eqn:E.
      * apply andb_true_iff in E. destruct E as [E E'].
        apply Nat.leb_le in E. apply Nat.ltb_lt in E'.
        rewrite entry_eye3 by lia. cbn [default].
        destruct (Nat.eqb_spec a (col - 3 * b));
          destruct (Nat.eqb_spec col (3 * b + a)); try lia; reflexivity.
      * apply andb_false_iff in E.
        rewrite Nat.leb_gt, Nat.ltb_ge in E.
        destruct (Nat.eqb_spec col (3 * b + a)); [lia | reflexivity].
    + cbn in Hj. replace (3 * (k + S j) + a) with (3 * (S k + j) + a) by lia.
      apply (Hrows j b' a col Hj Ha Hcol).
Qed.

(** X17: [get_block_constraint_partials] never raises on a well-formed
    block table and does not change it.  The operator has three rows for
    each block whose rotation flag is 1, in the order of the table, and
    component [a] of the [i]-th of them holds a single 1, in the column
    of component [a] of that block: applied to a vector of block
    rotations, the row returns that component. *)
Theorem get_block_constraint_partials_selects (w : world) (block : nat)
    (f : frame) (rotation_flag : list Q) :
  heap w !! block = Some f -> frame_wf f ->
  numbers f "rotation_flag" = Some rotation_flag ->
  exists op,
    get_block_constraint_partials block w = Some (op, w)
    /\ length op
       = 3 * length (Np.where_ (fun v => Qeq_bool v 1) rotation_flag)
    /\ forall i b a,
         Np.where_ (fun v => Qeq_bool v 1) rotation_flag !! i = Some b ->
         a < 3 ->
         (exists v, rotation_flag !! b = Some v /\ (v == 1)%Q)
         /\ (forall col, col < 3 * nrows f ->
               entry op (3 * i + a) col
               = Some (if col =? 3 * b + a then 1 else 0)%Q)
         /\ forall omega : list Q,
              exists row,
                op !! (3 * i + a) = Some row
                /\ (Np.dot_aux row omega == nth (3 * b + a) omega 0)%Q.
Proof.
  intros Hb W Hf.
  pose proof (numbers_length _ _ _ W Hf) as Lf.
  set (idx := Np.where_ (fun v => Qeq_bool v 1) rotation_flag).
  destruct (zeros_shape (3 * length idx) (3 * nrows f)) as [L0 W0].
  destruct (constraint_loop_rows idx (nrows f) 0
              (zeros (3 * length idx) (3 * nrows f)))
    as (op & Hrun & Lop & Wop & _ & Hrows).
  { lia. }
  { exact W0. }
  { rewrite <- Lf. apply where_in_range. }
  { intros i col Hi Hcol. apply entry_zeros; lia. }
  exists op. split.
  { unfold get_block_constraint_partials.
    rewrite (to_numpy_step _ _ _ _ _ _ Hb Hf).
    rewrite (bind_run _ _ _ _ _ (load_run _ _ _ Hb)).
    fold idx. apply lift_run. exact Hrun. }
  split; [lia|].
  intros i b a Hi Ha.
  assert (Hflag : exists v, rotation_flag !! b = Some v /\ (v == 1)%Q).
  { assert (Hin : b ∈ idx) by (eapply list_elem_of_lookup_2; exact Hi).
    apply elem_of_where in Hin. destruct Hin as (v & Hv & Ht).
    exists v. split; [exact Hv | apply Qeq_bool_iff; exact Ht]. }
  assert (Hbn : b < nrows f).
  { destruct Hflag as (v & Hv & _). apply lookup_lt_Some in Hv. lia. }
  assert (Hent : forall col, col < 3 * nrows f ->
            entry op (3 * i + a) col
            = Some (if col =? 3 * b + a then 1 else 0)%Q).
  { intros col Hcol. apply (Hrows i b a col Hi Ha Hcol). }
  split; [exact Hflag|]. split; [exact Hent|].
  intros omega.
  pose proof (lookup_lt_Some _ _ _ Hi) as Li.
  destruct (lookup_lt_is_Some_2 op (3 * i + a) ltac:(lia)) as [row Hrow].
  pose proof (Forall_lookup_1 _ _ _ _ Wop Hrow) as Lrow. cbv beta in Lrow.
  assert (Ent : forall col, entry op (3 * i + a) col = row !! col).
  { intros col. unfold entry. now rewrite Hrow. }
  exists row. split; [exact Hrow|].
  rewrite (dot_aux_support [3 * b + a]).
  - cbn [foldr].
    pose proof (Hent (3 * b + a) ltac:(lia)) as E.
    rewrite Nat.eqb_refl, Ent in E.
    rewrite (nth_lookup_Some _ _ _ _ E). ring.
  - apply NoDup_singleton.
  - apply Forall_singleton. lia.
  - intros j v Hj Hnot. rewrite <- Ent in Hj.
    pose proof (lookup_lt_Some _ _ _ (eq_trans (eq_sym (Ent j)) Hj)) as Lj.
    rewrite list_elem_of_singleton in Hnot.
    rewrite Hent in Hj by lia.
    destruct (Nat.eqb_spec j (3 * b + a)); [contradiction|].
    apply Some_inj in Hj. now subst v.
Qed.

Lemma sample_constraint_block_wf : frame_wf sample_constraint_block.
Proof.
  unfold frame_wf, sample_constraint_block.
  cbn [columns nrows list_to_map foldr].
  repeat (apply map_Forall_insert_2; [reflexivity|]).
  apply map_Forall_empty.
Qed.

Lemma get_block_constraint_partials_selects_witness :
  exists op,
    get_block_constraint_partials 0
      (World {[ 0 := sample_constraint_block ]} [])
    = Some (op, World {[ 0 := sample_constraint_block ]} [])
    /\ length op
       = 3 * length (Np.where_ (fun v => Qeq_bool v 1) [1; 0; 1]%Q)
    /\ forall i b a,
         Np.where_ (fun v => Qeq_bool v 1) [1; 0; 1]%Q !! i = Some b ->
         a < 3 ->
         (exists v, [1; 0; 1]%Q !! b = Some v /\ (v == 1)%Q)
         /\ (forall col, col < 3 * nrows sample_constraint_block ->
               entry op (3 * i + a) col
               = Some (if col =? 3 * b + a then 1 else 0)%Q)
         /\ forall omega : list Q,
              exists row,
                op !! (3 * i + a) = Some row
                /\ (Np.dot_aux row omega == nth (3 * b + a) omega 0)%Q.
Proof.
  apply (get_block_constraint_partials_selects
           (World {[ 0 := sample_constraint_block ]} []) 0
           sample_constraint_block [1; 0; 1]%Q);
    [reflexivity | exact sample_constraint_block_wf | reflexivity].
Defined.

End BlockConstraintFacts.

(** ** [order_endpoints_sphere] applied to its own result *)

Section OrderEndpointsTwice.

Lemma floats_column (f : frame) (name : string) (vs : list Q) :
  floats f name = Some vs -> columns f !! name = Some (FloatCol vs).
Proof.
  unfold floats. destruct (columns f !! name) as [[| |]|]; try discriminate.
  intros H. rewrite (Some_inj _ _ H). reflexivity.
Qed.

Lemma set_values_wf (f : frame) (name : string) (vs : list Q) :
  frame_wf f -> length vs = nrows f -> frame_wf (set_values f name vs).
Proof.
  intros W L. unfold frame_wf, set_values. cbn [columns nrows].
  apply map_Forall_insert_2; [exact L | exact W].
Qed.

(** The whole effect of one call, with the exchanged rows named. *)
Lemma order_endpoints_sphere_run (w : world) (segment : nat) (f : frame)
    (x1 y1 z1 x2 y2 z2 lon1 lat1 lon2 lat2 : list Q) :
  heap w !! segment = Some f -> frame_wf f ->
  floats f "x1" = Some x1 -> floats f "y1" = Some y1 ->
  floats f "z1" = Some z1 -> floats f "x2" = Some x2 ->
  floats f "y2" = Some y2 -> floats f "z2" = Some z2 ->
  floats f "lon1" = Some lon1 -> floats f "lat1" = Some lat1 ->
  floats f "lon2" = Some lon2 -> floats f "lat2" = Some lat2 ->
  exists c w' g lon1' lat1' lon2' lat2',
    order_endpoints_sphere segment w = Some (c, w')
    /\ heap w' !! c = Some g /\ frame_wf g /\ nrows g = nrows f
    /\ (forall name, name ∉ endpoint_columns ->
          columns g !! name = columns f !! name)
    /\ floats g "lon1" = Some lon1' /\ floats g "lat1" = Some lat1'
    /\ floats g "lon2" = Some lon2' /\ floats g "lat2" = Some lat2'
    /\ forall i,
         let swap := bool_decide (i ∈ swap_rows x1 y1 z1 x2 y2 z2) in
         lon1' !! i = (if swap then lon2 !! i else lon1 !! i)
         /\ lat1' !! i = (if swap then lat2 !! i else lat1 !! i)
         /\ lon2' !! i = (if swap then lon1 !! i else lon2 !! i)
         /\ lat2' !! i = (if swap then lat1 !! i else lat2 !! i).
Proof.
  intros Hs W Hx1 Hy1 Hz1 Hx2 Hy2 Hz2 Hlon1 Hlat1 Hlon2 Hlat2.
  pose proof (floats_length _ _ _ W Hx1) as Lx1.
  pose proof (floats_length _ _ _ W Hy1) as Ly1.
  pose proof (floats_length _ _ _ W Hz1) as Lz1.
  pose proof (floats_length _ _ _ W Hx2) as Lx2.
  pose proof (floats_length _ _ _ W Hy2) as Ly2.
  pose proof (floats_length _ _ _ W Hz2) as Lz2.
  pose proof (floats_length _ _ _ W Hlon1) as Llon1.
  pose proof (floats_length _ _ _ W Hlat1) as Llat1.
  pose proof (floats_length _ _ _ W Hlon2) as Llon2.
  pose proof (floats_length _ _ _ W Hlat2) as Llat2.
  set (e1 := zip (zip x1 y1) z1). set (e2 := zip (zip x2 y2) z2).
  set (cp := zip_with Np.cross3 e1 e2).
  assert (Le1 : length e1 = nrows f)
    by (unfold e1; rewrite !length_zip_with; lia).
  assert (Le2 : length e2 = nrows f)
    by (unfold e2; rewrite !length_zip_with; lia).
  assert (He1 : Np.rows3 x1 y1 z1 = Some e1).
  { unfold Np.rows3. rewrite Lx1, Ly1, Lz1, Nat.eqb_refl. reflexivity. }
  assert (He2 : Np.rows3 x2 y2 z2 = Some e2).
  { unfold Np.rows3. rewrite Lx2, Ly2, Lz2, Nat.eqb_refl. reflexivity. }
  assert (Hcp : Np.cross e1 e2 = Some cp).
  { unfold Np.cross. rewrite Le1, Le2, Nat.eqb_refl. reflexivity. }
  assert (Lcp : length cp = nrows f)
    by (unfold cp; rewrite length_zip_with; lia).
  set (idx := swap_rows x1 y1 z1 x2 y2 z2).
  assert (R : forall n, n = nrows f -> Forall (fun i => i < n)%nat idx).
  { intros n ->. rewrite <- Lcp. apply where_in_range. }
  set (c := fresh (dom (heap w))).
  assert (Hc : heap w !! c = None) by apply fresh_not_allocated.
  assert (N : segment <> c) by congruence.
  unfold order_endpoints_sphere.
  rewrite (bind_run _ _ _ _ _ (deepcopy_run _ _ _ Hs)). fold c.
  set (w1 := World (<[c:=f]> (heap w)) (stdout w)).
  assert (Hs1 : heap w1 !! segment = Some f)
    by (cbn; now rewrite heap_insert_other).
  rewrite (bind_run _ _ _ _ _ (values_run _ _ _ _ _ Hs1 Hx1)).
  rewrite (bind_run _ _ _ _ _ (values_run _ _ _ _ _ Hs1 Hy1)).
  rewrite (bind_run _ _ _ _ _ (values_run _ _ _ _ _ Hs1 Hz1)).
  rewrite (bind_run _ _ _ _ _ (lift_run _ _ _ He1)).
  rewrite (bind_run _ _ _ _ _ (values_run _ _ _ _ _ Hs1 Hx2)).
  rewrite (bind_run _ _ _ _ _ (values_run _ _ _ _ _ Hs1 Hy2)).
  rewrite (bind_run _ _ _ _ _ (values_run _ _ _ _ _ Hs1 Hz2)).
  rewrite (bind_run _ _ _ _ _ (lift_run _ _ _ He2)).
  rewrite (bind_run _ _ _ _ _ (lift_run _ _ _ Hcp)).
  cbv zeta. change (Np.where_ _ cp) with idx.
  destruct (copy_step segment c "lon2" "lon1" idx f f lon2 lon1 w1
              Hs1 ltac:(cbn; apply lookup_insert_eq) Hlon2 Hlon1
              ltac:(lia) ltac:(apply R; lia))
    as (lon1' & K1 & L1 & D1).
  rewrite K1; clear K1.
  set (f1 := set_values f "lon1" lon1').
  set (w2 := World _ _).
  assert (Hs2 : heap w2 !! segment = Some f)
    by (cbn; now rewrite !heap_insert_other).
  destruct (copy_step segment c "lat2" "lat1" idx f f1 lat2 lat1 w2
              Hs2 ltac:(cbn; apply lookup_insert_eq) Hlat2
              ltac:(unfold f1; now rewrite floats_set_values_ne)
              ltac:(lia) ltac:(apply R; lia))
    as (lat1' & K2 & L2 & D2).
  rewrite K2; clear K2.
  set (f2 := set_values f1 "lat1" lat1').
  set (w3 := World _ _).
  assert (Hs3 : heap w3 !! segment = Some f)
    by (cbn; now rewrite !heap_insert_other).
  destruct (copy_step segment c "lon1" "lon2" idx f f2 lon1 lon2 w3
              Hs3 ltac:(cbn; apply lookup_insert_eq) Hlon1
              ltac:(unfold f2, f1; now rewrite !floats_set_values_ne)
              ltac:(lia) ltac:(apply R; lia))
    as (lon2' & K3 & L3 & D3).
  rewrite K3; clear K3.
  set (f3 := set_values f2 "lon2" lon2').
  set (w4 := World _ _).
  assert (Hs4 : heap w4 !! segment = Some f)
    by (cbn; now rewrite !heap_insert_other).
  destruct (copy_step segment c "lat1" "lat2" idx f f3 lat1 lat2 w4
              Hs4 ltac:(cbn; apply lookup_insert_eq) Hlat1
              ltac:(unfold f3, f2, f1; now rewrite !floats_set_values_ne)
              ltac:(lia) ltac:(apply R; lia))
    as (lat2' & K4 & L4 & D4).
  rewrite K4; clear K4.
  set (g := set_values f3 "lat2" lat2').
  exists c, (World (<[c:=g]> (heap w4)) (stdout w4)), g, lon1', lat1', lon2', lat2'.
  split; [reflexivity|].
  split; [cbn; apply lookup_insert_eq|].
  split.
  { unfold g, f3, f2, f1.
    repeat (apply set_values_wf; [|cbn [nrows set_values]; lia]). exact W. }
  split; [reflexivity|].
  split.
  { intros name Hn. unfold endpoint_columns in Hn.
    rewrite !elem_of_cons, elem_of_nil in Hn.
    unfold g, f3, f2, f1, set_values; cbn.
    rewrite !lookup_insert_ne; [reflexivity | | | |]; intros <-; tauto. }
  split; [unfold g, f3, f2, f1;
          rewrite !floats_set_values_ne by discriminate;
          apply floats_set_values|].
  split; [unfold g, f3, f2;
          rewrite !floats_set_values_ne by discriminate;
          apply floats_set_values|].
  split; [unfold g, f3;
          rewrite !floats_set_values_ne by discriminate;
          apply floats_set_values|].
  split; [apply floats_set_values|].
  intros i. cbv zeta. rewrite D1, D2, D3, D4. fold idx.
  destruct (decide (i ∈ idx)) as [Hi | Hi].
  - rewrite (bool_decide_eq_true_2 _ Hi). repeat split.
  - rewrite (bool_decide_eq_false_2 _ Hi). repeat split.
Qed.

(** X18: [order_endpoints_sphere] does not reorder the Cartesian endpoint
    columns on which its test is made, so on its own result it exchanges
    the same rows again: the second call returns a table equal to the
    table the first call was given. *)
Theorem order_endpoints_sphere_twice (w : world) (segment : nat) (f : frame)
    (x1 y1 z1 x2 y2 z2 lon1 lat1 lon2 lat2 : list Q) :
  heap w !! segment = Some f -> frame_wf f ->
  floats f "x1" = Some x1 -> floats f "y1" = Some y1 ->
  floats f "z1" = Some z1 -> floats f "x2" = Some x2 ->
  floats f "y2" = Some y2 -> floats f "z2" = Some z2 ->
  floats f "lon1" = Some lon1 -> floats f "lat1" = Some lat1 ->
  floats f "lon2" = Some lon2 -> floats f "lat2" = Some lat2 ->
  exists c w' c' w'',
    order_endpoints_sphere segment w = Some (c, w')
    /\ order_endpoints_sphere c w' = Some (c', w'')
    /\ heap w'' !! c' = Some f.
Proof.
  intros Hs W Hx1 Hy1 Hz1 Hx2 Hy2 Hz2 Hlon1 Hlat1 Hlon2 Hlat2.
  destruct (order_endpoints_sphere_run w segment f x1 y1 z1 x2 y2 z2
              lon1 lat1 lon2 lat2) as
    (c & w' & g & lon1' & lat1' & lon2' & lat2' & Hrun & Hg & Wg & Ng
     & Hcols & Glon1 & Glat1 & Glon2 & Glat2 & Hrows); try assumption.
  assert (Keep : forall name vs, name ∉ endpoint_columns ->
            floats f name = Some vs -> floats g name = Some vs).
  { intros name vs Hn Hf. unfold floats in *. now rewrite (Hcols name Hn). }
  destruct (order_endpoints_sphere_run w' c g x1 y1 z1 x2 y2 z2
              lon1' lat1' lon2' lat2') as
    (c' & w'' & g' & lon1'' & lat1'' & lon2'' & lat2'' & Hrun' & Hg' & Wg'
     & Ng' & Hcols' & Glon1' & Glat1' & Glon2' & Glat2' & Hrows');
    try assumption;
    try (apply Keep; [|assumption]; unfold endpoint_columns;
         rewrite !elem_of_cons, elem_of_nil;
         intros [? | [? | [? | [? | []]]]]; discriminate).
  exists c, w', c', w''. split; [exact Hrun|]. split; [exact Hrun'|].
  rewrite Hg'. f_equal.
  assert (Back : lon1'' = lon1 /\ lat1'' = lat1 /\ lon2'' = lon2 /\ lat2'' = lat2).
  { repeat split; apply list_eq; intros i;
      destruct (Hrows i) as (A1 & A2 & A3 & A4);
      destruct (Hrows' i) as (B1 & B2 & B3 & B4); cbv zeta in *;
      destruct (bool_decide (i ∈ swap_rows x1 y1 z1 x2 y2 z2)); congruence. }
  destruct Back as (-> & -> & -> & ->).
  assert (Ecols : columns g' = columns f).
  { apply map_eq. intros name.
    destruct (decide (name ∈ endpoint_columns)) as [Hin | Hout].
    - unfold endpoint_columns in Hin.
      rewrite !elem_of_cons, elem_of_nil in Hin.
      destruct Hin as [-> | [-> | [-> | [-> | []]]]].
      + rewrite (floats_column _ _ _ Glon1'), (floats_column _ _ _ Hlon1).
        reflexivity.
      + rewrite (floats_column _ _ _ Glat1'), (floats_column _ _ _ Hlat1).
        reflexivity.
      + rewrite (floats_column _ _ _ Glon2'), (floats_column _ _ _ Hlon2).
        reflexivity.
      + rewrite (floats_column _ _ _ Glat2'), (floats_column _ _ _ Hlat2).
        reflexivity.
    - rewrite (Hcols' name Hout). apply (Hcols name Hout). }
  assert (En : nrows g' = nrows f) by congruence.
  destruct g' as [n' cols'], f as [n cols]. cbn [nrows columns] in Ecols, En.
  now rewrite Ecols, En.
Qed.

Lemma order_endpoints_sphere_twice_witness :
  exists c w' c' w'',
    order_endpoints_sphere 0 sample_world = Some (c, w')
    /\ order_endpoints_sphere c w' = Some (c', w'')
    /\ heap w'' !! c' = Some sample_segment.
Proof.
  apply (order_endpoints_sphere_twice sample_world 0 sample_segment
           [1; 0]%Q [0; 1]%Q [0; 0]%Q [0; 1]%Q [1; 0]%Q [0; 0]%Q
           [10; 20]%Q [0; 1]%Q [11; 19]%Q [2; 3]%Q);
    [reflexivity | exact sample_segment_wf | reflexivity ..].
Defined.

End OrderEndpointsTwice.

(** ** [process_sar] *)

Section ProcessSar.

Variable sph2cart : column -> column -> Q -> option (column * column * column).
Variable RADIUS_EARTH : Q.
Variable np_sqrt : Q -> Q.

Lemma bind_None {A B} (m : py A) (k : A -> py B) (w : world) :
  m w = None -> (m ≫= k) w = None.
Proof. intros H. unfold mbind, py_bind. rewrite H. reflexivity. Qed.

(** X19: [process_sar] raises on every SAR table that has a row.  The
    branch that fills in the derived columns is taken for an empty table
    only; a table with data reaches [sar["dep"] = []], whose length does
    not match the index (and a table with rows but no column has no
    [lon]). *)
Theorem process_sar_raises_on_data (w : world) (sar : nat) (f : frame)
    (sar_weight : Q) :
  heap w !! sar = Some f -> (0 < nrows f)%nat ->
  process_sar sph2cart RADIUS_EARTH np_sqrt sar sar_weight w = None.
Proof.
  intros Hs Hrows. unfold process_sar.
  rewrite (bind_run _ _ _ _ _ (load_run _ _ _ Hs)).
  apply bind_None.
  unfold frame_empty.
  destruct (Nat.eqb_spec (nrows f) 0) as [E | _]; [lia|]. cbn [orb].
  destruct (Nat.eqb_spec (size (columns f)) 0) as [E | E].
  - apply map_size_empty_iff in E.
    apply bind_None. unfold getattr.
    rewrite (bind_run _ _ _ _ _ (load_run _ _ _ Hs)).
    rewrite E, lookup_empty. reflexivity.
  - apply bind_None. unfold setitem.
    rewrite (bind_run _ _ _ _ _ (load_run _ _ _ Hs)).
    apply bind_None. unfold set_column. cbn [column_length length].
    destruct (Nat.eqb_spec 0 (nrows f)) as [E' | _]; [lia|]. reflexivity.
Qed.

End ProcessSar.

Lemma process_sar_raises_on_data_witness :
  process_sar sample_sph2cart 6371 (fun v => v) 0 1
    (World {[ 0%nat := sample_sar ]} []) = None.
Proof.
  apply (process_sar_raises_on_data sample_sph2cart 6371 (fun v => v)
           (World {[ 0%nat := sample_sar ]} []) 0 sample_sar 1);
    [reflexivity | cbn; lia].
Defined.

(** ** [process_station] *)

Lemma filter_ext_elem {A} (P Q : A -> Prop) {DP : forall x, Decision (P x)}
    {DQ : forall x, Decision (Q x)} (l : list A) :
  (forall x, x ∈ l -> (P x <-> Q x)) -> filter P l = filter Q l.
Proof.
  induction l as [|x l IH]; intros H; [reflexivity|].
  rewrite !filter_cons.
  rewrite IH by (intros y Hy; apply H; right; exact Hy).
  destruct (decide (P x)) as [HP | HP]; destruct (decide (Q x)) as [HQ | HQ];
    try reflexivity; exfalso.
  - apply HQ, (H x); [left|exact HP].
  - apply HP, (H x); [left|exact HQ].
Qed.

Lemma where_from_ge {A} (p : A -> bool) (a : list A) (k i : nat) :
  i ∈ Np.where_from p k a -> (k <= i)%nat.
Proof.
  intros Hi. apply elem_of_where_from in Hi.
  destruct Hi as (j & v & -> & _). lia.
Qed.

Section DropRows.

Context {A : Type}.

(** Dropping the positions at which the mask holds leaves the entries at
    which it does not. *)
Lemma drop_where_from (mask : list bool) :
  forall (vs : list A) (k : nat),
    length mask = length vs ->
    (filter (fun p : nat * A => p.1 ∉ Np.where_from (fun b : bool => b) k mask)
       (zip (seq k (length vs)) vs)).*2
    = unmasked mask vs.
Proof.
  induction mask as [|m mask IH]; intros [|v vs] k Hlen; try discriminate Hlen;
    [reflexivity|].
  cbn [length] in *. cbn [seq].
  change (zip (k :: seq (S k) (length vs)) (v :: vs))
    with ((k, v) :: zip (seq (S k) (length vs)) vs).
  unfold unmasked.
  change (zip (m :: mask) (v :: vs)) with ((m, v) :: zip mask vs).
  rewrite !filter_cons. cbn [fst].
  specialize (IH vs (S k) ltac:(lia)). unfold unmasked in IH.
  destruct m; cbn [Np.where_from].
  - rewrite decide_False by (intros H; apply H; left).
    rewrite decide_False by discriminate.
    rewrite <- IH. f_equal. apply filter_ext_elem.
    intros [i x] Hin. cbn [fst].
    apply elem_of_zip_l in Hin. apply elem_of_seq in Hin.
    rewrite not_elem_of_cons. split; [intros [_ H]; exact H|].
    intros H. split; [lia | exact H].
  - rewrite decide_True
      by (intros H; apply where_from_ge in H; lia).
    rewrite decide_True by reflexivity.
    cbn [fmap list_fmap snd]. f_equal. exact IH.
Qed.

Lemma drop_at_where (mask : list bool) (vs : list A) :
  length mask = length vs ->
  drop_at (Np.where_ (fun b : bool => b) mask) vs = unmasked mask vs.
Proof. intros H. apply (drop_where_from mask vs 0 H). Qed.

Lemma length_unmasked (mask : list bool) :
  forall vs : list A,
    length mask = length vs ->
    length (unmasked mask vs) = length (filter (fun b => b = false) mask).
Proof.
  unfold unmasked.
  induction mask as [|m mask IH]; intros [|v vs] Hlen; try discriminate Hlen;
    [reflexivity|].
  cbn [length] in Hlen.
  change (zip (m :: mask) (v :: vs)) with ((m, v) :: zip mask vs).
  rewrite !filter_cons. cbn [fst]. specialize (IH vs ltac:(lia)).
  destruct (decide (m = false)); cbn [fmap list_fmap length]; rewrite <- IH;
    reflexivity.
Qed.

End DropRows.

Section ProcessStation.

Variable sph2cart : column -> column -> Q -> option (column * column * column).
Variable RADIUS_EARTH : Q.

Lemma getattr_same {B} (l : nat) (name : string) (c : column) (f : frame)
    (h : gmap nat frame) (out : list string) (k : column -> py B) :
  columns f !! name = Some c ->
  (getattr l name ≫= k) (World (<[l := f]> h) out)
  = k c (World (<[l := f]> h) out).
Proof.
  intros Hc.
  assert (Hg : getattr l name (World (<[l := f]> h) out)
               = Some (c, World (<[l := f]> h) out)).
  { unfold getattr.
    rewrite (bind_run _ _ _ _ _
               (load_run l f (World (<[l := f]> h) out)
                  ltac:(cbn; apply lookup_insert_eq))).
    rewrite Hc. reflexivity. }
  now rewrite (bind_run _ _ _ _ _ Hg).
Qed.

Lemma setitem_same {B} (l : nat) (name : string) (c : column) (f : frame)
    (h : gmap nat frame) (out : list string) (k : unit -> py B) :
  column_length c = nrows f ->
  (setitem l name c ≫= k) (World (<[l := f]> h) out)
  = k tt (World (<[l := Frame (nrows f) (<[name := c]> (columns f))]> h) out).
Proof.
  intros Hc.
  erewrite setitem_step; [| cbn; apply lookup_insert_eq | exact Hc].
  cbn [heap stdout]. rewrite insert_insert_eq. reflexivity.
Qed.

Lemma bind_assoc {A B C} (m : py A) (f : A -> py B) (k : B -> py C)
    (w : world) :
  ((m ≫= f) ≫= k) w = (m ≫= (fun a => f a ≫= k)) w.
Proof.
  unfold mbind, py_bind. destruct (m w) as [[a w']|]; reflexivity.
Qed.

Lemma column_length_full_like (q : Q) (z : Z) (s : string) (c : column) :
  column_length (full_like q z s c) = column_length c.
Proof. destruct c; cbn; apply length_map. Qed.

Lemma length_equals_zero (c : column) :
  length (equals_zero c) = column_length c.
Proof. destruct c; cbn; apply length_map. Qed.

Lemma drop_column_unmasked (mask : list bool) (c : column) :
  length mask = column_length c ->
  drop_column (Np.where_ (fun b : bool => b) mask) c = unmasked_column mask c
  /\ column_length (unmasked_column mask c)
     = length (filter (fun b => b = false) mask).
Proof.
  intros H. destruct c; cbn [column_length drop_column unmasked_column] in *;
    rewrite drop_at_where by exact H; (split; [reflexivity|]);
    apply length_unmasked; exact H.
Qed.

Lemma frame_insert_wf (f : frame) (name : string) (c : column) :
  frame_wf f -> column_length c = nrows f ->
  frame_wf (Frame (nrows f) (<[name := c]> (columns f))).
Proof.
  intros W L. unfold frame_wf. cbn [columns nrows].
  apply map_Forall_insert_2; [exact L | exact W].
Qed.

(** The columns that [unit_sigmas] resets. *)
Let sigmas : list string := ["east_sig"; "north_sig"; "up_sig"].

(** The first statement: with unit sigmas requested, the three
    uncertainty columns become ones. *)
Lemma unit_sigmas_step {B} (w : world) (station : nat) (f : frame)
    (unit_sigmas : string) (k : unit -> py B) :
  heap w !! station = Some f -> frame_wf f ->
  (unit_sigmas = "yes" ->
   is_Some (columns f !! "east_sig") /\ is_Some (columns f !! "north_sig")
   /\ is_Some (columns f !! "up_sig")) ->
  exists f0,
    frame_wf f0 /\ nrows f0 = nrows f
    /\ (forall name,
          columns f0 !! name
          = if String.eqb unit_sigmas "yes" && bool_decide (name ∈ sigmas)
            then ones_like <$> columns f !! name
            else columns f !! name)
    /\ ((if String.eqb unit_sigmas "yes" then
           east_sig ← getattr station "east_sig";
           setitem station "east_sig" (ones_like east_sig);;
           north_sig ← getattr station "north_sig";
           setitem station "north_sig" (ones_like north_sig);;
           up_sig ← getattr station "up_sig";
           setitem station "up_sig" (ones_like up_sig)
         else mret tt) ≫= k) w
       = k tt (World (<[station := f0]> (heap w)) (stdout w)).
Proof.
  intros Hs W Hsig.
  assert (Ew : w = World (<[station := f]> (heap w)) (stdout w)).
  { rewrite (insert_id _ _ _ Hs). destruct w; reflexivity. }
  destruct (String.eqb_spec unit_sigmas "yes") as [Hyes | Hno].
  - destruct (Hsig Hyes) as ([e He] & [n Hn] & [u Hu]).
    pose proof (map_Forall_lookup_1 _ _ _ _ W He) as Le.
    pose proof (map_Forall_lookup_1 _ _ _ _ W Hn) as Ln.
    pose proof (map_Forall_lookup_1 _ _ _ _ W Hu) as Lu.
    cbn beta in Le, Ln, Lu.
    set (f1 := Frame (nrows f) (<["east_sig" := ones_like e]> (columns f))).
    set (f2 := Frame (nrows f) (<["north_sig" := ones_like n]> (columns f1))).
    set (f3 := Frame (nrows f) (<["up_sig" := ones_like u]> (columns f2))).
    assert (W1 : frame_wf f1).
    { apply (frame_insert_wf f); [exact W|].
      unfold ones_like. rewrite column_length_full_like. exact Le. }
    assert (W2 : frame_wf f2).
    { apply (frame_insert_wf f1); [exact W1|].
      unfold ones_like. rewrite column_length_full_like. exact Ln. }
    assert (W3 : frame_wf f3).
    { apply (frame_insert_wf f2); [exact W2|].
      unfold ones_like. rewrite column_length_full_like. exact Lu. }
    exists f3. split; [exact W3|split; [reflexivity|split]].
    + intros name. cbn [andb]. unfold f3, f2, f1. cbn [columns].
      unfold sigmas.
      destruct (decide (name = "up_sig")) as [-> | N1];
        [rewrite lookup_insert_eq, Hu; reflexivity|].
      rewrite lookup_insert_ne by congruence.
      destruct (decide (name = "north_sig")) as [-> | N2];
        [rewrite lookup_insert_eq, Hn; reflexivity|].
      rewrite lookup_insert_ne by congruence.
      destruct (decide (name = "east_sig")) as [-> | N3];
        [rewrite lookup_insert_eq, He; reflexivity|].
      rewrite lookup_insert_ne by congruence.
      rewrite bool_decide_eq_false_2; [reflexivity|].
      rewrite !elem_of_cons, elem_of_nil. tauto.
    + rewrite Ew at 1.
      rewrite bind_assoc, (getattr_same _ _ _ _ _ _ _ He).
      rewrite bind_assoc, setitem_same
        by (unfold ones_like; rewrite column_length_full_like; exact Le).
      fold f1.
      rewrite bind_assoc, (getattr_same station "north_sig" n f1)
        by (unfold f1; cbn [columns];
            rewrite lookup_insert_ne by discriminate; exact Hn).
      rewrite bind_assoc, setitem_same
        by (unfold ones_like; rewrite column_length_full_like; exact Ln).
      change (nrows f1) with (nrows f). fold f2.
      rewrite bind_assoc, (getattr_same station "up_sig" u f2)
        by (unfold f2, f1; cbn [columns];
            rewrite !lookup_insert_ne by discriminate; exact Hu).
      rewrite setitem_same
        by (unfold ones_like; rewrite column_length_full_like; exact Lu).
      reflexivity.
  - exists f. split; [exact W|]. split; [reflexivity|]. split.
    + intros name. reflexivity.
    + rewrite <- Ew. reflexivity.
Qed.

(** X20: [process_station] returns a new table that holds, column by
    column and in the original order, the rows of the station table whose
    flag is not 0.  The table it was given stays allocated with all its
    rows, but it is changed in place: it gains the columns depth (zeros),
    x, y and z, and with unit sigmas requested its three uncertainty
    columns are set to 1.  No other object is touched. *)
Theorem process_station_rows (w : world) (station : nat) (f : frame)
    (unit_sigmas : string) (lon lat flag x y z : column) :
  heap w !! station = Some f -> frame_wf f ->
  columns f !! "lon" = Some lon -> columns f !! "lat" = Some lat ->
  columns f !! "flag" = Some flag ->
  (unit_sigmas = "yes" ->
   is_Some (columns f !! "east_sig") /\ is_Some (columns f !! "north_sig")
   /\ is_Some (columns f !! "up_sig")) ->
  sph2cart lon lat RADIUS_EARTH = Some (x, y, z) ->
  column_length x = nrows f -> column_length y = nrows f ->
  column_length z = nrows f ->
  exists c w' f' g,
    process_station sph2cart RADIUS_EARTH station unit_sigmas w = Some (c, w')
    /\ heap w !! c = None
    /\ (forall l, l <> c -> l <> station -> heap w' !! l = heap w !! l)
    /\ stdout w' = stdout w
    /\ heap w' !! station = Some f' /\ nrows f' = nrows f
    /\ columns f' !! "depth" = Some (zeros_like lon)
    /\ columns f' !! "x" = Some x /\ columns f' !! "y" = Some y
    /\ columns f' !! "z" = Some z
    /\ (forall name, name ∉ ["depth"; "x"; "y"; "z"] ->
          columns f' !! name
          = if String.eqb unit_sigmas "yes" && bool_decide (name ∈ sigmas)
            then ones_like <$> columns f !! name
            else columns f !! name)
    /\ heap w' !! c = Some g /\ frame_wf g
    /\ nrows g = length (filter (fun b => b = false) (equals_zero flag))
    /\ forall name,
         columns g !! name
         = unmasked_column (equals_zero flag) <$> columns f' !! name.
Proof.
  intros Hs W Hlon Hlat Hflag Hsig Hxyz Lx Ly Lz.
  destruct (unit_sigmas_step (B := nat) w station f unit_sigmas
              (fun _ =>
                 lon ← getattr station "lon";
                 setitem station "depth" (zeros_like lon);;
                 lon ← getattr station "lon";
                 lat ← getattr station "lat";
                 '(x, y, z) ← lift (sph2cart lon lat RADIUS_EARTH);
                 setitem station "x" x;;
                 setitem station "y" y;;
                 setitem station "z" z;;
                 flag ← getattr station "flag";
                 drop_reset station
                   (Np.where_ (fun b : bool => b) (equals_zero flag)))
              Hs W Hsig)
    as (f0 & W0 & N0 & C0 & Hstep).
  assert (Keep : forall name, name ∉ sigmas ->
            columns f0 !! name = columns f !! name).
  { intros name Hn. rewrite C0, (bool_decide_eq_false_2 _ Hn), andb_false_r.
    reflexivity. }
  assert (Hlon0 : columns f0 !! "lon" = Some lon).
  { rewrite Keep; [exact Hlon|]. unfold sigmas.
    rewrite !elem_of_cons, elem_of_nil.
    intros [? | [? | [? | []]]]; discriminate. }
  assert (Hlat0 : columns f0 !! "lat" = Some lat).
  { rewrite Keep; [exact Hlat|]. unfold sigmas.
    rewrite !elem_of_cons, elem_of_nil.
    intros [? | [? | [? | []]]]; discriminate. }
  assert (Hflag0 : columns f0 !! "flag" = Some flag).
  { rewrite Keep; [exact Hflag|]. unfold sigmas.
    rewrite !elem_of_cons, elem_of_nil.
    intros [? | [? | [? | []]]]; discriminate. }
  pose proof (map_Forall_lookup_1 _ _ _ _ W Hlon) as Llon.
  pose proof (map_Forall_lookup_1 _ _ _ _ W Hflag) as Lflag.
  cbn beta in Llon, Lflag.
  set (f1 := Frame (nrows f0) (<["depth" := zeros_like lon]> (columns f0))).
  set (f2 := Frame (nrows f0) (<["x" := x]> (columns f1))).
  set (f3 := Frame (nrows f0) (<["y" := y]> (columns f2))).
  set (f4 := Frame (nrows f0) (<["z" := z]> (columns f3))).
  assert (W1 : frame_wf f1).
  { apply (frame_insert_wf f0); [exact W0|].
    unfold zeros_like. rewrite column_length_full_like. congruence. }
  assert (W2 : frame_wf f2)
    by (apply (frame_insert_wf f1); [exact W1 | cbn [nrows f1]; congruence]).
  assert (W3 : frame_wf f3)
    by (apply (frame_insert_wf f2); [exact W2 | cbn [nrows f2]; congruence]).
  assert (W4 : frame_wf f4)
    by (apply (frame_insert_wf f3); [exact W3 | cbn [nrows f3]; congruence]).
  set (mask := equals_zero flag).
  assert (Lmask : length mask = nrows f0).
  { unfold mask. rewrite length_equals_zero. congruence. }
  set (idx := Np.where_ (fun b : bool => b) mask).
  set (h4 := <[station := f4]> (heap w)).
  set (c := fresh (dom h4)).
  set (g := Frame (length (drop_at idx (seq 0 (nrows f4))))
                  (drop_column idx <$> columns f4)).
  assert (Hrun :
    process_station sph2cart RADIUS_EARTH station unit_sigmas w
    = Some (c, World (<[c := g]> h4) (stdout w))).
  { unfold process_station. rewrite Hstep.
    rewrite (getattr_same _ _ _ _ _ _ _ Hlon0).
    rewrite setitem_same
      by (unfold zeros_like; rewrite column_length_full_like; congruence).
    fold f1.
    rewrite (getattr_same station "lon" lon f1)
      by (unfold f1; cbn [columns];
          rewrite lookup_insert_ne by discriminate; exact Hlon0).
    rewrite (getattr_same station "lat" lat f1)
      by (unfold f1; cbn [columns];
          rewrite lookup_insert_ne by discriminate; exact Hlat0).
    rewrite (lift_step _ _ _ _ Hxyz).
    rewrite (setitem_same station "x" x f1) by (cbn [nrows f1]; congruence).
    change (nrows f1) with (nrows f0). fold f2.
    rewrite (setitem_same station "y" y f2) by (cbn [nrows f2]; congruence).
    change (nrows f2) with (nrows f0). fold f3.
    rewrite (setitem_same station "z" z f3) by (cbn [nrows f3]; congruence).
    change (nrows f3) with (nrows f0). fold f4.
    rewrite (getattr_same station "flag" flag f4)
      by (unfold f4, f3, f2, f1; cbn [columns];
          rewrite !lookup_insert_ne by discriminate; exact Hflag0).
    fold mask idx h4. unfold drop_reset. cbn [heap stdout].
    unfold h4 at 1. rewrite lookup_insert_eq.
    rewrite bool_decide_eq_true_2; [reflexivity|].
    change (nrows f4) with (nrows f0). rewrite <- Lmask.
    apply where_in_range. }
  assert (Hc4 : h4 !! c = None) by apply fresh_not_allocated.
  assert (Nc : c <> station).
  { intros E. rewrite E in Hc4. unfold h4 in Hc4.
    rewrite lookup_insert_eq in Hc4. discriminate. }
  assert (Hcols : forall name col, columns f4 !! name = Some col ->
            drop_column idx col = unmasked_column mask col
            /\ column_length (unmasked_column mask col)
               = length (filter (fun b => b = false) mask)).
  { intros name col Hcol. apply drop_column_unmasked.
    pose proof (map_Forall_lookup_1 _ _ _ _ W4 Hcol) as L. cbn beta in L.
    change (nrows f4) with (nrows f0) in L. congruence. }
  assert (Ng : nrows g = length (filter (fun b => b = false) mask)).
  { unfold g. cbn [nrows]. unfold idx.
    rewrite drop_at_where by (rewrite length_seq; exact Lmask).
    apply length_unmasked. rewrite length_seq. exact Lmask. }
  exists c, (World (<[c := g]> h4) (stdout w)), f4, g.
  split; [exact Hrun|].
  split.
  { unfold h4 in Hc4. rewrite lookup_insert_ne in Hc4 by congruence.
    exact Hc4. }
  split.
  { intros l Hl Hl'. cbn [heap]. unfold h4.
    rewrite !lookup_insert_ne by congruence. reflexivity. }
  split; [reflexivity|].
  split.
  { cbn [heap]. rewrite lookup_insert_ne by congruence.
    unfold h4. apply lookup_insert_eq. }
  split; [exact N0|].
  split.
  { unfold f4, f3, f2, f1; cbn [columns].
    rewrite !lookup_insert_ne by discriminate. apply lookup_insert_eq. }
  split.
  { unfold f4, f3, f2; cbn [columns].
    rewrite !lookup_insert_ne by discriminate. apply lookup_insert_eq. }
  split.
  { unfold f4, f3; cbn [columns].
    rewrite !lookup_insert_ne by discriminate. apply lookup_insert_eq. }
  split; [unfold f4; cbn [columns]; apply lookup_insert_eq|].
  split.
  { intros name Hn. rewrite !elem_of_cons, elem_of_nil in Hn.
    unfold f4, f3, f2, f1; cbn [columns].
    rewrite !lookup_insert_ne by (intros <-; tauto). apply C0. }
  split; [cbn [heap]; apply lookup_insert_eq|].
  split.
  { unfold frame_wf. rewrite Ng. unfold g. cbn [columns].
    apply map_Forall_fmap. intros name col Hcol. cbn.
    destruct (Hcols name col Hcol) as [-> L]. exact L. }
  split; [exact Ng|].
  intros name. unfold g. cbn [columns]. rewrite lookup_fmap.
  destruct (columns f4 !! name) as [col|] eqn:Hcol; [|reflexivity].
  cbn. destruct (Hcols name col Hcol) as [-> _]. reflexivity.
Qed.

End ProcessStation.

Lemma sample_station_wf : frame_wf sample_station.
Proof.
  unfold frame_wf, sample_station. cbn [columns nrows list_to_map foldr].
  repeat (apply map_Forall_insert_2; [reflexivity|]).
  apply map_Forall_empty.
Qed.

Lemma process_station_rows_witness :
  exists c w' f' g,
    process_station sample_sph2cart 6371 0 "no"
      (World {[ 0%nat := sample_station ]} [])
    = Some (c, w')
    /\ heap (World {[ 0%nat := sample_station ]} []) !! c = None
    /\ (forall l, l <> c -> l <> 0%nat ->
          heap w' !! l = heap (World {[ 0%nat := sample_station ]} []) !! l)
    /\ stdout w' = stdout (World {[ 0%nat := sample_station ]} [])
    /\ heap w' !! 0%nat = Some f' /\ nrows f' = nrows sample_station
    /\ columns f' !! "depth" = Some (zeros_like (FloatCol [10; 20; 30]%Q))
    /\ columns f' !! "x" = Some (FloatCol [10; 20; 30]%Q)
    /\ columns f' !! "y" = Some (FloatCol [1; 2; 3]%Q)
    /\ columns f' !! "z" = Some (zeros_like (FloatCol [10; 20; 30]%Q))
    /\ (forall name, name ∉ ["depth"; "x"; "y"; "z"] ->
          columns f' !! name
          = if String.eqb "no" "yes"
               && bool_decide (name ∈ ["east_sig"; "north_sig"; "up_sig"])
            then ones_like <$> columns sample_station !! name
            else columns sample_station !! name)
    /\ heap w' !! c = Some g /\ frame_wf g
    /\ nrows g
       = length (filter (fun b => b = false)
                   (equals_zero (IntCol [1; 0; 1]%Z)))
    /\ forall name,
         columns g !! name
         = unmasked_column (equals_zero (IntCol [1; 0; 1]%Z))
             <$> columns f' !! name.
Proof.
  apply (process_station_rows sample_sph2cart 6371
           (World {[ 0%nat := sample_station ]} []) 0 sample_station "no"
           (FloatCol [10; 20; 30]%Q) (FloatCol [1; 2; 3]%Q)
           (IntCol [1; 0; 1]%Z)
           (FloatCol [10; 20; 30]%Q) (FloatCol [1; 2; 3]%Q)
           (zeros_like (FloatCol [10; 20; 30]%Q)));
    [reflexivity | exact sample_station_wf | reflexivity | reflexivity
     | reflexivity | discriminate | reflexivity..].
Defined.

(** ** [merge_geodetic_data] *)

Section MergeGeodeticData.

Lemma to_cells_step {B} (l : nat) (name : string) (f : frame) (c : column)
    (w : world) (k : list cell -> py B) :
  heap w !! l = Some f -> columns f !! name = Some c ->
  (to_cells l name ≫= k) w = k (cells_of c) w.
Proof.
  intros Hl Hc.
  assert (Hg : to_cells l name w = Some (cells_of c, w)).
  { unfold to_cells, getattr.
    rewrite bind_assoc, (bind_run _ _ _ _ _ (load_run _ _ _ Hl)).
    rewrite (lift_step _ _ _ _ Hc). reflexivity. }
  now rewrite (bind_run _ _ _ _ _ Hg).
Qed.

Lemma length_cells_of (c : column) : length (cells_of c) = column_length c.
Proof. destruct c; cbn; apply length_map. Qed.

(** Two arrays one after the other, and the positions of the second one. *)
Lemma stack_lookup {A} (a b : list A) (n m : nat) :
  length a = n -> length b = m ->
  length (a ++ b) = (n + m)%nat
  /\ (forall i, (i < n)%nat -> (a ++ b) !! i = a !! i)
  /\ (forall i j, arange n (n + m) !! i = Some j -> (a ++ b) !! j = b !! i).
Proof.
  intros La Lb. split; [rewrite length_app; lia|]. split.
  - intros i Hi. apply lookup_app_l. lia.
  - intros i j Hij. unfold arange in Hij. apply lookup_seq in Hij.
    destruct Hij as [-> _]. rewrite lookup_app_r by lia.
    f_equal. lia.
Qed.

(** X21: on well-formed station and SAR tables that hold the columns it
    reads, [merge_geodetic_data] returns without changing either table.
    Every stacked field (lon, lat, depth, x, y, z, block_label) holds the
    station entries followed by the SAR entries, and [sar_coordinate_idx]
    lists, in order, exactly the positions of the SAR entries in those
    fields. *)
Theorem merge_geodetic_data_stacks (w : world) (station sar : nat)
    (fs fr : frame) :
  heap w !! station = Some fs -> heap w !! sar = Some fr ->
  frame_wf fs -> frame_wf fr ->
  Forall (fun name => is_Some (columns fs !! name)) station_fields ->
  Forall (fun name => is_Some (columns fr !! name)) sar_fields ->
  exists d,
    merge_geodetic_data station sar w = Some (d, w)
    /\ Assembly.n_stations d = nrows fs /\ Assembly.n_sar d = nrows fr
    /\ length (Assembly.sar_coordinate_idx d) = nrows fr
    /\ forall name field, (name, field) ∈ stacked_fields ->
         length (field d) = (nrows fs + nrows fr)%nat
         /\ (forall cs i, columns fs !! name = Some cs -> (i < nrows fs)%nat ->
               field d !! i = cells_of cs !! i)
         /\ (forall cr i j, columns fr !! name = Some cr ->
               Assembly.sar_coordinate_idx d !! i = Some j ->
               field d !! j = cells_of cr !! i).
Proof.
  intros Hs Hr Ws Wr Fs Fr.
  pose proof (proj1 (Forall_forall _ _) Fs) as Gs.
  pose proof (proj1 (Forall_forall _ _) Fr) as Gr.
  assert (Is : forall name, name ∈ station_fields ->
            exists c, columns fs !! name = Some c
                      /\ length (cells_of c) = nrows fs).
  { intros name Hin. destruct (Gs name Hin) as [c Hc]. exists c.
    split; [exact Hc|]. rewrite length_cells_of.
    exact (map_Forall_lookup_1 _ _ _ _ Ws Hc). }
  assert (Ir : forall name, name ∈ sar_fields ->
            exists c, columns fr !! name = Some c
                      /\ length (cells_of c) = nrows fr).
  { intros name Hin. destruct (Gr name Hin) as [c Hc]. exists c.
    split; [exact Hc|]. rewrite length_cells_of.
    exact (map_Forall_lookup_1 _ _ _ _ Wr Hc). }
  assert (Ms : forall name, In name station_fields -> name ∈ station_fields)
    by (intros name; apply list_elem_of_In).
  assert (Mr : forall name, In name sar_fields -> name ∈ sar_fields)
    by (intros name; apply list_elem_of_In).
  destruct (Is "east_vel") as (c1 & H1 & _); [apply Ms; cbn; tauto|].
  destruct (Is "east_sig") as (c2 & H2 & _); [apply Ms; cbn; tauto|].
  destruct (Is "north_vel") as (c3 & H3 & _); [apply Ms; cbn; tauto|].
  destruct (Is "north_sig") as (c4 & H4 & _); [apply Ms; cbn; tauto|].
  destruct (Is "up_vel") as (c5 & H5 & _); [apply Ms; cbn; tauto|].
  destruct (Is "up_sig") as (c6 & H6 & _); [apply Ms; cbn; tauto|].
  destruct (Ir "line_of_sight_change_val") as (c7 & H7 & _);
    [apply Mr; cbn; tauto|].
  destruct (Ir "line_of_sight_change_sig") as (c8 & H8 & _);
    [apply Mr; cbn; tauto|].
  destruct (Is "lon") as (slon & Hslon & Lslon); [apply Ms; cbn; tauto|].
  destruct (Ir "lon") as (rlon & Hrlon & Lrlon); [apply Mr; cbn; tauto|].
  destruct (Is "lat") as (slat & Hslat & Lslat); [apply Ms; cbn; tauto|].
  destruct (Ir "lat") as (rlat & Hrlat & Lrlat); [apply Mr; cbn; tauto|].
  destruct (Is "depth") as (sdep & Hsdep & Lsdep); [apply Ms; cbn; tauto|].
  destruct (Ir "depth") as (rdep & Hrdep & Lrdep); [apply Mr; cbn; tauto|].
  destruct (Is "x") as (sx & Hsx & Lsx); [apply Ms; cbn; tauto|].
  destruct (Ir "x") as (rx & Hrx & Lrx); [apply Mr; cbn; tauto|].
  destruct (Is "y") as (sy & Hsy & Lsy); [apply Ms; cbn; tauto|].
  destruct (Ir "y") as (ry & Hry & Lry); [apply Mr; cbn; tauto|].
  destruct (Is "z") as (sz & Hsz & Lsz); [apply Ms; cbn; tauto|].
  destruct (Ir "z") as (rz & Hrz & Lrz); [apply Mr; cbn; tauto|].
  destruct (Is "block_label") as (sb & Hsb & Lsb); [apply Ms; cbn; tauto|].
  destruct (Ir "block_label") as (rb & Hrb & Lrb); [apply Mr; cbn; tauto|].
  eexists. split.
  { unfold merge_geodetic_data.
    rewrite (bind_run _ _ _ _ _ (load_run _ _ _ Hs)).
    rewrite (bind_run _ _ _ _ _ (load_run _ _ _ Hr)).
    cbv zeta.
    rewrite (to_cells_step _ _ _ _ _ _ Hs H1), (to_cells_step _ _ _ _ _ _ Hs H2),
      (to_cells_step _ _ _ _ _ _ Hs H3), (to_cells_step _ _ _ _ _ _ Hs H4),
      (to_cells_step _ _ _ _ _ _ Hs H5), (to_cells_step _ _ _ _ _ _ Hs H6),
      (to_cells_step _ _ _ _ _ _ Hr H7), (to_cells_step _ _ _ _ _ _ Hr H8).
    rewrite (to_cells_step _ _ _ _ _ _ Hs Hslon),
      (to_cells_step _ _ _ _ _ _ Hr Hrlon),
      (to_cells_step _ _ _ _ _ _ Hs Hslat),
      (to_cells_step _ _ _ _ _ _ Hr Hrlat),
      (to_cells_step _ _ _ _ _ _ Hs Hsdep),
      (to_cells_step _ _ _ _ _ _ Hr Hrdep),
      (to_cells_step _ _ _ _ _ _ Hs Hsx), (to_cells_step _ _ _ _ _ _ Hr Hrx),
      (to_cells_step _ _ _ _ _ _ Hs Hsy), (to_cells_step _ _ _ _ _ _ Hr Hry),
      (to_cells_step _ _ _ _ _ _ Hs Hsz), (to_cells_step _ _ _ _ _ _ Hr Hrz),
      (to_cells_step _ _ _ _ _ _ Hs Hsb), (to_cells_step _ _ _ _ _ _ Hr Hrb).
    reflexivity. }
  cbn [Assembly.n_stations Assembly.n_sar Assembly.sar_coordinate_idx].
  split; [reflexivity|]. split; [reflexivity|].
  split; [unfold arange; rewrite length_seq; lia|].
  intros name field Hin. unfold stacked_fields in Hin.
  rewrite !elem_of_cons, elem_of_nil in Hin.
  destruct Hin as [E | [E | [E | [E | [E | [E | [E | []]]]]]]];
    injection E as -> ->;
    cbn [Assembly.lon Assembly.lat Assembly.depth Assembly.x Assembly.y
         Assembly.z Assembly.block_label];
    match goal with
    | |- context [cells_of ?a ++ cells_of ?b] =>
        destruct (stack_lookup (cells_of a) (cells_of b) (nrows fs) (nrows fr))
          as (L & Hl & Hr'); [assumption | assumption |]
    end;
    (split; [exact L|]); split.
  all: try (intros cs i Hcs Hi; rewrite (Hl i Hi); congruence).
  all: intros cr i j Hcr Hij; rewrite (Hr' i j Hij); congruence.
Qed.

End MergeGeodeticData.

Lemma sample_merge_wf :
  frame_wf sample_merge_station /\ frame_wf sample_merge_sar.
Proof.
  split.
  - unfold frame_wf, sample_merge_station.
    cbn [columns nrows list_to_map foldr].
    repeat (apply map_Forall_insert_2; [reflexivity|]).
    apply map_Forall_empty.
  - unfold frame_wf, sample_merge_sar.
    cbn [columns nrows list_to_map foldr].
    repeat (apply map_Forall_insert_2; [reflexivity|]).
    apply map_Forall_empty.
Qed.

Lemma merge_geodetic_data_stacks_witness :
  exists d,
    merge_geodetic_data 0 1 sample_merge_world = Some (d, sample_merge_world)
    /\ Assembly.n_stations d = nrows sample_merge_station
    /\ Assembly.n_sar d = nrows sample_merge_sar
    /\ length (Assembly.sar_coordinate_idx d) = nrows sample_merge_sar
    /\ forall name field, (name, field) ∈ stacked_fields ->
         length (field d)
         = (nrows sample_merge_station + nrows sample_merge_sar)%nat
         /\ (forall cs i, columns sample_merge_station !! name = Some cs ->
               (i < nrows sample_merge_station)%nat ->
               field d !! i = cells_of cs !! i)
         /\ (forall cr i j, columns sample_merge_sar !! name = Some cr ->
               Assembly.sar_coordinate_idx d !! i = Some j ->
               field d !! j = cells_of cr !! i).
Proof.
  apply (merge_geodetic_data_stacks sample_merge_world 0 1
           sample_merge_station sample_merge_sar);
    [reflexivity | reflexivity | apply sample_merge_wf | apply sample_merge_wf
     | repeat constructor; eexists; reflexivity
     | repeat constructor; eexists; reflexivity].
Defined.

(** ** [station_row_keep] *)

Section StationRowKeep.

Lemma sum_abs_nonneg (v : list Q) : (0 <= sum_abs v)%Q.
Proof.
  induction v as [|a v IH]; cbn [sum_abs foldr]; [apply Qle_refl|].
  fold (sum_abs v). pose proof (Qabs_nonneg a). lra.
Qed.

Lemma Qabs_zero (a : Q) : (Qabs a == 0 <-> a == 0)%Q.
Proof.
  split; intros H.
  - destruct (Qabs_Qle_condition a 0) as [Hle _].
    destruct Hle as [H1 H2]; [rewrite H; apply Qle_refl|]. lra.
  - rewrite H. reflexivity.
Qed.

(** The test of the function holds exactly when every up velocity is
    zero. *)
Lemma sum_abs_zero (v : list Q) :
  Qeq_bool (sum_abs v) 0 = forallb (fun a => Qeq_bool a 0) v.
Proof.
  induction v as [|a v IH]; [reflexivity|].
  cbn [sum_abs foldr forallb]. fold (sum_abs v). rewrite <- IH.
  pose proof (sum_abs_nonneg v) as Hs. pose proof (Qabs_nonneg a) as Ha.
  destruct (Qeq_bool a 0) eqn:E1; destruct (Qeq_bool (sum_abs v) 0) eqn:E2;
    cbn [andb].
  - apply Qeq_bool_iff in E1, E2. apply Qeq_bool_iff.
    apply Qabs_zero in E1. lra.
  - apply Qeq_bool_neq in E2. apply not_true_is_false. intros E.
    apply Qeq_bool_iff in E. apply E2. lra.
  - apply Qeq_bool_neq in E1. apply not_true_is_false. intros E.
    apply Qeq_bool_iff in E. apply E1, Qabs_zero. lra.
  - apply Qeq_bool_neq in E1. apply not_true_is_false. intros E.
    apply Qeq_bool_iff in E. apply E1, Qabs_zero. lra.
Qed.

Lemma elem_of_arange (start stop i : nat) :
  i ∈ arange start stop <-> (start <= i < stop)%nat.
Proof. unfold arange. rewrite elem_of_seq. lia. Qed.

Lemma elem_of_arange_step (start stop step i : nat) :
  (0 < step)%nat ->
  i ∈ arange_step start stop step
  <-> (start <= i < stop)%nat /\ ((i - start) mod step = 0)%nat.
Proof.
  intros Hstep. unfold arange_step. rewrite list_elem_of_fmap. split.
  - intros (k & -> & Hk). apply elem_of_seq in Hk.
    assert (Hlt : (k * step < stop - start)%nat).
    { destruct Hk as [_ Hk]. cbn [Nat.add] in Hk.
      pose proof (Nat.div_mod_eq (stop - start + step - 1) step) as Hq.
      nia. }
    split; [nia|].
    replace (start + k * step - start)%nat with (k * step)%nat by lia.
    apply Nat.Div0.mod_mul.
  - intros [Hi Hmod]. exists ((i - start) / step)%nat.
    pose proof (Nat.div_mod_eq (i - start) step) as Hd.
    rewrite Hmod in Hd. split; [nia|].
    apply elem_of_seq. split; [lia|]. cbn [Nat.add].
    apply Nat.Div0.div_lt_upper_bound.
    pose proof (Nat.div_mod_eq (stop - start + step - 1) step) as Hq.
    pose proof (Nat.mod_upper_bound (stop - start + step - 1) step
                  ltac:(lia)) as Hr.
    nia.
Qed.

(** X22: when every up velocity is zero, [station_row_keep] keeps exactly
    the rows below [sz_rotation[0]] whose index is not 2 modulo 3, the
    east and north rows of the stations; otherwise it keeps the rows
    below [sz_rotation[1]], the second dimension. *)
Theorem station_row_keep_rows (up_vel : list Q) (sz_rotation : nat * nat)
    (i : nat) :
  i ∈ station_row_keep up_vel sz_rotation
  <-> if forallb (fun a => Qeq_bool a 0) up_vel
      then (i < sz_rotation.1)%nat /\ (i mod 3 <> 2)%nat
      else (i < sz_rotation.2)%nat.
Proof.
  unfold station_row_keep. rewrite sum_abs_zero.
  destruct (forallb (fun a => Qeq_bool a 0) up_vel).
  - unfold setdiff1d.
    rewrite elem_of_difference, !elem_of_list_to_set, elem_of_arange,
      elem_of_arange_step by lia.
    split.
    + intros [Hi Hnot]. split; [lia|]. intros Hmod. apply Hnot.
      split; [zify; Z.to_euclidean_division_equations; lia|].
      zify; Z.to_euclidean_division_equations; lia.
    + intros [Hi Hmod]. split; [lia|]. intros [Hr Hm]. apply Hmod.
      zify; Z.to_euclidean_division_equations; lia.
  - rewrite elem_of_list_to_set, elem_of_arange. lia.
Qed.

End StationRowKeep.

(** ** [get_block_rotation_operator] *)

Module BlockRotationFacts.

Import SlipRate SlipRateFacts.

Local Open Scope nat_scope.

Lemma NoDup_where_from {A} (p : A -> bool) (a : list A) :
  forall k, NoDup (Np.where_from p k a).
Proof.
  induction a as [|v a IH]; intros k; cbn [Np.where_from];
    [apply NoDup_nil_2|].
  destruct (p v); [|apply IH].
  apply NoDup_cons. split; [|apply IH].
  intros H. apply where_from_ge in H. lia.
Qed.

(** [a[idx]] for indices in range: it returns, position by position, the
    entries that the indices name. *)
Lemma take_at_lookup {A} (a : list A) (idx : list nat) :
  Forall (fun i => i < length a) idx ->
  exists vals,
    Np.take_at a idx = Some vals
    /\ length vals = length idx
    /\ forall j i, idx !! j = Some i -> vals !! j = a !! i.
Proof.
  unfold Np.take_at. induction 1 as [|i idx Hi _ IH].
  - exists []. split; [reflexivity|]. split; [reflexivity|].
    intros j i Hj. discriminate Hj.
  - destruct IH as (vals & Hv & Lv & Hj).
    destruct (lookup_lt_is_Some_2 a i Hi) as [v Hiv].
    exists (v :: vals). split.
    { cbn [mapM]. rewrite Hiv, Hv. reflexivity. }
    split; [cbn [length]; lia|].
    intros [|j] i' Hj'.
    + cbn in Hj'. assert (i' = i) by congruence. subst i'.
      cbn. symmetry. exact Hiv.
    + cbn in Hj'. cbn. apply Hj. exact Hj'.
Qed.

Lemma np_max_bound (v : list Z) (m : Z) :
  np_max v = Some m -> Forall (fun l => (l <= m)%Z) v.
Proof.
  destruct v as [|a v]; [discriminate|]. cbn [np_max]. intros H.
  assert (E : m = foldr Z.max a v) by (symmetry; exact (Some_inj _ _ H)).
  subst m. clear H. apply Forall_cons. split.
  - induction v as [|b v IH]; cbn [foldr]; lia.
  - induction v as [|b v IH]; [constructor|]. cbn [foldr].
    apply Forall_cons. split; [lia|].
    eapply Forall_impl; [exact IH|]. intros l Hl. cbn beta in Hl. lia.
Qed.

Lemma agrees_ext (a : matrix) (n w : nat) (g g' : nat -> nat -> Q) :
  agrees a n w g -> (forall i c, i < n -> c < w -> (g i c == g' i c)%Q) ->
  agrees a n w g'.
Proof.
  intros (L & W & E) H. split; [exact L|]. split; [exact W|].
  intros i c Hi Hc. destruct (E i c Hi Hc) as (v & Hv & Ev).
  exists v. split; [exact Hv|]. rewrite Ev. apply H; assumption.
Qed.

Lemma agrees_zeros (n w : nat) : agrees (zeros n w) n w (fun _ _ => 0%Q).
Proof.
  destruct (zeros_shape n w) as [L W]. split; [exact L|]. split; [exact W|].
  intros i c Hi Hc. exists 0%Q. split; [apply entry_zeros; assumption|].
  reflexivity.
Qed.

(** One write [a[r, col] = v]. *)
Lemma set_entry_agrees (a : matrix) (n w : nat) (g : nat -> nat -> Q)
    (r col : nat) (v hv : Q) (row : list Q) :
  agrees a n w g -> a !! r = Some row -> col < w -> (v == hv)%Q ->
  agrees (<[r := <[col := v]> row]> a) n w
    (fun i c => if (c =? col) && (i =? r) then hv else g i c).
Proof.
  intros (L & W & E) Hrow Hcol Hv.
  pose proof (Forall_lookup_1 _ _ _ _ W Hrow) as Lrow. cbn beta in Lrow.
  pose proof (lookup_lt_Some _ _ _ Hrow) as Hr.
  split; [rewrite length_insert; exact L|]. split.
  - apply Forall_insert; [exact W|]. rewrite length_insert. exact Lrow.
  - intros i c Hi Hc. unfold entry.
    destruct (Nat.eqb_spec i r) as [-> | Ni].
    + rewrite list_lookup_insert_eq by lia. cbn [mbind option_bind].
      destruct (Nat.eqb_spec c col) as [-> | Nc]; cbn [andb].
      * rewrite list_lookup_insert_eq by lia. exists v. split; [reflexivity|].
        exact Hv.
      * rewrite list_lookup_insert_ne by lia.
        destruct (E r c Hi Hc) as (u & Hu & Eu). unfold entry in Hu.
        rewrite Hrow in Hu. cbn [mbind option_bind] in Hu.
        exists u. split; assumption.
    + rewrite list_lookup_insert_ne by lia. rewrite andb_false_r.
      apply (E i c Hi Hc).
Qed.

(** [a[rows, col] = vals], when every value is equal to the tabulated
    value [h] of its row. *)
Lemma set_entries_agrees (rows : list nat) (col n w : nat) (h : nat -> Q) :
  forall (vals : list Q) (a : matrix) (g : nat -> nat -> Q),
    agrees a n w g ->
    Forall (fun r => r < n) rows -> col < w ->
    length vals = length rows ->
    (forall j r v, rows !! j = Some r -> vals !! j = Some v -> (v == h r)%Q) ->
    exists a',
      set_entries a rows col vals = Some a'
      /\ agrees a' n w
           (fun i c => if (c =? col) && bool_decide (i ∈ rows)
                       then h i else g i c).
Proof.
  induction rows as [|r rows IH]; intros [|v vals] a g Ha Hrows Hcol Hlen Hh;
    try discriminate Hlen.
  - exists a. split; [reflexivity|]. eapply agrees_ext; [exact Ha|].
    intros i c _ _. rewrite bool_decide_eq_false_2 by apply not_elem_of_nil.
    rewrite andb_false_r. reflexivity.
  - apply Forall_cons in Hrows. destruct Hrows as [Hr Hrows].
    destruct Ha as (L & W & E).
    destruct (lookup_lt_is_Some_2 a r ltac:(lia)) as [row Hrow].
    pose proof (Forall_lookup_1 _ _ _ _ W Hrow) as Lrow. cbn beta in Lrow.
    pose proof (set_entry_agrees a n w g r col v (h r) row
                  (conj L (conj W E)) Hrow Hcol
                  (Hh 0 r v eq_refl eq_refl)) as H1.
    destruct (IH vals _ _ H1 Hrows Hcol ltac:(cbn in Hlen; lia)) as (a' & Ha' & Hag).
    { intros j r' v' Hj Hv'. apply (Hh (S j) r' v'); assumption. }
    exists a'. split.
    { cbn [set_entries]. rewrite Hrow. cbn [mbind option_bind].
      destruct (decide (col < length row)) as [_ | N]; [exact Ha' | lia]. }
    eapply agrees_ext; [exact Hag|].
    intros i c _ _. cbv beta.
    destruct (Nat.eqb_spec c col) as [-> | Nc]; cbn [andb]; [|reflexivity].
    destruct (decide (i ∈ rows)) as [Hin | Hin].
    + rewrite (bool_decide_eq_true_2 _ Hin).
      rewrite bool_decide_eq_true_2 by (right; exact Hin). reflexivity.
    + rewrite (bool_decide_eq_false_2 _ Hin).
      destruct (Nat.eqb_spec i r) as [-> | Ni].
      * rewrite bool_decide_eq_true_2 by left. reflexivity.
      * rewrite bool_decide_eq_false_2; [reflexivity|].
        rewrite not_elem_of_cons. split; assumption.
Qed.

Lemma elem_of_stride (r : nat) (idx : list nat) (i : nat) :
  r < 3 ->
  bool_decide (i ∈ map (fun s => 3 * s + r) idx)
  = (i mod 3 =? r) && bool_decide (i / 3 ∈ idx).
Proof.
  intros Hr. apply eq_true_iff_eq.
  rewrite andb_true_iff, !bool_decide_eq_true, Nat.eqb_eq.
  change (map (fun s => 3 * s + r) idx) with ((fun s => 3 * s + r) <$> idx).
  rewrite list_elem_of_fmap. split.
  - intros (s & -> & Hs).
    replace ((3 * s + r) mod 3) with r
      by (zify; Z.to_euclidean_division_equations; lia).
    replace ((3 * s + r) / 3) with s
      by (zify; Z.to_euclidean_division_equations; lia).
    split; [reflexivity | exact Hs].
  - intros [Hm Hin]. exists (i / 3). split; [|exact Hin].
    zify; Z.to_euclidean_division_equations; lia.
Qed.

Lemma elem_of_stride_0 (idx : list nat) (i : nat) :
  bool_decide (i ∈ map (fun s => 3 * s) idx)
  = (i mod 3 =? 0) && bool_decide (i / 3 ∈ idx).
Proof.
  rewrite <- (elem_of_stride 0 idx i) by lia.
  assert (E : map (fun s => 3 * s) idx = map (fun s => 3 * s + 0) idx)
    by (apply map_ext; intros; lia).
  rewrite E. reflexivity.
Qed.

Section Operator.

Variables sin_deg cos_deg : Q -> Q.
Variable sph2cart : list Q -> list Q -> Q -> option (list Q * list Q * list Q).
Variable RADIUS_EARTH : Q.
Variable point : Q -> Q -> Q * Q * Q.

Hypothesis sph2cart_pointwise : pointwise sph2cart RADIUS_EARTH point.

(** One call of [get_rotation_displacements], with the positions that
    [sph2cart] returns. *)
Lemma rotation_displacements_points (lon lat : list Q) (ox oy oz : Q) :
  length lat = length lon ->
  exists ve vn,
    get_rotation_displacements sin_deg cos_deg sph2cart RADIUS_EARTH
      lon lat ox oy oz
    = Some (ve, vn, replicate (length lon) 0%Q)
    /\ length ve = length lon /\ length vn = length lon
    /\ forall j lo la, lon !! j = Some lo -> lat !! j = Some la ->
         exists e n,
           ve !! j = Some e /\ vn !! j = Some n
           /\ (e == dot3 (east_unit sin_deg cos_deg lo la)
                    (Np.cross3 (ox, oy, oz) (point lo la)))%Q
           /\ (n == dot3 (north_unit sin_deg cos_deg lo la)
                    (Np.cross3 (ox, oy, oz) (point lo la)))%Q.
Proof.
  intros Hlen.
  set (x := zip_with (fun a b => (point a b).1.1) lon lat).
  set (y := zip_with (fun a b => (point a b).1.2) lon lat).
  set (z := zip_with (fun a b => (point a b).2) lon lat).
  assert (Lx : length x = length lon)
    by (unfold x; rewrite length_zip_with; lia).
  assert (Ly : length y = length lon)
    by (unfold y; rewrite length_zip_with; lia).
  assert (Lz : length z = length lon)
    by (unfold z; rewrite length_zip_with; lia).
  destruct (rotation_loop_run sin_deg cos_deg lon lat x y z ox oy oz
              Hlen Lx Ly Lz (length lon) 0
              (replicate (length lon) 0%Q) (replicate (length lon) 0%Q))
    as (ve & vn & Hrun & Lve & Lvn & _ & Hat).
  { lia. }
  { apply length_replicate. }
  { apply length_replicate. }
  exists ve, vn. split.
  { unfold get_rotation_displacements.
    rewrite (sph2cart_pointwise lon lat (eq_sym Hlen)).
    cbn [mbind option_bind]. fold x y z. rewrite Hrun. reflexivity. }
  split; [exact Lve|]. split; [exact Lvn|].
  intros j lo la Hlo Hla.
  pose proof (lookup_lt_Some _ _ _ Hlo) as Hj.
  assert (Hp : (((point lo la).1.1, (point lo la).1.2, (point lo la).2))
               = point lo la) by (destruct (point lo la) as [[? ?] ?]; reflexivity).
  rewrite <- Hp.
  apply (Hat j lo la); [lia | exact Hlo | exact Hla | | |].
  - unfold x. rewrite lookup_zip_with, Hlo, Hla. reflexivity.
  - unfold y. rewrite lookup_zip_with, Hlo, Hla. reflexivity.
  - unfold z. rewrite lookup_zip_with, Hlo, Hla. reflexivity.
Qed.

Variables (w : world) (station : nat) (f : frame).
Variables (labels : list Z) (lon lat : list Q).

Hypothesis station_at : heap w !! station = Some f.
Hypothesis labels_at : columns f !! "block_label" = Some (IntCol labels).
Hypothesis lon_at : numbers f "lon" = Some lon.
Hypothesis lat_at : numbers f "lat" = Some lat.
Hypothesis labels_length : length labels = nrows f.
Hypothesis lon_length : length lon = nrows f.
Hypothesis lat_length : length lat = nrows f.

(** The entry for component [r] of station [s] in column [c] of its
    block, and the table of the operator after block [i] has been
    written over the table [g]. *)
Let partial (r c s : nat) : Q :=
  rotation_partial sin_deg cos_deg (nth s lon 0%Q) (nth s lat 0%Q)
    (point (nth s lon 0%Q) (nth s lat 0%Q)) r c.

Let on_block (i : nat) : list nat :=
  Np.where_ (fun l => Z.eqb l (Z.of_nat i)) labels.

Let next (i : nat) (g : nat -> nat -> Q) (row c : nat) : Q :=
  if bool_decide (row / 3 ∈ on_block i) && (3 * i <=? c) && (c <? 3 * i + 3)
  then partial (row mod 3) (c - 3 * i) (row / 3)
  else g row c.

Lemma on_block_range (i : nat) : Forall (fun s => s < nrows f) (on_block i).
Proof. rewrite <- labels_length. apply where_in_range. Qed.

(** The three arrays of one call, station by station. *)
Lemma unit_call (i c : nat) (ox oy oz : Q) (lon' lat' : list Q) :
  unit_omega c = (ox, oy, oz) ->
  length lon' = length (on_block i) -> length lat' = length (on_block i) ->
  (forall j s, on_block i !! j = Some s -> lon' !! j = lon !! s) ->
  (forall j s, on_block i !! j = Some s -> lat' !! j = lat !! s) ->
  exists ve vn vu,
    get_rotation_displacements sin_deg cos_deg sph2cart RADIUS_EARTH
      lon' lat' ox oy oz
    = Some (ve, vn, vu)
    /\ length ve = length (on_block i) /\ length vn = length (on_block i)
    /\ length vu = length (on_block i)
    /\ (forall j s v, on_block i !! j = Some s -> ve !! j = Some v ->
          (v == partial 0 c s)%Q)
    /\ (forall j s v, on_block i !! j = Some s -> vn !! j = Some v ->
          (v == partial 1 c s)%Q)
    /\ (forall j s v, on_block i !! j = Some s -> vu !! j = Some v ->
          (v == partial 2 c s)%Q).
Proof.
  intros Hu Ll Lt Hl Ht.
  destruct (rotation_displacements_points lon' lat' ox oy oz ltac:(lia))
    as (ve & vn & Hrun & Lve & Lvn & Hat).
  exists ve, vn, (replicate (length lon') 0%Q).
  split; [exact Hrun|]. split; [lia|]. split; [lia|].
  split; [rewrite length_replicate; lia|].
  assert (Hpos : forall j s, on_block i !! j = Some s ->
            lon' !! j = Some (nth s lon 0%Q)
            /\ lat' !! j = Some (nth s lat 0%Q)).
  { intros j s Hj.
    pose proof (proj1 (Forall_lookup _ _) (on_block_range i) j s Hj) as Hs.
    cbn beta in Hs.
    destruct (lookup_lt_is_Some_2 lon s ltac:(lia)) as [lo Hlo].
    destruct (lookup_lt_is_Some_2 lat s ltac:(lia)) as [la Hla].
    rewrite (Hl j s Hj), (Ht j s Hj), Hlo, Hla.
    rewrite (nth_lookup_Some _ _ _ _ Hlo), (nth_lookup_Some _ _ _ _ Hla).
    split; reflexivity. }
  split; [|split].
  - intros j s v Hj Hv. destruct (Hpos j s Hj) as [Hlo Hla].
    destruct (Hat j _ _ Hlo Hla) as (e & n & He & Hn & Ee & En).
    assert (v = e) by congruence. subst v. rewrite Ee.
    unfold partial, rotation_partial. rewrite Hu. reflexivity.
  - intros j s v Hj Hv. destruct (Hpos j s Hj) as [Hlo Hla].
    destruct (Hat j _ _ Hlo Hla) as (e & n & He & Hn & Ee & En).
    assert (v = n) by congruence. subst v. rewrite En.
    unfold partial, rotation_partial. rewrite Hu. reflexivity.
  - intros j s v Hj Hv. apply lookup_replicate in Hv. destruct Hv as [-> _].
    reflexivity.
Qed.

(** The values written on the rows of component [r] are the tabulated
    ones. *)
Lemma stride_values (i r c : nat) (vals : list Q) :
  r < 3 ->
  (forall j s v, on_block i !! j = Some s -> vals !! j = Some v ->
     (v == partial r c s)%Q) ->
  forall j row v,
    map (fun s => 3 * s + r) (on_block i) !! j = Some row ->
    vals !! j = Some v -> (v == partial r c (row / 3))%Q.
Proof.
  intros Hr H j row v Hrow Hv.
  change (map (fun s => 3 * s + r) (on_block i))
    with ((fun s => 3 * s + r) <$> on_block i) in Hrow.
  rewrite list_lookup_fmap in Hrow.
  destruct (on_block i !! j) as [s|] eqn:Hs; [|discriminate Hrow].
  cbn [fmap option_fmap option_map] in Hrow.
  assert (row = 3 * s + r) by congruence. subst row.
  replace ((3 * s + r) / 3) with s
    by (zify; Z.to_euclidean_division_equations; lia).
  apply (H j s v Hs Hv).
Qed.

Lemma stride_range (i r : nat) :
  r < 3 ->
  Forall (fun row => row < 3 * nrows f) (map (fun s => 3 * s + r) (on_block i)).
Proof.
  intros Hr. apply Forall_map. eapply Forall_impl; [apply on_block_range|].
  intros s Hs. cbn beta in *. lia.
Qed.

(** One round of the loop: block [i] is written over the table [g]. *)
Lemma block_step (i nb : nat) (rest : list nat) (op : matrix)
    (g : nat -> nat -> Q) :
  i < nb -> agrees op (3 * nrows f) (3 * nb) g ->
  exists op',
    agrees op' (3 * nrows f) (3 * nb) (next i g)
    /\ rotation_operator_loop sin_deg cos_deg sph2cart RADIUS_EARTH
         station (i :: rest) op w
       = rotation_operator_loop sin_deg cos_deg sph2cart RADIUS_EARTH
           station rest op' w.
Proof.
  intros Hi Hag.
  set (idx := on_block i).
  pose proof (on_block_range i) as Hrange. fold idx in Hrange.
  destruct (take_at_lookup lon idx) as (lon' & Hlon' & Llon' & Jlon').
  { rewrite lon_length. exact Hrange. }
  destruct (take_at_lookup lat idx) as (lat' & Hlat' & Llat' & Jlat').
  { rewrite lat_length. exact Hrange. }
  destruct (unit_call i 0 1 0 0 lon' lat' eq_refl Llon' Llat' Jlon' Jlat')
    as (vex & vnx & vux & Hx & Lvex & Lvnx & Lvux & Ex & Nx & Ux).
  destruct (unit_call i 1 0 1 0 lon' lat' eq_refl Llon' Llat' Jlon' Jlat')
    as (vey & vny & vuy & Hy & Lvey & Lvny & Lvuy & Ey & Ny & Uy).
  destruct (unit_call i 2 0 0 1 lon' lat' eq_refl Llon' Llat' Jlon' Jlat')
    as (vez & vnz & vuz & Hz & Lvez & Lvnz & Lvuz & Ez & Nz & Uz).
  change (on_block i) with idx
    in Lvex, Lvnx, Lvux, Lvey, Lvny, Lvuy, Lvez, Lvnz, Lvuz.
  assert (E0 : map (fun s => 3 * s) idx = map (fun s => 3 * s + 0) idx)
    by (apply map_ext; intros; lia).
  set (east := map (fun s => 3 * s + 0) idx) in *.
  set (north := map (fun s => 3 * s + 1) idx).
  set (up := map (fun s => 3 * s + 2) idx).
  assert (Le : length east = length idx) by apply length_map.
  assert (Ln : length north = length idx) by apply length_map.
  assert (Lu : length up = length idx) by apply length_map.
  destruct (set_entries_agrees east (3 * i) (3 * nrows f) (3 * nb)
              (fun row => partial 0 0 (row / 3)) vex op _ Hag)
    as (op1 & H1 & A1);
    [apply stride_range; lia | lia | lia | apply stride_values; [lia | exact Ex] |].
  destruct (set_entries_agrees east (3 * i + 1) (3 * nrows f) (3 * nb)
              (fun row => partial 0 1 (row / 3)) vey op1 _ A1)
    as (op2 & H2 & A2);
    [apply stride_range; lia | lia | lia | apply stride_values; [lia | exact Ey] |].
  destruct (set_entries_agrees east (3 * i + 2) (3 * nrows f) (3 * nb)
              (fun row => partial 0 2 (row / 3)) vez op2 _ A2)
    as (op3 & H3 & A3);
    [apply stride_range; lia | lia | lia | apply stride_values; [lia | exact Ez] |].
  destruct (set_entries_agrees north (3 * i) (3 * nrows f) (3 * nb)
              (fun row => partial 1 0 (row / 3)) vnx op3 _ A3)
    as (op4 & H4 & A4);
    [apply stride_range; lia | lia | lia | apply stride_values; [lia | exact Nx] |].
  destruct (set_entries_agrees north (3 * i + 1) (3 * nrows f) (3 * nb)
              (fun row => partial 1 1 (row / 3)) vny op4 _ A4)
    as (op5 & H5 & A5);
    [apply stride_range; lia | lia | lia | apply stride_values; [lia | exact Ny] |].
  destruct (set_entries_agrees north (3 * i + 2) (3 * nrows f) (3 * nb)
              (fun row => partial 1 2 (row / 3)) vnz op5 _ A5)
    as (op6 & H6 & A6);
    [apply stride_range; lia | lia | lia | apply stride_values; [lia | exact Nz] |].
  destruct (set_entries_agrees up (3 * i) (3 * nrows f) (3 * nb)
              (fun row => partial 2 0 (row / 3)) vux op6 _ A6)
    as (op7 & H7 & A7);
    [apply stride_range; lia | lia | lia | apply stride_values; [lia | exact Ux] |].
  destruct (set_entries_agrees up (3 * i + 1) (3 * nrows f) (3 * nb)
              (fun row => partial 2 1 (row / 3)) vuy op7 _ A7)
    as (op8 & H8 & A8);
    [apply stride_range; lia | lia | lia | apply stride_values; [lia | exact Uy] |].
  destruct (set_entries_agrees up (3 * i + 2) (3 * nrows f) (3 * nb)
              (fun row => partial 2 2 (row / 3)) vuz op8 _ A8)
    as (op9 & H9 & A9);
    [apply stride_range; lia | lia | lia | apply stride_values; [lia | exact Uz] |].
  exists op9. split.
  - eapply agrees_ext; [exact A9|].
    intros row c Hrow Hc. cbv beta. unfold east, north, up.
    rewrite !elem_of_stride by lia. unfold next. fold idx.
    destruct (bool_decide (row / 3 ∈ idx)).
    + assert (Hr : row mod 3 < 3) by (apply Nat.mod_upper_bound; lia).
      destruct (Nat.leb_spec (3 * i) c) as [Hlo | Hlo];
        destruct (Nat.ltb_spec c (3 * i + 3)) as [Hhi | Hhi]; cbn [andb];
        rewrite ?andb_true_r.
      * assert (Hc' : c = 3 * i + (c - 3 * i)) by lia.
        set (k := c - 3 * i) in *. assert (Hk : k < 3) by lia.
        rewrite Hc'. clearbody k.
        destruct (row mod 3) as [|[|[|r]]]; try lia;
          destruct k as [|[|[|k]]]; try lia;
          repeat (match goal with
                  | |- context [Nat.eqb ?a ?b] =>
                      destruct (Nat.eqb_spec a b); try lia
                  end);
          cbn [andb]; reflexivity.
      * repeat (match goal with
                | |- context [Nat.eqb ?a ?b] =>
                    destruct (Nat.eqb_spec a b); try lia
                end); cbn [andb]; reflexivity.
      * repeat (match goal with
                | |- context [Nat.eqb ?a ?b] =>
                    destruct (Nat.eqb_spec a b); try lia
                end); cbn [andb]; reflexivity.
      * repeat (match goal with
                | |- context [Nat.eqb ?a ?b] =>
                    destruct (Nat.eqb_spec a b); try lia
                end); cbn [andb]; reflexivity.
    + rewrite !andb_false_r. reflexivity.
  - cbn [rotation_operator_loop].
    rewrite (ints_step _ _ _ _ _ _ station_at labels_at).
    cbv zeta. fold (on_block i). fold idx.
    rewrite (to_numpy_step _ _ _ _ _ _ station_at lon_at).
    rewrite (lift_step _ _ _ _ Hlon').
    rewrite (to_numpy_step _ _ _ _ _ _ station_at lat_at).
    rewrite (lift_step _ _ _ _ Hlat').
    rewrite (lift_step _ _ _ _ Hx).
    rewrite (to_numpy_step _ _ _ _ _ _ station_at lon_at).
    rewrite (lift_step _ _ _ _ Hlon').
    rewrite (to_numpy_step _ _ _ _ _ _ station_at lat_at).
    rewrite (lift_step _ _ _ _ Hlat').
    rewrite (lift_step _ _ _ _ Hy).
    rewrite (to_numpy_step _ _ _ _ _ _ station_at lon_at).
    rewrite (lift_step _ _ _ _ Hlon').
    rewrite (to_numpy_step _ _ _ _ _ _ station_at lat_at).
    rewrite (lift_step _ _ _ _ Hlat').
    rewrite (lift_step _ _ _ _ Hz).
    rewrite E0. fold east north up.
    rewrite (lift_step _ _ _ _ H1), (lift_step _ _ _ _ H2),
      (lift_step _ _ _ _ H3), (lift_step _ _ _ _ H4),
      (lift_step _ _ _ _ H5), (lift_step _ _ _ _ H6),
      (lift_step _ _ _ _ H7), (lift_step _ _ _ _ H8),
      (lift_step _ _ _ _ H9).
    reflexivity.
Qed.

(** The table of the operator after the blocks below [k]. *)
Let table (k : nat) (row c : nat) : Q :=
  match labels !! (row / 3) with
  | Some l =>
      if (0 <=? l)%Z && (Z.to_nat l <? k)
         && (3 * Z.to_nat l <=? c) && (c <? 3 * Z.to_nat l + 3)
      then partial (row mod 3) (c - 3 * Z.to_nat l) (row / 3)
      else 0%Q
  | None => 0%Q
  end.

Lemma next_table (k row c : nat) :
  row < 3 * nrows f -> next k (table k) row c = table (S k) row c.
Proof.
  intros Hrow. unfold next, table.
  assert (Hs : row / 3 < length labels).
  { rewrite labels_length. zify; Z.to_euclidean_division_equations; lia. }
  destruct (lookup_lt_is_Some_2 labels (row / 3) Hs) as [l Hl]. rewrite Hl.
  destruct (decide (row / 3 ∈ on_block k)) as [Hin | Hout].
  - rewrite (bool_decide_eq_true_2 _ Hin).
    apply elem_of_where in Hin. destruct Hin as (l' & Hl' & Heq).
    assert (l' = l) by congruence. subst l'.
    apply Z.eqb_eq in Heq. subst l. rewrite Nat2Z.id.
    replace (0 <=? Z.of_nat k)%Z with true by (symmetry; apply Z.leb_le; lia).
    rewrite Nat.ltb_irrefl.
    replace (k <? S k) with true by (symmetry; apply Nat.ltb_lt; lia).
    cbn [andb].
    destruct ((3 * k <=? c) && (c <? 3 * k + 3)); reflexivity.
  - rewrite (bool_decide_eq_false_2 _ Hout). cbn [andb].
    destruct (Z.leb_spec 0 l) as [Hpos | Hneg]; cbn [andb]; [|reflexivity].
    assert (Hne : Z.to_nat l <> k).
    { intros E. apply Hout, elem_of_where. exists l. split; [exact Hl|].
      apply Z.eqb_eq. lia. }
    destruct (Nat.ltb_spec (Z.to_nat l) k);
      destruct (Nat.ltb_spec (Z.to_nat l) (S k)); try lia; reflexivity.
Qed.

(** The loop over the blocks [k], ..., [k + m - 1]. *)
Lemma loop_table (nb m : nat) :
  forall (k : nat) (op : matrix),
    k + m = nb ->
    agrees op (3 * nrows f) (3 * nb) (table k) ->
    exists op',
      rotation_operator_loop sin_deg cos_deg sph2cart RADIUS_EARTH
        station (seq k m) op w
      = Some (op', w)
      /\ agrees op' (3 * nrows f) (3 * nb) (table (k + m)).
Proof.
  induction m as [|m IH]; intros k op Hk Hag.
  - exists op. split; [reflexivity|]. rewrite Nat.add_0_r. exact Hag.
  - cbn [seq].
    destruct (block_step k nb (seq (S k) m) op (table k) ltac:(lia) Hag)
      as (op1 & A1 & Hstep).
    rewrite Hstep.
    destruct (IH (S k) op1 ltac:(lia)) as (op' & Hrun & A').
    { eapply agrees_ext; [exact A1|].
      intros row c Hrow _. rewrite next_table by exact Hrow. reflexivity. }
    exists op'. split; [exact Hrun|].
    replace (k + S m) with (S k + m) by lia. exact A'.
Qed.

(** The product of one row of the finished operator with a stacked
    vector of block rotations. *)
Lemma operator_row (nb : nat) (op : matrix) (s r : nat) (l : Z) (lo la : Q)
    (omega : list Q) :
  agrees op (3 * nrows f) (3 * nb) (table nb) ->
  r < 3 -> labels !! s = Some l -> (l < Z.of_nat nb)%Z ->
  lon !! s = Some lo -> lat !! s = Some la ->
  exists rw,
    op !! (3 * s + r) = Some rw
    /\ (Np.dot_aux rw omega
        == if (0 <=? l)%Z then
             rotation_partial sin_deg cos_deg lo la (point lo la) r 0
             * nth (3 * Z.to_nat l) omega 0
             + rotation_partial sin_deg cos_deg lo la (point lo la) r 1
               * nth (3 * Z.to_nat l + 1) omega 0
             + rotation_partial sin_deg cos_deg lo la (point lo la) r 2
               * nth (3 * Z.to_nat l + 2) omega 0
           else 0)%Q.
Proof.
  intros (Lop & Wop & Eop) Hr Hl Hlt Hlo Hla.
  pose proof (lookup_lt_Some _ _ _ Hl) as Hs. rewrite labels_length in Hs.
  destruct (lookup_lt_is_Some_2 op (3 * s + r) ltac:(lia)) as [rw Hrw].
  pose proof (Forall_lookup_1 _ _ _ _ Wop Hrw) as Lrw. cbv beta in Lrw.
  exists rw. split; [exact Hrw|].
  assert (Hdiv : (3 * s + r) / 3 = s)
    by (zify; Z.to_euclidean_division_equations; lia).
  assert (Hmod : (3 * s + r) mod 3 = r)
    by (zify; Z.to_euclidean_division_equations; lia).
  assert (Ent : forall c, c < 3 * nb ->
            exists v, rw !! c = Some v
                      /\ (v == if (0 <=? l)%Z && (3 * Z.to_nat l <=? c)
                                  && (c <? 3 * Z.to_nat l + 3)
                               then rotation_partial sin_deg cos_deg lo la
                                      (point lo la) r (c - 3 * Z.to_nat l)
                               else 0)%Q).
  { intros c Hc. destruct (Eop (3 * s + r) c ltac:(lia) Hc) as (v & Hv & Ev).
    unfold entry in Hv. rewrite Hrw in Hv. cbn [mbind option_bind] in Hv.
    exists v. split; [exact Hv|]. rewrite Ev. unfold table.
    rewrite Hdiv, Hmod, Hl. unfold partial.
    rewrite (nth_lookup_Some _ _ _ _ Hlo), (nth_lookup_Some _ _ _ _ Hla).
    destruct (Z.leb_spec 0 l) as [Hpos | Hneg]; cbn [andb]; [|reflexivity].
    replace (Z.to_nat l <? nb) with true
      by (symmetry; apply Nat.ltb_lt; lia).
    cbn [andb]. reflexivity. }
  destruct (Z.leb_spec 0 l) as [Hpos | Hneg].
  - set (b := Z.to_nat l) in *. assert (Hb : b < nb) by lia.
    rewrite (dot_aux_support [3 * b; 3 * b + 1; 3 * b + 2]).
    + cbn [foldr].
      destruct (Ent (3 * b) ltac:(lia)) as (v0 & H0 & E0).
      destruct (Ent (3 * b + 1) ltac:(lia)) as (v1 & H1 & E1).
      destruct (Ent (3 * b + 2) ltac:(lia)) as (v2 & H2 & E2).
      rewrite (nth_lookup_Some _ _ _ _ H0), (nth_lookup_Some _ _ _ _ H1),
        (nth_lookup_Some _ _ _ _ H2), E0, E1, E2.
      cbn [andb].
      replace (3 * b <=? 3 * b) with true by (symmetry; apply Nat.leb_le; lia).
      replace (3 * b <? 3 * b + 3) with true
        by (symmetry; apply Nat.ltb_lt; lia).
      replace (3 * b <=? 3 * b + 1) with true
        by (symmetry; apply Nat.leb_le; lia).
      replace (3 * b + 1 <? 3 * b + 3) with true
        by (symmetry; apply Nat.ltb_lt; lia).
      replace (3 * b <=? 3 * b + 2) with true
        by (symmetry; apply Nat.leb_le; lia).
      replace (3 * b + 2 <? 3 * b + 3) with true
        by (symmetry; apply Nat.ltb_lt; lia).
      cbn [andb].
      replace (3 * b - 3 * b) with 0 by lia.
      replace (3 * b + 1 - 3 * b) with 1 by lia.
      replace (3 * b + 2 - 3 * b) with 2 by lia.
      ring.
    + repeat (apply NoDup_cons; split;
              [rewrite ?elem_of_cons, elem_of_nil; lia|]).
      apply NoDup_nil_2.
    + repeat (apply Forall_cons; split; [lia|]). apply Forall_nil_2.
    + intros j v Hj Hnot.
      pose proof (lookup_lt_Some _ _ _ Hj) as Lj.
      rewrite !elem_of_cons, elem_of_nil in Hnot.
      destruct (Ent j ltac:(lia)) as (v' & Hv' & Ev').
      assert (v' = v) by congruence. subst v'. rewrite Ev'. cbn [andb].
      destruct (Nat.leb_spec (3 * b) j); destruct (Nat.ltb_spec j (3 * b + 3));
        cbn [andb]; try reflexivity.
      exfalso. apply Hnot. lia.
  - apply dot_aux_zero. intros j v Hj.
    pose proof (lookup_lt_Some _ _ _ Hj) as Lj.
    destruct (Ent j ltac:(lia)) as (v' & Hv' & Ev').
    assert (v' = v) by congruence. subst v'. rewrite Ev'. reflexivity.
Qed.

(** The loop over all blocks, started on zeros. *)
Lemma rotation_operator_rows (nb : nat) :
  exists op,
    rotation_operator_loop sin_deg cos_deg sph2cart RADIUS_EARTH
      station (seq 0 nb) (zeros (3 * nrows f) (3 * nb)) w
    = Some (op, w)
    /\ length op = 3 * nrows f
    /\ Forall (fun row => length row = 3 * nb) op
    /\ forall (s r : nat) (l : Z) (lo la : Q) (omega : list Q),
         r < 3 -> labels !! s = Some l -> (l < Z.of_nat nb)%Z ->
         lon !! s = Some lo -> lat !! s = Some la ->
         exists rw,
           op !! (3 * s + r) = Some rw
           /\ (Np.dot_aux rw omega
               == if (0 <=? l)%Z then
                    rotation_partial sin_deg cos_deg lo la (point lo la) r 0
                    * nth (3 * Z.to_nat l) omega 0
                    + rotation_partial sin_deg cos_deg lo la (point lo la) r 1
                      * nth (3 * Z.to_nat l + 1) omega 0
                    + rotation_partial sin_deg cos_deg lo la (point lo la) r 2
                      * nth (3 * Z.to_nat l + 2) omega 0
                  else 0)%Q.
Proof.
  destruct (loop_table nb nb 0 (zeros (3 * nrows f) (3 * nb)) ltac:(lia))
    as (op & Hrun & Hag).
  { eapply agrees_ext; [apply agrees_zeros|].
    intros row c _ _. unfold table.
    destruct (labels !! (row / 3)) as [l|]; [|reflexivity].
    rewrite (proj2 (Nat.ltb_ge (Z.to_nat l) 0)) by lia.
    rewrite andb_false_r. reflexivity. }
  exists op. split; [exact Hrun|].
  cbn [Nat.add] in Hag.
  split; [exact (proj1 Hag)|]. split; [exact (proj1 (proj2 Hag))|].
  intros s r l lo la omega Hr Hl Hlt Hlo Hla.
  apply (operator_row nb op s r l lo la omega Hag Hr Hl Hlt Hlo Hla).
Qed.

End Operator.

Section Velocities.

Variables sin_deg cos_deg : Q -> Q.
Variable sph2cart : list Q -> list Q -> Q -> option (list Q * list Q * list Q).
Variable RADIUS_EARTH : Q.
Variable point : Q -> Q -> Q * Q * Q.

(** The three columns of a block applied to its rotation vector. *)
Lemma partial_product (lo la : Q) (r b : nat) (omega : list Q) :
  (rotation_partial sin_deg cos_deg lo la (point lo la) r 0
   * nth (3 * b) omega 0
   + rotation_partial sin_deg cos_deg lo la (point lo la) r 1
     * nth (3 * b + 1) omega 0
   + rotation_partial sin_deg cos_deg lo la (point lo la) r 2
     * nth (3 * b + 2) omega 0
   == match r with
      | O => dot3 (east_unit sin_deg cos_deg lo la)
               (Np.cross3 (block_omega omega b) (point lo la))
      | S O => dot3 (north_unit sin_deg cos_deg lo la)
               (Np.cross3 (block_omega omega b) (point lo la))
      | _ => 0
      end)%Q.
Proof.
  unfold rotation_partial, block_omega, unit_omega, east_unit, north_unit,
    dot3, Np.cross3.
  destruct (point lo la) as [[px py] pz].
  destruct r as [|[|r]]; ring.
Qed.

(** X23: on a well-formed station table with integer block labels of
    which the largest is at least -1, and with [sph2cart] working point by
    point, [get_block_rotation_operator] returns, without changing the
    table, an operator with three rows per station and three columns per
    block.  Applied to the stacked rotation vectors of the blocks, the
    east and north rows of a station give the components of the velocity
    omega x r of the station's own block along the local east and north
    directions, and the up row gives 0; the rows of a station with a
    negative label give 0. *)
Theorem get_block_rotation_operator_velocities (w : world) (station : nat)
    (f : frame) (labels : list Z) (lon lat : list Q) (m : Z) :
  pointwise sph2cart RADIUS_EARTH point ->
  heap w !! station = Some f -> frame_wf f ->
  columns f !! "block_label" = Some (IntCol labels) ->
  numbers f "lon" = Some lon -> numbers f "lat" = Some lat ->
  np_max labels = Some m -> (-1 <= m)%Z ->
  exists op,
    get_block_rotation_operator sin_deg cos_deg sph2cart RADIUS_EARTH
      station w
    = Some (op, w)
    /\ length op = 3 * nrows f
    /\ Forall (fun row => length row = 3 * Z.to_nat (m + 1)) op
    /\ forall (s : nat) (l : Z) (lo la : Q) (omega : list Q),
         labels !! s = Some l -> lon !! s = Some lo -> lat !! s = Some la ->
         exists east north up,
           op !! (3 * s) = Some east /\ op !! (3 * s + 1) = Some north
           /\ op !! (3 * s + 2) = Some up
           /\ (Np.dot_aux east omega
               == if (0 <=? l)%Z
                  then dot3 (east_unit sin_deg cos_deg lo la)
                         (Np.cross3 (block_omega omega (Z.to_nat l))
                            (point lo la))
                  else 0)%Q
           /\ (Np.dot_aux north omega
               == if (0 <=? l)%Z
                  then dot3 (north_unit sin_deg cos_deg lo la)
                         (Np.cross3 (block_omega omega (Z.to_nat l))
                            (point lo la))
                  else 0)%Q
           /\ (Np.dot_aux up omega == 0)%Q.
Proof.
  intros Hsph Hs W Hlabels Hlon Hlat Hmax Hm.
  pose proof (map_Forall_lookup_1 _ _ _ _ W Hlabels) as Llabels.
  cbn in Llabels.
  pose proof (numbers_length _ _ _ W Hlon) as Llon.
  pose proof (numbers_length _ _ _ W Hlat) as Llat.
  pose proof (np_max_bound _ _ Hmax) as Hbound.
  set (nb := Z.to_nat (m + 1)).
  destruct (rotation_operator_rows sin_deg cos_deg sph2cart RADIUS_EARTH
              point Hsph w station f labels lon lat Hs Hlabels Hlon Hlat
              Llabels Llon Llat nb)
    as (op & Hrun & Lop & Wop & Hrows).
  exists op. split.
  { unfold get_block_rotation_operator.
    rewrite (ints_step _ _ _ _ _ _ Hs Hlabels).
    rewrite (lift_step _ _ _ _ Hmax).
    rewrite (bind_run _ _ _ _ _ (load_run _ _ _ Hs)).
    destruct (Z.ltb_spec (m + 1) 0) as [Hneg | _]; [lia|].
    cbv zeta. fold nb. exact Hrun. }
  split; [exact Lop|]. split; [exact Wop|].
  intros s l lo la omega Hl Hlo Hla.
  assert (Hlt : (l < Z.of_nat nb)%Z).
  { pose proof (proj1 (Forall_lookup _ _) Hbound s l Hl) as Hle.
    cbn beta in Hle. unfold nb. lia. }
  destruct (Hrows s 0 l lo la omega ltac:(lia) Hl Hlt Hlo Hla)
    as (east & He & Pe).
  destruct (Hrows s 1 l lo la omega ltac:(lia) Hl Hlt Hlo Hla)
    as (north & Hn & Pn).
  destruct (Hrows s 2 l lo la omega ltac:(lia) Hl Hlt Hlo Hla)
    as (up & Hu & Pu).
  rewrite Nat.add_0_r in He.
  exists east, north, up.
  split; [exact He|]. split; [exact Hn|]. split; [exact Hu|].
  rewrite Pe, Pn, Pu.
  destruct (0 <=? l)%Z.
  - rewrite !partial_product. repeat split; reflexivity.
  - repeat split; reflexivity.
Qed.

Lemma np_max_zeros (labels : list Z) :
  labels <> [] -> np_max (map (fun _ => 0%Z) labels) = Some 0%Z.
Proof.
  destruct labels as [|a labels]; [congruence|]. intros _.
  cbn [map np_max]. f_equal.
  induction labels as [|b labels IH]; [reflexivity|].
  cbn [map foldr]. rewrite IH. reflexivity.
Qed.

(** X24: [get_global_float_block_rotation_operator] works on a copy of the
    station table in which every station is on block 0, and leaves the
    table it was given as it is.  The operator has three columns; applied
    to one rotation vector, the east and north rows of every station give
    the components of omega x r along the local east and north directions,
    whatever block the station is on, and the up row gives 0. *)
Theorem get_global_float_block_rotation_operator_velocities (w : world)
    (station : nat) (f : frame) (labels : list Z) (lon lat : list Q) :
  pointwise sph2cart RADIUS_EARTH point ->
  heap w !! station = Some f -> frame_wf f ->
  columns f !! "block_label" = Some (IntCol labels) ->
  numbers f "lon" = Some lon -> numbers f "lat" = Some lat ->
  0 < nrows f ->
  exists op c w',
    get_global_float_block_rotation_operator sin_deg cos_deg sph2cart
      RADIUS_EARTH station w
    = Some (op, w')
    /\ heap w !! c = None
    /\ heap w' !! station = Some f
    /\ (forall l, l <> c -> heap w' !! l = heap w !! l)
    /\ length op = 3 * nrows f
    /\ Forall (fun row => length row = 3) op
    /\ forall (s : nat) (lo la : Q) (omega : list Q),
         lon !! s = Some lo -> lat !! s = Some la ->
         exists east north up,
           op !! (3 * s) = Some east /\ op !! (3 * s + 1) = Some north
           /\ op !! (3 * s + 2) = Some up
           /\ (Np.dot_aux east omega
               == dot3 (east_unit sin_deg cos_deg lo la)
                    (Np.cross3 (block_omega omega 0) (point lo la)))%Q
           /\ (Np.dot_aux north omega
               == dot3 (north_unit sin_deg cos_deg lo la)
                    (Np.cross3 (block_omega omega 0) (point lo la)))%Q
           /\ (Np.dot_aux up omega == 0)%Q.
Proof.
  intros Hsph Hs W Hlabels Hlon Hlat Hrows.
  pose proof (map_Forall_lookup_1 _ _ _ _ W Hlabels) as Llabels.
  cbn in Llabels.
  pose proof (numbers_length _ _ _ W Hlon) as Llon.
  pose proof (numbers_length _ _ _ W Hlat) as Llat.
  set (c := fresh (dom (heap w))).
  assert (Hc : heap w !! c = None) by apply fresh_not_allocated.
  assert (N : station <> c) by congruence.
  set (zeros_labels := map (fun _ => 0%Z) labels).
  set (f' := Frame (nrows f)
               (<["block_label" := IntCol zeros_labels]> (columns f))).
  set (w2 := World (<[c := f']> (<[c := f]> (heap w))) (stdout w)).
  assert (Hs2 : heap w2 !! c = Some f') by (cbn; apply lookup_insert_eq).
  assert (Hlabels' : columns f' !! "block_label" = Some (IntCol zeros_labels))
    by (cbn; apply lookup_insert_eq).
  assert (Hlon' : numbers f' "lon" = Some lon).
  { unfold numbers, f'. cbn [columns].
    rewrite lookup_insert_ne by discriminate. exact Hlon. }
  assert (Hlat' : numbers f' "lat" = Some lat).
  { unfold numbers, f'. cbn [columns].
    rewrite lookup_insert_ne by discriminate. exact Hlat. }
  assert (Lz : length zeros_labels = nrows f')
    by (unfold zeros_labels; rewrite length_map; exact Llabels).
  assert (Hmax : np_max zeros_labels = Some 0%Z).
  { apply np_max_zeros. intros E. rewrite E in Llabels. cbn in Llabels. lia. }
  destruct (rotation_operator_rows sin_deg cos_deg sph2cart RADIUS_EARTH
              point Hsph w2 c f' zeros_labels lon lat Hs2 Hlabels' Hlon' Hlat'
              Lz Llon Llat 1)
    as (op & Hrun & Lop & Wop & Hrws).
  exists op, c, w2. split.
  { unfold get_global_float_block_rotation_operator.
    rewrite (bind_run _ _ _ _ _ (deepcopy_run _ _ _ Hs)). fold c.
    unfold zero_block_labels.
    rewrite bind_assoc.
    rewrite (bind_run _ _ _ _ _
               (load_run c f (World (<[c := f]> (heap w)) (stdout w))
                  ltac:(cbn; apply lookup_insert_eq))).
    rewrite bind_assoc.
    rewrite (ints_step c "block_label" f labels
               (World (<[c := f]> (heap w)) (stdout w)))
      by (cbn; try apply lookup_insert_eq; exact Hlabels).
    fold zeros_labels f'.
    change ((store c f' ≫= fun _ =>
               get_block_rotation_operator sin_deg cos_deg sph2cart
                 RADIUS_EARTH c)
              (World (<[c := f]> (heap w)) (stdout w)))
      with (get_block_rotation_operator sin_deg cos_deg sph2cart
              RADIUS_EARTH c w2).
    unfold get_block_rotation_operator.
    rewrite (ints_step _ _ _ _ _ _ Hs2 Hlabels').
    rewrite (lift_step _ _ _ _ Hmax).
    rewrite (bind_run _ _ _ _ _ (load_run _ _ _ Hs2)).
    exact Hrun. }
  split; [exact Hc|].
  split; [cbn; now rewrite !heap_insert_other|].
  split; [intros l Hl; cbn; now rewrite !heap_insert_other|].
  split; [exact Lop|]. split; [exact Wop|].
  intros s lo la omega Hlo Hla.
  pose proof (lookup_lt_Some _ _ _ Hlo) as Hlt.
  assert (Hl : zeros_labels !! s = Some 0%Z).
  { unfold zeros_labels.
    change (map (fun _ => 0%Z) labels) with ((fun _ : Z => 0%Z) <$> labels).
    rewrite list_lookup_fmap.
    destruct (lookup_lt_is_Some_2 labels s ltac:(lia)) as [l ->].
    reflexivity. }
  destruct (Hrws s 0 0%Z lo la omega ltac:(lia) Hl ltac:(lia) Hlo Hla)
    as (east & He & Pe).
  destruct (Hrws s 1 0%Z lo la omega ltac:(lia) Hl ltac:(lia) Hlo Hla)
    as (north & Hn & Pn).
  destruct (Hrws s 2 0%Z lo la omega ltac:(lia) Hl ltac:(lia) Hlo Hla)
    as (up & Hu & Pu).
  rewrite Nat.add_0_r in He.
  exists east, north, up.
  split; [exact He|]. split; [exact Hn|]. split; [exact Hu|].
  rewrite Pe, Pn, Pu. cbn [Z.leb Z.compare Z.to_nat].
  rewrite !partial_product. repeat split; reflexivity.
Qed.

End Velocities.

Lemma sample_rotation_station_wf : frame_wf sample_rotation_station.
Proof.
  unfold frame_wf, sample_rotation_station.
  cbn [columns nrows list_to_map foldr].
  repeat (apply map_Forall_insert_2; [reflexivity|]).
  apply map_Forall_empty.
Qed.

Lemma sample_sph2cart_pointwise :
  pointwise sample_sph2cart_arrays 6371 sample_point.
Proof. intros lon lat _. reflexivity. Qed.

Lemma get_block_rotation_operator_velocities_witness :
  exists op,
    get_block_rotation_operator sample_sin sample_cos sample_sph2cart_arrays
      6371 0 (World {[ 0 := sample_rotation_station ]} [])
    = Some (op, World {[ 0 := sample_rotation_station ]} [])
    /\ length op = 3 * nrows sample_rotation_station
    /\ Forall (fun row => length row = 3 * Z.to_nat (1 + 1)) op
    /\ forall (s : nat) (l : Z) (lo la : Q) (omega : list Q),
         [1; 0; 1]%Z !! s = Some l -> [10; 20; 30]%Q !! s = Some lo ->
         [1; 2; 3]%Q !! s = Some la ->
         exists east north up,
           op !! (3 * s) = Some east /\ op !! (3 * s + 1) = Some north
           /\ op !! (3 * s + 2) = Some up
           /\ (Np.dot_aux east omega
               == if (0 <=? l)%Z
                  then dot3 (east_unit sample_sin sample_cos lo la)
                         (Np.cross3 (block_omega omega (Z.to_nat l))
                            (sample_point lo la))
                  else 0)%Q
           /\ (Np.dot_aux north omega
               == if (0 <=? l)%Z
                  then dot3 (north_unit sample_sin sample_cos lo la)
                         (Np.cross3 (block_omega omega (Z.to_nat l))
                            (sample_point lo la))
                  else 0)%Q
           /\ (Np.dot_aux up omega == 0)%Q.
Proof.
  apply (get_block_rotation_operator_velocities sample_sin sample_cos
           sample_sph2cart_arrays 6371 sample_point
           (World {[ 0 := sample_rotation_station ]} []) 0
           sample_rotation_station [1; 0; 1]%Z [10; 20; 30]%Q [1; 2; 3]%Q 1);
    [exact sample_sph2cart_pointwise | reflexivity
     | exact sample_rotation_station_wf | reflexivity | reflexivity
     | reflexivity | reflexivity | lia].
Defined.


Lemma get_global_float_block_rotation_operator_velocities_witness :
  exists op c w',
    get_global_float_block_rotation_operator sample_sin sample_cos
      sample_sph2cart_arrays 6371 0
      (World {[ 0 := sample_rotation_station ]} [])
    = Some (op, w')
    /\ heap (World {[ 0 := sample_rotation_station ]} []) !! c = None
    /\ heap w' !! 0 = Some sample_rotation_station
    /\ (forall l, l <> c ->
          heap w' !! l
          = heap (World {[ 0 := sample_rotation_station ]} []) !! l)
    /\ length op = 3 * nrows sample_rotation_station
    /\ Forall (fun row => length row = 3) op
    /\ forall (s : nat) (lo la : Q) (omega : list Q),
         [10; 20; 30]%Q !! s = Some lo -> [1; 2; 3]%Q !! s = Some la ->
         exists east north up,
           op !! (3 * s) = Some east /\ op !! (3 * s + 1) = Some north
           /\ op !! (3 * s + 2) = Some up
           /\ (Np.dot_aux east omega
               == dot3 (east_unit sample_sin sample_cos lo la)
                    (Np.cross3 (block_omega omega 0) (sample_point lo la)))%Q
           /\ (Np.dot_aux north omega
               == dot3 (north_unit sample_sin sample_cos lo la)
                    (Np.cross3 (block_omega omega 0) (sample_point lo la)))%Q
           /\ (Np.dot_aux up omega == 0)%Q.
Proof.
  apply (get_global_float_block_rotation_operator_velocities
           sample_sin sample_cos sample_sph2cart_arrays 6371 sample_point
           (World {[ 0 := sample_rotation_station ]} []) 0
           sample_rotation_station [1; 0; 1]%Z [10; 20; 30]%Q [1; 2; 3]%Q);
    [exact sample_sph2cart_pointwise | reflexivity
     | exact sample_rotation_station_wf | reflexivity | reflexivity
     | reflexivity | cbn; lia].
Defined.

End BlockRotationFacts.
